(** * EduDraw: a shallow embedding of the draw logic and of the four
      interactive visualisations (wheel, duck race, marble race, card).

    JavaScript numbers are embedded as exact rationals ([Q]) wherever the
    code only adds, multiplies, divides, compares and truncates them, and
    as reals ([R]) in the duck race, whose kinematics go through
    [Math.sin].  Where a statement depends on the rounding of IEEE
    doubles, the computation is embedded a second time in binary64:
    [Double] rounds to 53 significant bits and [SpinWheel64] is the spin
    of the wheel computed that way.
    Array indices and lengths are [nat]; [numGroups] is a [Z] because the
    code tests its sign. *)

From Stdlib Require Import ZArith QArith Qround Qabs Qpower Lqa Reals Lra Psatz.
From Stdlib Require Import String Ascii.
From stdpp Require Import base list pretty.

Local Open Scope string_scope.
Local Open Scope list_scope.

(** ** JavaScript number helpers *)

Module JS.

(** Truncation toward zero of a rational. *)
Definition trunc (x : Q) : Z := Z.quot (Qnum x) (Zpos (Qden x)).

(** [a % b] on numbers: the remainder has the sign of the dividend. *)
Definition rem (a b : Q) : Q := (a - b * inject_Z (trunc (a / b)))%Q.

(** [Math.floor]. *)
Definition floor (x : Q) : Z := Qfloor x.

(** [Math.floor(r * len)] used as an array position. *)
Definition randomIndex (r : Q) (len : nat) : nat :=
  Z.to_nat (floor (r * inject_Z (Z.of_nat len))%Q).

(** [arr.map((_, i) => i)]. *)
Definition indices {A} (arr : list A) : list nat := seq 0 (length arr).

(** [arr.splice(i, 1)] on a copy: the array without position [i]. *)
Definition splice1 {A} (i : nat) (arr : list A) : list A := delete i arr.

(** [arr.slice(0, n)]. *)
Definition slice0 {A} (n : nat) (arr : list A) : list A := take n arr.

End JS.

(** ** Binary64 arithmetic

    A JavaScript number is an IEEE 754 double.  [round] is
    round-to-nearest, ties-to-even, to 53 significant bits, and every
    arithmetic operation is the exact operation followed by [round].
    [%] is exact on doubles and stays [JS.rem].  The exponent is not
    bounded: overflow and subnormal numbers are not modelled, and no
    result of the spin computed below comes near either. *)

Module Double.

(** [2^e], for an exponent of either sign. *)
Definition pow2 (e : Z) : Q := (2 ^ e)%Q.

(** The exponent [e] of a number other than zero: [2^e <= |q| < 2^(e+1)]. *)
Definition exponent (q : Q) : Z :=
  let a := Qabs q in
  let e := (Z.log2 (Qnum a) - Z.log2 (Zpos (Qden a)))%Z in
  if Qle_bool (pow2 e) a then e else (e - 1)%Z.

(** The nearest integer, the even one of two that are equally near. *)
Definition nearest_even (q : Q) : Z :=
  let f := Qfloor q in
  match (q - inject_Z f ?= 1 # 2)%Q with
  | Lt => f
  | Gt => (f + 1)%Z
  | Eq => if Z.even f then f else (f + 1)%Z
  end.

(** Rounding to 53 significant bits. *)
Definition round (q : Q) : Q :=
  if Qeq_bool q 0 then 0%Q else
  let ulp := pow2 (exponent q - 52) in
  Qred (inject_Z (nearest_even (q / ulp)) * ulp).

Definition add (a b : Q) : Q := round (a + b).
Definition sub (a b : Q) : Q := round (a - b).
Definition mul (a b : Q) : Q := round (a * b).
Definition div (a b : Q) : Q := round (a / b).

(** The unit roundoff [2^-53]. *)
Definition u64 : Q := 1 # 9007199254740992.

End Double.

(** ** Types (types.ts) *)

Inductive DrawMode := single | paired | groups | interactive.
Inductive InteractiveMode := wheel | race | marble | card.

Record HistoryEntry := {
  h_id : Z;
  h_result : string;
  h_mode : DrawMode;
  h_timestamp : string;
  h_groups : option (list (list string));
}.

Record AppState := {
  names : list string;
  tasks : list string;
  history : list HistoryEntry;
  isNameNoRepeat : bool;
  availableNamesIndices : list nat;
  isTaskNoRepeat : bool;
  availableTasksIndices : list nat;
  mode : DrawMode;
  interactiveMode : InteractiveMode;
  numGroups : Z;
}.

(** One property of a [Partial<AppState>] object literal. *)
Inductive Update :=
  | Names (v : list string)
  | Tasks (v : list string)
  | History (v : list HistoryEntry)
  | IsNameNoRepeat (v : bool)
  | AvailableNamesIndices (v : list nat)
  | IsTaskNoRepeat (v : bool)
  | AvailableTasksIndices (v : list nat)
  | Mode (v : DrawMode)
  | InteractiveModeSel (v : InteractiveMode)
  | NumGroups (v : Z).

Definition assign (prev : AppState) (u : Update) : AppState :=
  match u with
  | Names v =>
      {| names := v; tasks := tasks prev; history := history prev;
         isNameNoRepeat := isNameNoRepeat prev;
         availableNamesIndices := availableNamesIndices prev;
         isTaskNoRepeat := isTaskNoRepeat prev;
         availableTasksIndices := availableTasksIndices prev;
         mode := mode prev; interactiveMode := interactiveMode prev;
         numGroups := numGroups prev |}
  | Tasks v =>
      {| names := names prev; tasks := v; history := history prev;
         isNameNoRepeat := isNameNoRepeat prev;
         availableNamesIndices := availableNamesIndices prev;
         isTaskNoRepeat := isTaskNoRepeat prev;
         availableTasksIndices := availableTasksIndices prev;
         mode := mode prev; interactiveMode := interactiveMode prev;
         numGroups := numGroups prev |}
  | History v =>
      {| names := names prev; tasks := tasks prev; history := v;
         isNameNoRepeat := isNameNoRepeat prev;
         availableNamesIndices := availableNamesIndices prev;
         isTaskNoRepeat := isTaskNoRepeat prev;
         availableTasksIndices := availableTasksIndices prev;
         mode := mode prev; interactiveMode := interactiveMode prev;
         numGroups := numGroups prev |}
  | IsNameNoRepeat v =>
      {| names := names prev; tasks := tasks prev; history := history prev;
         isNameNoRepeat := v;
         availableNamesIndices := availableNamesIndices prev;
         isTaskNoRepeat := isTaskNoRepeat prev;
         availableTasksIndices := availableTasksIndices prev;
         mode := mode prev; interactiveMode := interactiveMode prev;
         numGroups := numGroups prev |}
  | AvailableNamesIndices v =>
      {| names := names prev; tasks := tasks prev; history := history prev;
         isNameNoRepeat := isNameNoRepeat prev;
         availableNamesIndices := v;
         isTaskNoRepeat := isTaskNoRepeat prev;
         availableTasksIndices := availableTasksIndices prev;
         mode := mode prev; interactiveMode := interactiveMode prev;
         numGroups := numGroups prev |}
  | IsTaskNoRepeat v =>
      {| names := names prev; tasks := tasks prev; history := history prev;
         isNameNoRepeat := isNameNoRepeat prev;
         availableNamesIndices := availableNamesIndices prev;
         isTaskNoRepeat := v;
         availableTasksIndices := availableTasksIndices prev;
         mode := mode prev; interactiveMode := interactiveMode prev;
         numGroups := numGroups prev |}
  | AvailableTasksIndices v =>
      {| names := names prev; tasks := tasks prev; history := history prev;
         isNameNoRepeat := isNameNoRepeat prev;
         availableNamesIndices := availableNamesIndices prev;
         isTaskNoRepeat := isTaskNoRepeat prev;
         availableTasksIndices := v;
         mode := mode prev; interactiveMode := interactiveMode prev;
         numGroups := numGroups prev |}
  | Mode v =>
      {| names := names prev; tasks := tasks prev; history := history prev;
         isNameNoRepeat := isNameNoRepeat prev;
         availableNamesIndices := availableNamesIndices prev;
         isTaskNoRepeat := isTaskNoRepeat prev;
         availableTasksIndices := availableTasksIndices prev;
         mode := v; interactiveMode := interactiveMode prev;
         numGroups := numGroups prev |}
  | InteractiveModeSel v =>
      {| names := names prev; tasks := tasks prev; history := history prev;
         isNameNoRepeat := isNameNoRepeat prev;
         availableNamesIndices := availableNamesIndices prev;
         isTaskNoRepeat := isTaskNoRepeat prev;
         availableTasksIndices := availableTasksIndices prev;
         mode := mode prev; interactiveMode := v;
         numGroups := numGroups prev |}
  | NumGroups v =>
      {| names := names prev; tasks := tasks prev; history := history prev;
         isNameNoRepeat := isNameNoRepeat prev;
         availableNamesIndices := availableNamesIndices prev;
         isTaskNoRepeat := isTaskNoRepeat prev;
         availableTasksIndices := availableTasksIndices prev;
         mode := mode prev; interactiveMode := interactiveMode prev;
         numGroups := v |}
  end.

(** [{ ...prev, ...updates }]: later properties win. *)
Definition merge (prev : AppState) (updates : list Update) : AppState :=
  fold_left assign updates prev.

Definition DEFAULT_STATE : AppState := {|
  names := ["John"; "Jane"; "Alice"; "Bob"; "Charlie"; "Diana"];
  tasks := [];
  history := [];
  isNameNoRepeat := false;
  availableNamesIndices := [0; 1; 2; 3; 4; 5]%nat;
  isTaskNoRepeat := false;
  availableTasksIndices := [];
  mode := single;
  interactiveMode := wheel;
  numGroups := 2;
|}.

(** ** The engine's [Array.prototype.sort] under a comparator that ignores
    its arguments

    The source calls the built-in sort with [() => Math.random() - 0.5].
    Whatever algorithm the engine uses, its run on an array of a given
    length is a finite decision tree over the signs the comparator
    returns; a leaf gives, for each position of the result, the position
    of the input it holds. *)

Inductive SortRun :=
  | Sorted (order : list nat)
  | Cmp (neg zero pos : SortRun).

(** A sample engine: straight insertion sort, scanning leftwards while the
    comparator is positive. *)
Fixpoint insert_run (x : nat) (rev_left right : list nat)
    (k : list nat -> SortRun) : SortRun :=
  match rev_left with
  | [] => k (x :: right)
  | y :: rl =>
      let stop := k (rev rl ++ y :: x :: right) in
      Cmp stop stop (insert_run x rl (y :: right) k)
  end.

Fixpoint isort_run (todo done : list nat) : SortRun :=
  match todo with
  | [] => Sorted done
  | x :: t => insert_run x (rev done) [] (fun l => isort_run t l)
  end.

Definition insertion_engine (n : nat) : SortRun := isort_run (seq 0 n) [].

Fixpoint leaves (t : SortRun) : list (list nat) :=
  match t with
  | Sorted o => [o]
  | Cmp a b c => leaves a ++ leaves b ++ leaves c
  end.

(** The comparator of [handleDraw]: [() => Math.random() - 0.5]. *)
Definition comparator (r : Q) : Q := (r - (1 # 2))%Q.

(** [run_sort t random k]: the engine's run when the [k]-th and later calls
    of [Math.random()] return [random k], [random (k+1)], ...; gives the
    order and the number of calls made so far. *)
Fixpoint run_sort (t : SortRun) (random : nat -> Q) (k : nat) : list nat * nat :=
  match t with
  | Sorted o => (o, k)
  | Cmp a b c =>
      match (comparator (random k) ?= 0)%Q with
      | Lt => run_sort a random (S k)
      | Eq => run_sort b random (S k)
      | Gt => run_sort c random (S k)
      end
  end.

(** Probability that the run ends in [order] when every call of
    [Math.random()] is uniform on [[0,1)] and independent: the comparator
    is negative with probability 1/2, zero with probability 0 and positive
    with probability 1/2. *)
Fixpoint prob (t : SortRun) (order : list nat) : Q :=
  match t with
  | Sorted o => if decide (o = order) then 1%Q else 0%Q
  | Cmp a b c => ((1 # 2) * prob a order + 0 * prob b order + (1 # 2) * prob c order)%Q
  end.

(** ** App.tsx: React state and event handlers *)

Module App.

(** Observable side effects of a handler other than React state. *)
Inductive Effect :=
  | Toast (msg : string)
  | PlayDrawSound
  | ResultAnimation
  | ClearNameInput
  | ClearTaskInput.

(** What a handler run accumulates: the queue of [setState] updaters
    already folded into [s_state], the other [useState] cells it sets,
    the number of [Math.random()] calls made, and its effects. *)
Record Store := {
  s_state : AppState;
  s_isSpinning : bool;
  s_currentWinner : option (string * nat);
  s_resultCardText : string;
  s_calls : nat;
  s_effects : list Effect;
}.

Definition M (A : Type) : Type := Store -> A * Store.
Definition ret {A} (a : A) : M A := fun s => (a, s).
Definition bind {A B} (m : M A) (f : A -> M B) : M B :=
  fun s => let (a, s') := m s in f a s'.

Declare Scope handler_scope.
Delimit Scope handler_scope with handler.
Notation "x <- m ;; k" := (bind m (fun x => k))
  (at level 100, m at next level, right associativity) : handler_scope.
Notation "m ;;; k" := (bind m (fun _ => k))
  (at level 100, right associativity) : handler_scope.
Local Open Scope handler_scope.

Definition modify (f : Store -> Store) : M unit := fun s => (tt, f s).

Definition emit (e : Effect) : M unit :=
  modify (fun s =>
    {| s_state := s_state s; s_isSpinning := s_isSpinning s;
       s_currentWinner := s_currentWinner s;
       s_resultCardText := s_resultCardText s;
       s_calls := s_calls s; s_effects := s_effects s ++ [e] |}).

(** [setState(prev => ({ ...prev, ...updates }))]. *)
Definition updateState (updates : list Update) : M unit :=
  modify (fun s =>
    {| s_state := merge (s_state s) updates; s_isSpinning := s_isSpinning s;
       s_currentWinner := s_currentWinner s;
       s_resultCardText := s_resultCardText s;
       s_calls := s_calls s; s_effects := s_effects s |}).

Definition setIsSpinning (v : bool) : M unit :=
  modify (fun s =>
    {| s_state := s_state s; s_isSpinning := v;
       s_currentWinner := s_currentWinner s;
       s_resultCardText := s_resultCardText s;
       s_calls := s_calls s; s_effects := s_effects s |}).

Definition setCurrentWinner (v : option (string * nat)) : M unit :=
  modify (fun s =>
    {| s_state := s_state s; s_isSpinning := s_isSpinning s;
       s_currentWinner := v;
       s_resultCardText := s_resultCardText s;
       s_calls := s_calls s; s_effects := s_effects s |}).

Definition setResultCardText (v : string) : M unit :=
  modify (fun s =>
    {| s_state := s_state s; s_isSpinning := s_isSpinning s;
       s_currentWinner := s_currentWinner s;
       s_resultCardText := v;
       s_calls := s_calls s; s_effects := s_effects s |}).

(** [setTempMessage(msg)] with its 3 s expiry. *)
Definition showToast (msg : string) : M unit := emit (Toast msg).
Definition playDrawSound : M unit := emit PlayDrawSound.
Definition triggerResultAnimation : M unit := emit ResultAnimation.

(** [arr[i]] read as a string: [undefined] outside the array. *)
Definition at_index (arr : list string) (i : nat) : string :=
  default "undefined" (arr !! i).

(** Numbers inside template literals. *)
Definition nat_to_string (n : nat) : string := pretty n.

Definition Z_to_string (z : Z) : string := pretty z.

(** [arr.join(sep)]. *)
Fixpoint join (sep : string) (arr : list string) : string :=
  match arr with
  | [] => ""
  | [x] => x
  | x :: rest => (x ++ sep ++ join sep rest)%string
  end.

(** Strings hold the UTF-8 bytes of the JavaScript string.  [trim]
    removes ECMAScript's [WhiteSpace] and [LineTerminator] characters:
    U+0009 to U+000D and U+0020 (one byte), U+00A0 (two bytes: C2 A0),
    and in three bytes U+1680 (E1 9A 80), U+2000 to U+200A (E2 80 80 to
    E2 80 8A), U+2028, U+2029 and U+202F (E2 80 A8, A9, AF), U+205F
    (E2 81 9F), U+3000 (E3 80 80) and U+FEFF (EF BB BF). *)
Definition space1 (a : ascii) : bool :=
  let n := nat_of_ascii a in
  (n =? 32)%nat || ((9 <=? n)%nat && (n <=? 13)%nat).

Definition space2 (a b : ascii) : bool :=
  (nat_of_ascii a =? 194)%nat && (nat_of_ascii b =? 160)%nat.

Definition space3 (a b c : ascii) : bool :=
  let x := nat_of_ascii a in
  let y := nat_of_ascii b in
  let z := nat_of_ascii c in
  ((y =? 154) && ((x =? 225) && (z =? 128)))%nat
  || ((y =? 128) && ((x =? 226) &&
        (((128 <=? z) && (z <=? 138)) || (z =? 168) || (z =? 169) || (z =? 175))))%nat
  || ((y =? 129) && ((x =? 226) && (z =? 159)))%nat
  || ((y =? 128) && ((x =? 227) && (z =? 128)))%nat
  || ((y =? 187) && ((x =? 239) && (z =? 191)))%nat.

(** The rest of [s] after one white-space character at its head. *)
Definition white_space (s : string) : option string :=
  match s with
  | EmptyString => None
  | String a r1 =>
      if space1 a then Some r1 else
      match r1 with
      | EmptyString => None
      | String b r2 =>
          if space2 a b then Some r2 else
          match r2 with
          | EmptyString => None
          | String c r3 => if space3 a b c then Some r3 else None
          end
      end
  end.

Fixpoint trimStart (s : string) : string :=
  match s with
  | EmptyString => EmptyString
  | String a r1 =>
      if space1 a then trimStart r1 else
      match r1 with
      | EmptyString => s
      | String b r2 =>
          if space2 a b then trimStart r2 else
          match r2 with
          | EmptyString => s
          | String c r3 => if space3 a b c then trimStart r3 else s
          end
      end
  end.

(** Nothing but white space. *)
Definition blank (s : string) : bool :=
  match trimStart s with EmptyString => true | String _ _ => false end.

(** [trimEnd] cuts the longest end of [s] that is white space only. *)
Fixpoint trimEnd (s : string) : string :=
  match s with
  | EmptyString => EmptyString
  | String c s' => if blank s then EmptyString else String c (trimEnd s')
  end.

Definition trim (s : string) : string := trimEnd (trimStart s).

(** [value.split(/[\n\t]+/)]. *)
Definition is_sep (c : ascii) : bool :=
  let n := nat_of_ascii c in (n =? 10)%nat || (n =? 9)%nat.

Fixpoint split_from (s cur : string) (after_sep : bool) : list string :=
  match s with
  | EmptyString => [cur]
  | String c s' =>
      if is_sep c then
        if after_sep then split_from s' "" true
        else cur :: split_from s' "" true
      else split_from s' (cur ++ String c "")%string false
  end.

Definition split (value : string) : list string := split_from value "" false.

(** [list.includes(i)]. *)
Definition includes (l : list string) (i : string) : bool :=
  existsb (String.eqb i) l.

Inductive ListType := names_t | tasks_t.

(** [[a[i], a[j]] = [a[j], a[i]]]. *)
Definition swap (a : list string) (i j : nat) : list string :=
  match a !! i, a !! j with
  | Some x, Some y => <[j := x]> (<[i := y]> a)
  | _, _ => a
  end.

(** The loop of [shuffleNames]: [i] runs from [i] down to 1; [k] counts
    the calls of [Math.random()]. *)
Fixpoint shuffle_loop (random : nat -> Q) (i k : nat) (shuffled : list string)
    : list string * nat :=
  match i with
  | O => (shuffled, k)
  | S i' =>
      let j := JS.randomIndex (random k) (i + 1) in
      shuffle_loop random i' (S k) (swap shuffled i j)
  end.

(** [groups[i % numGroups].push(name)] for every [name] at [i]. *)
Fixpoint assign_groups (shuffled : list string) (i numGroups : nat)
    (groups : list (list string)) : list (list string) :=
  match shuffled with
  | [] => groups
  | name :: rest =>
      assign_groups rest (S i) numGroups
        (alter (fun g => g ++ [name]) (i mod numGroups)%nat groups)
  end.

Fixpoint group_labels (i : nat) (groups : list (list string)) : list string :=
  match groups with
  | [] => []
  | g :: rest =>
      ("Group " ++ nat_to_string (i + 1) ++ ": " ++ join ", " g)%string
        :: group_labels (S i) rest
  end.

Section Render.
(** What the handlers of one render close over. *)
Variable state : AppState.
Variable isSpinning : bool.
Variable currentWinner : option (string * nat).
(** The environment of the event: the results of [Math.random()] by
    call number, the engine's sort, [Date.now()] and
    [new Date().toLocaleTimeString()]. *)
Variable random : nat -> Q.
Variable engine_sort : nat -> SortRun.
Variable now : Z.
Variable localeTime : string.

Definition Math_random : M Q :=
  fun s => (random (s_calls s),
    {| s_state := s_state s; s_isSpinning := s_isSpinning s;
       s_currentWinner := s_currentWinner s;
       s_resultCardText := s_resultCardText s;
       s_calls := S (s_calls s); s_effects := s_effects s |}).

Definition resetAvailableNames : M unit :=
  updateState [AvailableNamesIndices (JS.indices (names state))].

Definition resetAvailableTasks : M unit :=
  updateState [AvailableTasksIndices (JS.indices (tasks state))].

Definition addItems (type : ListType) (value : string) : M unit :=
  if (String.length (trim value) =? 0)%nat then ret tt else
  let newItems :=
    match type with
    | names_t =>
        filter (fun i => (0 <? String.length i)%nat = true) (map trim (split value))
    | tasks_t => [trim value]
    end in
  let currentList := match type with names_t => names state | tasks_t => tasks state end in
  let uniqueNewItems :=
    filter (fun i => includes currentList i = false) newItems in
  if (0 <? length uniqueNewItems)%nat then
    let updatedList := currentList ++ uniqueNewItems in
    match type with
    | names_t =>
        updateState [Names updatedList;
                     AvailableNamesIndices (JS.indices updatedList)] ;;;
        emit ClearNameInput
    | tasks_t =>
        updateState [Tasks updatedList;
                     AvailableTasksIndices (JS.indices updatedList)] ;;;
        emit ClearTaskInput
    end ;;;
    showToast (nat_to_string (length uniqueNewItems) ++ " item(s) added.")%string
  else showToast "Items already exist in the list.".

Definition removeItem (type : ListType) (index : nat) : M unit :=
  match type with
  | names_t =>
      let list := JS.splice1 index (names state) in
      updateState [Names list; AvailableNamesIndices (JS.indices list)]
  | tasks_t =>
      let list := JS.splice1 index (tasks state) in
      updateState [Tasks list; AvailableTasksIndices (JS.indices list)]
  end.

Definition clearList (type : ListType) : M unit :=
  match type with
  | names_t => updateState [Names []; AvailableNamesIndices []; History []]
  | tasks_t => updateState [Tasks []; AvailableTasksIndices []]
  end.

Definition shuffleNames : M unit :=
  fun s =>
    let (shuffled, k) :=
      shuffle_loop random (length (names state) - 1) (s_calls s) (names state) in
    (updateState [Names shuffled;
                  AvailableNamesIndices (JS.indices shuffled);
                  History []] ;;;
     showToast "Names shuffled & history cleared.")
      {| s_state := s_state s; s_isSpinning := s_isSpinning s;
         s_currentWinner := s_currentWinner s;
         s_resultCardText := s_resultCardText s;
         s_calls := k; s_effects := s_effects s |}.

(** The [onChange] handlers of the two no-repeat checkboxes. *)
Definition toggleNameNoRepeat : M unit :=
  let newVal := negb (isNameNoRepeat state) in
  updateState [IsNameNoRepeat newVal] ;;;
  if newVal then resetAvailableNames else ret tt.

Definition toggleTaskNoRepeat : M unit :=
  let newVal := negb (isTaskNoRepeat state) in
  updateState [IsTaskNoRepeat newVal] ;;;
  if newVal then resetAvailableTasks else ret tt.

(** Returns [None] for [null].  With [Math.random()] in [[0,1)] the
    position read is always inside the pool. *)
Definition selectNameIndex : M (option nat) :=
  if (length (names state) =? 0)%nat then ret None else
  let pool :=
    if isNameNoRepeat state then availableNamesIndices state
    else JS.indices (names state) in
  let pool := filter (fun i => (i < length (names state))%nat) pool in
  if isNameNoRepeat state && (length pool =? 0)%nat then
    showToast "All names drawn! Resetting list." ;;;
    resetAvailableNames ;;;
    ret None
  else
    r <- Math_random ;;
    let randIndex := JS.randomIndex r (length pool) in
    let selectedIndex := pool !! randIndex in
    (if isNameNoRepeat state then
       let newPool := JS.splice1 randIndex pool in
       updateState [AvailableNamesIndices newPool]
     else ret tt) ;;;
    ret selectedIndex.

Definition selectTask : M string :=
  if (length (tasks state) =? 0)%nat then ret "No Task" else
  let pool :=
    if isTaskNoRepeat state then availableTasksIndices state
    else JS.indices (tasks state) in
  let pool := filter (fun i => (i < length (tasks state))%nat) pool in
  pool <- (if isTaskNoRepeat state && (length pool =? 0)%nat then
             showToast "All tasks assigned! Resetting task list." ;;;
             resetAvailableTasks ;;;
             ret (JS.indices (tasks state))
           else ret pool) ;;
  r <- Math_random ;;
  let randIndex := JS.randomIndex r (length pool) in
  let selectedIndex := pool !! randIndex in
  (if isTaskNoRepeat state then
     let newPool := JS.splice1 randIndex pool in
     updateState [AvailableTasksIndices newPool]
   else ret tt) ;;;
  ret (default "undefined" (selectedIndex ≫= fun i => tasks state !! i)).

Definition logHistory (result : string) (groups : option (list (list string)))
    : M unit :=
  let entry := {| h_id := now; h_result := result; h_mode := mode state;
                  h_timestamp := localeTime; h_groups := groups |} in
  updateState [History (JS.slice0 50 (entry :: history state))].

(** [[...state.names].sort(() => Math.random() - 0.5)]. *)
Definition sort_random (arr : list string) : M (list string) :=
  fun s =>
    let (order, k) := run_sort (engine_sort (length arr)) random (s_calls s) in
    (map (at_index arr) order,
      {| s_state := s_state s; s_isSpinning := s_isSpinning s;
         s_currentWinner := s_currentWinner s;
         s_resultCardText := s_resultCardText s;
         s_calls := k; s_effects := s_effects s |}).

Definition make_groups (shuffled : list string) : list (list string) :=
  let n := Z.to_nat (numGroups state) in
  assign_groups shuffled 0 n (replicate n []).

Definition handleDraw : M unit :=
  if (length (names state) =? 0)%nat then showToast "Add names first." else
  match mode state with
  | groups =>
      if (numGroups state <=? 0)%Z then showToast "Invalid group number."
      else if (Z.of_nat (length (names state)) <? numGroups state)%Z then
        showToast ("Need at least " ++ Z_to_string (numGroups state) ++ " names.")%string
      else
        shuffled <- sort_random (names state) ;;
        let groups := make_groups shuffled in
        let resultText := join " | " (group_labels 0 groups) in
        logHistory resultText (Some groups) ;;;
        setResultCardText
          ("Groups Created! (" ++ Z_to_string (numGroups state) ++ " groups)")%string ;;;
        playDrawSound ;;;
        triggerResultAnimation
  | interactive =>
      if (length (names state) <? 2)%nat then showToast "Need at least 2 names."
      else if isSpinning then ret tt
      else
        idx <- selectNameIndex ;;
        match idx with
        | None => ret tt
        | Some idx =>
            setCurrentWinner (Some (at_index (names state) idx, idx)) ;;;
            setIsSpinning true ;;;
            setResultCardText "...ANIMATING..."
        end
  | m =>
      idx <- selectNameIndex ;;
      match idx with
      | None => ret tt
      | Some idx =>
          let name := at_index (names state) idx in
          let finish (result : string) :=
            logHistory result None ;;;
            setResultCardText result ;;;
            playDrawSound ;;;
            triggerResultAnimation in
          match m with
          | paired =>
              if (length (tasks state) =? 0)%nat then
                showToast "Add tasks for paired mode."
              else
                task <- selectTask ;;
                finish (name ++ " is assigned to: " ++ task)%string
          | _ => finish name
          end
      end
  end.

Definition handleInteractiveEnd : M unit :=
  match currentWinner with
  | None => ret tt
  | Some (name, _) =>
      setIsSpinning false ;;;
      setResultCardText name ;;;
      logHistory name None ;;;
      triggerResultAnimation
  end.

(** The "Reset All Draws" button. *)
Definition resetAllDraws : M unit :=
  updateState [History [];
               AvailableNamesIndices (JS.indices (names state));
               AvailableTasksIndices (JS.indices (tasks state))] ;;;
  showToast "All pools and history reset.".
End Render.

(** An event: the handler of the current render runs on the committed
    store, and React commits what it queued. *)
Definition dispatch
    (handler : AppState -> bool -> option (string * nat) -> M unit)
    (s : Store) : Store :=
  snd (handler (s_state s) (s_isSpinning s) (s_currentWinner s) s).

Definition initial (st : AppState) : Store :=
  {| s_state := st; s_isSpinning := false; s_currentWinner := None;
     s_resultCardText := "Click 'DRAW LOTS' to begin!";
     s_calls := 0; s_effects := [] |}.

End App.

(** ** The host's timers and animation frames

    Time is in milliseconds.  [Tick t] below lets the clock reach [t]:
    the timers that are due fire in order, then the requested animation
    frame, if any, runs with timestamp [t]. *)

Module Host.

(** The callbacks the four components hand to [setTimeout]. *)
Inductive Callback :=
  | SpinEnd (newTotalRotation : Q)  (* SpinWheel, 6000 ms *)
  | ToPicking                       (* CardDraw, 2000 ms *)
  | ToRevealed                      (* CardDraw, 3000 ms *)
  | CardEnd                         (* CardDraw, 5000 ms: onEnd() *)
  | RaceEnd.                        (* races, 2000 ms: onRaceEnd *)

Record Timer := { timer_id : nat; due : Q; callback : Callback }.

Record Host := {
  clock : Q;
  timers : list Timer;        (* pending setTimeout callbacks *)
  frames : list nat;          (* pending requestAnimationFrame ids *)
  next_id : nat;
  ended : nat;                (* calls of onSpinEnd / onRaceEnd / onEnd *)
  sounds : nat;               (* calls of playDrawSound *)
}.

Definition boot : Host :=
  {| clock := 0; timers := []; frames := []; next_id := 1;
     ended := 0; sounds := 0 |}.

Definition setTimeout (cb : Callback) (delay : Q) (h : Host) : nat * Host :=
  (next_id h,
   {| clock := clock h;
      timers := timers h ++ [{| timer_id := next_id h;
                                due := (clock h + delay)%Q; callback := cb |}];
      frames := frames h; next_id := S (next_id h);
      ended := ended h; sounds := sounds h |}).

Definition clearTimeout (id : nat) (h : Host) : Host :=
  {| clock := clock h;
     timers := filter (fun tm => timer_id tm ≠ id) (timers h);
     frames := frames h; next_id := next_id h;
     ended := ended h; sounds := sounds h |}.

Definition requestAnimationFrame (h : Host) : nat * Host :=
  (next_id h,
   {| clock := clock h; timers := timers h;
      frames := frames h ++ [next_id h]; next_id := S (next_id h);
      ended := ended h; sounds := sounds h |}).

Definition cancelAnimationFrame (id : nat) (h : Host) : Host :=
  {| clock := clock h; timers := timers h;
     frames := filter (fun f => f ≠ id) (frames h); next_id := next_id h;
     ended := ended h; sounds := sounds h |}.

Definition playDrawSound (h : Host) : Host :=
  {| clock := clock h; timers := timers h; frames := frames h;
     next_id := next_id h; ended := ended h; sounds := S (sounds h) |}.

(** The completion callback handed to the component by its parent. *)
Definition complete (h : Host) : Host :=
  {| clock := clock h; timers := timers h; frames := frames h;
     next_id := next_id h; ended := S (ended h); sounds := sounds h |}.

Definition set_clock (t : Q) (h : Host) : Host :=
  {| clock := t; timers := timers h; frames := frames h;
     next_id := next_id h; ended := ended h; sounds := sounds h |}.

Definition drop_timer (id : nat) (h : Host) : Host := clearTimeout id h.

Definition drop_frames (h : Host) : Host :=
  {| clock := clock h; timers := timers h; frames := [];
     next_id := next_id h; ended := ended h; sounds := sounds h |}.

(** Timers in firing order: by due time, then by creation. *)
Fixpoint insert_by_due (tm : Timer) (l : list Timer) : list Timer :=
  match l with
  | [] => [tm]
  | tm' :: l' =>
      if Qle_bool (due tm') (due tm) then tm' :: insert_by_due tm l'
      else tm :: l
  end.

Definition firing_order (l : list Timer) : list Timer :=
  fold_right insert_by_due [] (rev l).

Definition due_by (t : Q) (h : Host) : list Timer :=
  firing_order (filter (fun tm => Qle_bool (due tm) t = true) (timers h)).

(** What the component's effect returns. *)
Inductive Cleanup :=
  | NoCleanup
  | ClearTimeout (timer : nat)
  | CancelRequestedFrame.   (* cancelAnimationFrame(requestRef.current) *)

Section Component.
Context {C : Type}.
(** How a timer callback and a frame callback act on the component. *)
Variable fire : Callback -> C * Host -> C * Host.
Variable animate : Q -> C * Host -> C * Host.
Variable requestRef : C -> option nat.

Definition fire_timer (w : C * Host) (tm : Timer) : C * Host :=
  if existsb (fun p => Nat.eqb (timer_id p) (timer_id tm)) (timers (snd w)) then
    fire (callback tm)
      (fst w, set_clock (due tm) (drop_timer (timer_id tm) (snd w)))
  else w.

Definition run_frame (t : Q) (w : C * Host) : C * Host :=
  match frames (snd w) with
  | [] => w
  | _ :: _ => animate t (fst w, drop_frames (snd w))
  end.

Definition tick (t : Q) (w : C * Host) : C * Host :=
  let w := fold_left fire_timer (due_by t (snd w)) w in
  run_frame t (fst w, set_clock t (snd w)).

(** Running the cleanup the effect returned. *)
Definition cleanup (c : Cleanup) (w : C * Host) : C * Host :=
  match c with
  | NoCleanup => w
  | ClearTimeout id => (fst w, clearTimeout id (snd w))
  | CancelRequestedFrame =>
      match requestRef (fst w) with
      | Some id => (fst w, cancelAnimationFrame id (snd w))
      | None => w
      end
  end.
End Component.

End Host.

Definition WHEEL_COLORS : list string :=
  ["#fb923c"; "#a78bfa"; "#34d399"; "#f87171";
   "#60a5fa"; "#fde047"; "#e879f9"; "#4ade80"].

(** ** SpinWheel.tsx

    The angles are exact here; [SpinWheel64] below computes them as the
    browser does. *)

Module SpinWheel.

Section Spin.
Variable names : list string.

Definition numSegments : Q := inject_Z (Z.of_nat (length names)).
Definition segmentAngle : Q := (360 / numSegments)%Q.

(** Centre of the winning segment. *)
Definition Ac (winnerIndex : nat) : Q :=
  (inject_Z (Z.of_nat winnerIndex) * segmentAngle + segmentAngle / 2)%Q.

Definition fullSpins : Q := 5%Q.

Definition minRotationDelta (winnerIndex : nat) (lastRotation : Q) : Q :=
  let L := Ac winnerIndex in
  let V := JS.rem lastRotation 360 in
  let d := JS.rem (L - V + 360) 360 in
  if Qlt_le_dec d 1 then (d + 360)%Q else d.

Definition rotationDelta (winnerIndex : nat) (lastRotation : Q) : Q :=
  (minRotationDelta winnerIndex lastRotation + 360 * fullSpins)%Q.

Definition newTotalRotation (winnerIndex : nat) (lastRotation : Q) : Q :=
  (lastRotation + rotationDelta winnerIndex lastRotation)%Q.

(** [useState] cells and the transition ref. *)
Record Component := {
  rotation : Q;
  lastRotation : Q;
  transition : string;
}.

Definition mount : Component :=
  {| rotation := 0; lastRotation := 0; transition := "none" |}.

(** The spin effect. *)
Definition effect (winnerIndex : option nat) (isSpinning : bool)
    (w : Component * Host.Host) : (Component * Host.Host) * Host.Cleanup :=
  let (c, h) := w in
  match isSpinning, winnerIndex with
  | true, Some winnerIndex =>
      let newTotal := newTotalRotation winnerIndex (lastRotation c) in
      let c := {| rotation := newTotal; lastRotation := lastRotation c;
                  transition := "transform 6s cubic-bezier(0.1, 0.5, 0.2, 1)" |} in
      let (timer, h) := Host.setTimeout (Host.SpinEnd newTotal) 6000 h in
      ((c, h), Host.ClearTimeout timer)
  | _, _ =>
      (({| rotation := rotation c; lastRotation := lastRotation c;
           transition := "none" |}, h), Host.NoCleanup)
  end.

Definition fire (cb : Host.Callback) (w : Component * Host.Host)
    : Component * Host.Host :=
  match cb with
  | Host.SpinEnd newTotal =>
      ({| rotation := rotation (fst w); lastRotation := newTotal;
          transition := transition (fst w) |},
       Host.complete (Host.playDrawSound (snd w)))
  | _ => w
  end.

Definition tick := Host.tick fire (fun _ w => w).
Definition cleanup := Host.cleanup (C := Component) (fun _ => None).
End Spin.

End SpinWheel.

(** ** SpinWheel.tsx in binary64

    The angles of [SpinWheel] once more, every operation rounded as the
    browser rounds it. *)

Module SpinWheel64.
Section Spin.
Variable names : list string.

Definition numSegments : Q := inject_Z (Z.of_nat (length names)).
Definition segmentAngle : Q := Double.div 360 numSegments.

Definition Ac (winnerIndex : nat) : Q :=
  Double.add (Double.mul (inject_Z (Z.of_nat winnerIndex)) segmentAngle)
             (Double.div segmentAngle 2).

Definition fullSpins : Q := 5%Q.

Definition minRotationDelta (winnerIndex : nat) (lastRotation : Q) : Q :=
  let L := Ac winnerIndex in
  let V := JS.rem lastRotation 360 in
  let d := JS.rem (Double.add (Double.sub L V) 360) 360 in
  if Qlt_le_dec d 1 then Double.add d 360 else d.

Definition rotationDelta (winnerIndex : nat) (lastRotation : Q) : Q :=
  Double.add (minRotationDelta winnerIndex lastRotation) (Double.mul 360 fullSpins).

Definition newTotalRotation (winnerIndex : nat) (lastRotation : Q) : Q :=
  Double.add lastRotation (rotationDelta winnerIndex lastRotation).

(** The borders of segment [i] in the render loop: [i * segmentAngle] and
    [(i + 1) * segmentAngle]. *)
Definition startAngle (i : nat) : Q :=
  Double.mul (inject_Z (Z.of_nat i)) segmentAngle.

Definition endAngle (i : nat) : Q :=
  Double.mul (inject_Z (Z.of_nat (i + 1))) segmentAngle.
End Spin.
End SpinWheel64.

Definition seven_names : list string := ["A"; "B"; "C"; "D"; "E"; "F"; "G"].

(** ** CardDraw.tsx *)

Module CardDraw.

Inductive Step := idle | shuffling | picking | revealed.

Record Component := { step : Step }.

Definition mount : Component := {| step := idle |}.

(** The effect; it returns no cleanup function. *)
Definition effect (winnerName : option string) (isRunning : bool)
    (w : Component * Host.Host) : (Component * Host.Host) * Host.Cleanup :=
  let (c, h) := w in
  match isRunning, winnerName with
  | true, Some winnerName =>
      if (String.length winnerName =? 0)%nat then
        (({| step := idle |}, h), Host.NoCleanup)
      else
        let (_, h) := Host.setTimeout Host.ToPicking 2000 h in
        let (_, h) := Host.setTimeout Host.ToRevealed 3000 h in
        let (_, h) := Host.setTimeout Host.CardEnd 5000 h in
        (({| step := shuffling |}, h), Host.NoCleanup)
  | _, _ => (({| step := idle |}, h), Host.NoCleanup)
  end.

Definition fire (cb : Host.Callback) (w : Component * Host.Host)
    : Component * Host.Host :=
  match cb with
  | Host.ToPicking => ({| step := picking |}, snd w)
  | Host.ToRevealed => ({| step := revealed |}, Host.playDrawSound (snd w))
  | Host.CardEnd => (fst w, Host.complete (snd w))
  | _ => w
  end.

Definition tick := Host.tick fire (fun _ w => w).
Definition cleanup := Host.cleanup (C := Component) (fun _ => None).

End CardDraw.

(** ** MarbleRace.tsx

    Canvas drawing is output only and is left out; the horizontal wobble
    of a marble is applied to the drawn copy alone
    ([drawMarble(ctx, { ...m, x: m.x + wobble }, ...)]) and never to the
    marble. *)

Module MarbleRace.

Record Marble := {
  name : string;
  x : Q;
  y : Q;
  color : string;
  duration : Q;       (* time in ms to reach the finish *)
  wobbleOffset : Q;
  isWinner : bool;
}.

Definition BASE_DURATION : Q := 3000.
Definition trackPadding : Q := 40.

Definition Qmin (a b : Q) : Q := if Qlt_le_dec a b then a else b.

Section Race.
Variable names : list string.
Variable winnerName : string.
(** [containerRef.current.clientWidth]. *)
Variable width : Q.

Definition height : Q := Qmin (width * (3 # 2)) 600.
Definition finishY : Q := (height - 50)%Q.
Definition numNames : Q := inject_Z (Z.of_nat (length names)).
Definition marbleRadius : Q :=
  Qmin 15 ((width - trackPadding * 2) / (numNames * 2)).
Definition totalLaneWidth : Q := (width - trackPadding * 2)%Q.
Definition laneWidth : Q := (totalLaneWidth / numNames)%Q.

(** [names.map((name, i) => ...)]; [k] counts the calls of
    [Math.random()]: one for the duration of a non-winner, one for
    every wobble offset. *)
Fixpoint setup (random : nat -> Q) (l : list string) (i k : nat)
    : list Marble :=
  match l with
  | [] => []
  | name :: rest =>
      let isWinner := String.eqb name winnerName in
      let duration :=
        if isWinner then BASE_DURATION
        else (BASE_DURATION + 500 + random k * 1500)%Q in
      let k := if isWinner then k else S k in
      {| name := name;
         x := (trackPadding + inject_Z (Z.of_nat i) * laneWidth + laneWidth / 2)%Q;
         y := marbleRadius;
         color := App.at_index WHEEL_COLORS (i mod length WHEEL_COLORS);
         duration := duration;
         wobbleOffset := (random k * 1000)%Q;
         isWinner := isWinner |}
      :: setup random rest (S i) (S k)
  end.

(** The effect's closure: its locals and the two refs. *)
Record Session := {
  marbles : list Marble;
  winnerDeclared : bool;
  startTimeRef : Q;
  requestRef : option nat;
}.

Definition progress (elapsed : Q) (m : Marble) : Q :=
  Qmin 1 (elapsed / duration m).

Definition ease (progress : Q) : Q :=
  if Qlt_le_dec progress (1 # 2) then (2 * progress * progress)%Q
  else (1 - ((-2 * progress + 2) * (-2 * progress + 2)) / 2)%Q.

Definition set_y (v : Q) (m : Marble) : Marble :=
  {| name := name m; x := x m; y := v; color := color m;
     duration := duration m; wobbleOffset := wobbleOffset m;
     isWinner := isWinner m |}.

Definition move (elapsed : Q) (m : Marble) : Marble :=
  let startY := marbleRadius in
  let endY := (finishY - marbleRadius)%Q in
  set_y (startY + (endY - startY) * ease (progress elapsed m))%Q m.

(** [progress >= 1]: the marble has reached the finish. *)
Definition finished (elapsed : Q) (m : Marble) : bool :=
  Qle_bool 1 (progress elapsed m).

Definition finishedCount (elapsed : Q) (ms : list Marble) : nat :=
  length (filter (fun m => finished elapsed m = true) ms).

Definition animate (timestamp : Q) (w : Session * Host.Host)
    : Session * Host.Host :=
  let (s, h) := w in
  let start := if Qeq_bool (startTimeRef s) 0 then timestamp else startTimeRef s in
  let elapsed := (timestamp - start)%Q in
  let '(ms, declared, h) :=
    if winnerDeclared s then
      (map (set_y (finishY + marbleRadius)) (marbles s), true, h)
    else
      let ms := map (move elapsed) (marbles s) in
      if Qle_bool (BASE_DURATION + 500) elapsed then
        (ms, true, snd (Host.setTimeout Host.RaceEnd 2000 (Host.playDrawSound h)))
      else (ms, false, h) in
  if negb declared || negb (Qle_bool (BASE_DURATION + 3000) elapsed) then
    let (id, h) := Host.requestAnimationFrame h in
    ({| marbles := ms; winnerDeclared := declared; startTimeRef := start;
        requestRef := Some id |}, h)
  else
    ({| marbles := ms; winnerDeclared := declared; startTimeRef := start;
        requestRef := requestRef s |}, h).

(** The race effect, for a truthy [winnerName] and mounted refs;
    [requestRef] keeps what an earlier session left in it. *)
Definition effect (random : nat -> Q) (isRunning : bool)
    (w : Session * Host.Host) : (Session * Host.Host) * Host.Cleanup :=
  let (s, h) := w in
  if negb isRunning || (String.length winnerName =? 0)%nat then
    (w, Host.NoCleanup)
  else
    let (id, h) := Host.requestAnimationFrame h in
    (({| marbles := setup random names 0 0; winnerDeclared := false;
         startTimeRef := 0; requestRef := Some id |}, h),
     Host.CancelRequestedFrame).

Definition mount : Session :=
  {| marbles := []; winnerDeclared := false; startTimeRef := 0;
     requestRef := None |}.

Definition fire (cb : Host.Callback) (w : Session * Host.Host)
    : Session * Host.Host :=
  match cb with
  | Host.RaceEnd => (fst w, Host.complete (snd w))
  | _ => w
  end.

Definition tick := Host.tick fire animate.
Definition cleanup := Host.cleanup (C := Session) requestRef.
End Race.

End MarbleRace.

(** ** DuckRace.tsx

    The position of a duck integrates a speed that goes through
    [Math.sin], so numbers are reals here.  Canvas drawing is left out. *)

Module DuckRace.

Local Open Scope R_scope.

Record Duck := {
  name : string;
  x : R;
  y : R;
  baseSpeed : R;
  color : string;
  isWinner : bool;
}.

Definition FINISH_BUFFER : R := 40.
Definition START_X : R := 50.
Definition MIN_SPEED : R := 120.
Definition MAX_SPEED : R := 200.
Definition WINNER_BOOST : R := 115 / 100.

Section Race.
Variable names : list string.
Variable winnerName : string.
(** [containerRef.current.clientWidth]. *)
Variable width : R.

Definition height : R := Rmin (width * (8 / 10)) 600.
Definition finishLineX : R := width * (95 / 100) - FINISH_BUFFER.
Definition numDucks : R := INR (length names).
Definition laneHeight : R := height / (numDucks + 1).

(** [names.map((name, i) => ...)], threading [maxNonWinnerSpeed]; the
    [i]-th duck takes the [i]-th result of [Math.random()]. *)
Fixpoint setup (random : nat -> R) (l : list string) (i : nat)
    (maxNonWinnerSpeed : R) : list Duck * R :=
  match l with
  | [] => ([], maxNonWinnerSpeed)
  | name :: rest =>
      let isWinner := String.eqb name winnerName in
      let baseSpeed := random i * (MAX_SPEED - MIN_SPEED) + MIN_SPEED in
      let maxNonWinnerSpeed :=
        if isWinner then maxNonWinnerSpeed
        else Rmax maxNonWinnerSpeed baseSpeed in
      let (ds, m) := setup random rest (S i) maxNonWinnerSpeed in
      ({| name := name; x := START_X; y := laneHeight * (INR i + 1);
          baseSpeed := baseSpeed;
          color := App.at_index WHEEL_COLORS (i mod length WHEEL_COLORS);
          isWinner := isWinner |} :: ds, m)
  end.

Definition set_baseSpeed (v : R) (d : Duck) : Duck :=
  {| name := name d; x := x d; y := y d; baseSpeed := v;
     color := color d; isWinner := isWinner d |}.

Definition set_x (v : R) (d : Duck) : Duck :=
  {| name := name d; x := v; y := y d; baseSpeed := baseSpeed d;
     color := color d; isWinner := isWinner d |}.

(** The ducks once the winner's speed is set ("Ensure winner is
    fastest"). *)
Definition start_ducks (random : nat -> R) : list Duck :=
  let (ds, maxNonWinnerSpeed) := setup random names 0 MIN_SPEED in
  let winnerSpeed := maxNonWinnerSpeed * WINNER_BOOST in
  map (fun d => if isWinner d then set_baseSpeed winnerSpeed d else d) ds.

Record Session := {
  ducks : list Duck;
  winnerDeclared : bool;
  startTimeRef : R;
  lastTime : R;
  requestRef : option nat;
}.

Definition wobble (timestamp : R) (d : Duck) : R :=
  sin (timestamp / 1000 + y d / 5) * (15 / 100).

(** One duck in one frame. *)
Definition advance (timestamp deltaTime : R) (d : Duck) : Duck :=
  if Rlt_dec (x d) finishLineX then
    let currentSpeed := baseSpeed d * (1 + wobble timestamp d) in
    let x' := x d + currentSpeed * deltaTime in
    if Rle_dec finishLineX x' then set_x finishLineX d else set_x x' d
  else d.

(** [d.x >= finishLineX]: the duck has reached the finish. *)
Definition crossed (d : Duck) : bool :=
  if Rle_dec finishLineX (x d) then true else false.

Definition animate (timestamp : R) (w : Session * Host.Host)
    : Session * Host.Host :=
  let (s, h) := w in
  let unset := if Req_EM_T (startTimeRef s) 0 then true else false in
  let start := if unset then timestamp else startTimeRef s in
  let last := if unset then timestamp else lastTime s in
  let deltaTime := (timestamp - last) / 1000 in
  if winnerDeclared s then
    ({| ducks := ducks s; winnerDeclared := true; startTimeRef := start;
        lastTime := timestamp; requestRef := requestRef s |}, h)
  else
    let ds := map (advance timestamp deltaTime) (ducks s) in
    let winnerCrossed := existsb (fun d => isWinner d && crossed d) ds in
    let elapsed := (timestamp - start) / 1000 in
    let declared :=
      winnerCrossed && (if Rle_dec 3 elapsed then true else false) in
    let h :=
      if declared then
        snd (Host.setTimeout Host.RaceEnd 2000 (Host.playDrawSound h))
      else h in
    let (id, h) := Host.requestAnimationFrame h in
    ({| ducks := ds; winnerDeclared := declared; startTimeRef := start;
        lastTime := timestamp; requestRef := Some id |}, h).

Definition mount : Session :=
  {| ducks := []; winnerDeclared := false; startTimeRef := 0;
     lastTime := 0; requestRef := None |}.

(** The race effect, for a truthy [winnerName] and mounted refs. *)
Definition effect (random : nat -> R) (isRunning : bool)
    (w : Session * Host.Host) : (Session * Host.Host) * Host.Cleanup :=
  let (s, h) := w in
  if negb isRunning || (String.length winnerName =? 0)%nat then
    (w, Host.NoCleanup)
  else
    let (id, h) := Host.requestAnimationFrame h in
    (({| ducks := start_ducks random; winnerDeclared := false;
         startTimeRef := 0; lastTime := 0; requestRef := Some id |}, h),
     Host.CancelRequestedFrame).

Definition fire (cb : Host.Callback) (w : Session * Host.Host)
    : Session * Host.Host :=
  match cb with
  | Host.RaceEnd => (fst w, Host.complete (snd w))
  | _ => w
  end.

Definition tick := Host.tick fire (fun t => animate (Q2R t)).
Definition cleanup := Host.cleanup (C := Session) requestRef.
End Race.

End DuckRace.

(** ** Events

    One event is one handler run on the committed store.  The [click_*]
    functions below are the buttons and inputs of the page. *)

Arguments JS.slice0 : simpl never.
Arguments JS.randomIndex : simpl never.

Definition click_draw (random : nat -> Q) (engine : nat -> SortRun) (now : Z)
    (time : string) (s : App.Store) : App.Store :=
  App.dispatch (fun st sp w => App.handleDraw st sp random engine now time) s.

Definition click_add (type : App.ListType) (value : string) (s : App.Store) : App.Store :=
  App.dispatch (fun st _ _ => App.addItems st type value) s.

Definition click_remove (type : App.ListType) (index : nat) (s : App.Store) : App.Store :=
  App.dispatch (fun st _ _ => App.removeItem st type index) s.

Definition click_shuffle (random : nat -> Q) (s : App.Store) : App.Store :=
  App.dispatch (fun st _ _ => App.shuffleNames st random) s.

Definition click_clear (type : App.ListType) (s : App.Store) : App.Store :=
  App.dispatch (fun st _ _ => App.clearList type) s.

Definition click_name_toggle (s : App.Store) : App.Store :=
  App.dispatch (fun st _ _ => App.toggleNameNoRepeat st) s.

Definition click_task_toggle (s : App.Store) : App.Store :=
  App.dispatch (fun st _ _ => App.toggleTaskNoRepeat st) s.

(** One [selectNameIndex] per render, [n] renders in a row. *)
Definition draw_name (random : nat -> Q) (s : App.Store) : option nat * App.Store :=
  App.selectNameIndex (App.s_state s) random s.

Fixpoint draw_names (random : nat -> Q) (n : nat) (s : App.Store)
    : list (option nat) * App.Store :=
  match n with
  | O => ([], s)
  | S n' =>
      let (i, s1) := draw_name random s in
      let (l, s2) := draw_names random n' s1 in
      (i :: l, s2)
  end.

(** One [logHistory] per render. *)
Record LogRequest := { lr_result : string; lr_now : Z; lr_time : string }.

Definition entry_of (m : DrawMode) (r : LogRequest) : HistoryEntry :=
  {| h_id := lr_now r; h_result := lr_result r; h_mode := m;
     h_timestamp := lr_time r; h_groups := None |}.

Definition log_one (s : App.Store) (r : LogRequest) : App.Store :=
  snd (App.logHistory (App.s_state s) (lr_now r) (lr_time r) (lr_result r) None s).

Definition append_all (reqs : list LogRequest) (s : App.Store) : App.Store :=
  fold_left log_one reqs s.

(** ** Vocabulary of the statements *)

Definition name_pool (s : App.Store) : list nat := availableNamesIndices (App.s_state s).

(** The candidates [selectNameIndex] and [selectTask] draw from. *)
Definition name_candidates (st : AppState) : list nat :=
  filter (fun i => (i < length (names st))%nat)
    (if isNameNoRepeat st then availableNamesIndices st else JS.indices (names st)).

Definition task_candidates (st : AppState) : list nat :=
  filter (fun i => (i < length (tasks st))%nat)
    (if isTaskNoRepeat st then availableTasksIndices st else JS.indices (tasks st)).

Definition with_state (f : AppState -> AppState) (k : nat) (s : App.Store) : App.Store :=
  {| App.s_state := f (App.s_state s); App.s_isSpinning := App.s_isSpinning s;
     App.s_currentWinner := App.s_currentWinner s;
     App.s_resultCardText := App.s_resultCardText s;
     App.s_calls := k; App.s_effects := App.s_effects s |}.

Definition name_pool_full (s : App.Store) : Prop :=
  availableNamesIndices (App.s_state s) = JS.indices (names (App.s_state s)).

Definition task_pool_full (s : App.Store) : Prop :=
  availableTasksIndices (App.s_state s) = JS.indices (tasks (App.s_state s)).

(** ** Sample stores *)

Definition no_repeat_defaults : AppState :=
  merge DEFAULT_STATE [IsNameNoRepeat true].

Definition exhausted_names : App.Store :=
  App.initial
    {| names := ["A"; "B"; "C"]; tasks := []; history := [];
       isNameNoRepeat := true; availableNamesIndices := [];
       isTaskNoRepeat := false; availableTasksIndices := [];
       mode := single; interactiveMode := wheel; numGroups := 2 |}.

Definition exhausted_tasks : App.Store :=
  App.initial
    {| names := ["A"; "B"; "C"]; tasks := ["read"; "write"]; history := [];
       isNameNoRepeat := false; availableNamesIndices := [0; 1; 2]%nat;
       isTaskNoRepeat := true; availableTasksIndices := [];
       mode := paired; interactiveMode := wheel; numGroups := 2 |}.

Definition one_name_no_tasks : App.Store :=
  App.initial
    {| names := ["A"]; tasks := []; history := [];
       isNameNoRepeat := true; availableNamesIndices := [0]%nat;
       isTaskNoRepeat := false; availableTasksIndices := [];
       mode := paired; interactiveMode := wheel; numGroups := 2 |}.

Definition half_drawn : App.Store :=
  App.initial
    {| names := ["A"; "B"]; tasks := []; history := [];
       isNameNoRepeat := true; availableNamesIndices := [1]%nat;
       isTaskNoRepeat := false; availableTasksIndices := [];
       mode := single; interactiveMode := wheel; numGroups := 2 |}.

Definition fifty_one_requests : list LogRequest :=
  map (fun i => {| lr_result := pretty i; lr_now := Z.of_nat i; lr_time := "12:00:00" |})
      (seq 1 51).

(** After [i] names have been dealt round-robin into [k] groups, the
    first [i mod k] groups hold one name more than the others. *)
Definition dealt (i k : nat) (gs : list (list string)) : Prop :=
  forall r g, gs !! r = Some g ->
    length g = (i / k + (if (r <? i mod k)%nat then 1 else 0))%nat.

(** The winner's marble takes [BASE_DURATION], every other one at least
    500 ms more. *)
Definition fair_duration (winnerName : string) (m : MarbleRace.Marble) : Prop :=
  MarbleRace.isWinner m = String.eqb (MarbleRace.name m) winnerName /\
  if MarbleRace.isWinner m then (MarbleRace.duration m == 3000)%Q
  else (3500 <= MarbleRace.duration m /\ MarbleRace.duration m < 5000)%Q.

Definition five_names_two_groups : App.Store :=
  App.initial
    {| names := ["A"; "B"; "C"; "D"; "E"]; tasks := []; history := [];
       isNameNoRepeat := false; availableNamesIndices := [0; 1; 2; 3; 4]%nat;
       isTaskNoRepeat := false; availableTasksIndices := [];
       mode := groups; interactiveMode := wheel; numGroups := 2 |}.

(** ** Sample sessions *)

(** A card session that is torn down one second after it starts. *)
Definition card_started : (CardDraw.Component * Host.Host) * Host.Cleanup :=
  CardDraw.effect (Some "A") true (CardDraw.mount, Host.boot).

Definition card_cancelled : CardDraw.Component * Host.Host :=
  CardDraw.cleanup (snd card_started) (CardDraw.tick 1000 (fst card_started)).

(** A marble race of two on a 400 px wide canvas, with frames at 16 ms
    and 3600 ms, torn down while it shows the winner. *)
Definition marble_started : (MarbleRace.Session * Host.Host) * Host.Cleanup :=
  MarbleRace.effect ["A"; "B"] "A" 400 (fun _ => 0%Q) true
    (MarbleRace.mount, Host.boot).

Definition marble_tick := MarbleRace.tick ["A"; "B"] 400.

Definition marble_cancelled : MarbleRace.Session * Host.Host :=
  MarbleRace.cleanup (snd marble_started)
    (marble_tick 3600 (marble_tick 16 (fst marble_started))).

(** A duck race of two on a 175 px wide canvas, every [Math.random()]
    returning 0, with animation frames at 700 ms and 1300 ms. *)
Definition duck_names : list string := ["A"; "B"].
Definition duck_width : R := 175.

Definition duck_started : DuckRace.Session * Host.Host :=
  fst (DuckRace.effect duck_names "A" duck_width (fun _ => 0%R) true
         (DuckRace.mount, Host.boot)).

Definition duck_two_frames : DuckRace.Session * Host.Host :=
  DuckRace.animate duck_width 1300
    (DuckRace.animate duck_width 700 duck_started).

Definition duck_tick := DuckRace.tick duck_width.

(** The same race with a frame at 700 ms and the next one a minute later,
    torn down while it shows the winner. *)
Definition duck_cancelled : DuckRace.Session * Host.Host :=
  DuckRace.cleanup Host.CancelRequestedFrame
    (duck_tick 60700 (duck_tick 700 duck_started)).

(** ** The remaining inputs of the page *)

(** The four mode buttons: [onClick={() => updateState({ mode: m })}]. *)
Definition click_mode (m : DrawMode) (s : App.Store) : App.Store :=
  App.dispatch (fun _ _ _ => App.updateState [Mode m]) s.

(** The visualisation buttons:
    [onClick={() => !isSpinning && updateState({ interactiveMode: m.id })}]. *)
Definition click_interactive_mode (m : InteractiveMode) (s : App.Store) : App.Store :=
  App.dispatch
    (fun _ isSpinning _ =>
       if negb isSpinning then App.updateState [InteractiveModeSel m] else App.ret tt) s.

(** The "Number of Groups" input:
    [updateState({ numGroups: Math.max(1, parseInt(e.target.value) || 1) })].
    [parsed] is the result of [parseInt], [None] standing for [NaN]. *)
Definition or_one (parsed : option Z) : Z :=
  match parsed with
  | None => 1
  | Some n => if (n =? 0)%Z then 1 else n
  end.

Definition change_numGroups (parsed : option Z) (s : App.Store) : App.Store :=
  App.dispatch (fun _ _ _ => App.updateState [NumGroups (Z.max 1 (or_one parsed))]) s.

Definition click_reset_all (s : App.Store) : App.Store :=
  App.dispatch (fun st _ _ => App.resetAllDraws st) s.

(** [onSpinEnd], [onRaceEnd] and [onEnd] are all [handleInteractiveEnd]. *)
Definition animation_end (now : Z) (time : string) (s : App.Store) : App.Store :=
  App.dispatch (fun st _ w => App.handleInteractiveEnd st w now time) s.

(** Everything the user, or a finished animation, can make the page do.
    The draw button is disabled while the name list is empty or an
    animation runs; [DrawLots] runs [handleDraw] in every state, so the
    events cover at least what the page allows. *)
Inductive Event :=
  | DrawLots (random : nat -> Q) (engine : nat -> SortRun) (now : Z) (time : string)
  | AnimationEnd (now : Z) (time : string)
  | AddItems (type : App.ListType) (value : string)
  | RemoveItem (type : App.ListType) (index : nat)
  | ClearList (type : App.ListType)
  | ShuffleNames (random : nat -> Q)
  | ToggleNameNoRepeat
  | ToggleTaskNoRepeat
  | SelectMode (m : DrawMode)
  | SelectInteractiveMode (m : InteractiveMode)
  | ChangeNumGroups (parsed : option Z)
  | ResetAllDraws.

Definition step (s : App.Store) (e : Event) : App.Store :=
  match e with
  | DrawLots random engine now time => click_draw random engine now time s
  | AnimationEnd now time => animation_end now time s
  | AddItems type value => click_add type value s
  | RemoveItem type index => click_remove type index s
  | ClearList type => click_clear type s
  | ShuffleNames random => click_shuffle random s
  | ToggleNameNoRepeat => click_name_toggle s
  | ToggleTaskNoRepeat => click_task_toggle s
  | SelectMode m => click_mode m s
  | SelectInteractiveMode m => click_interactive_mode m s
  | ChangeNumGroups parsed => change_numGroups parsed s
  | ResetAllDraws => click_reset_all s
  end.

Definition run (events : list Event) (s : App.Store) : App.Store :=
  fold_left step events s.

(** [renderList]: [isNoRepeat && !indices.includes(i)], the items shown
    struck through. *)
Definition isUsed (st : AppState) (type : App.ListType) (i : nat) : bool :=
  let indices :=
    match type with
    | App.names_t => availableNamesIndices st
    | App.tasks_t => availableTasksIndices st
    end in
  let isNoRepeat :=
    match type with
    | App.names_t => isNameNoRepeat st
    | App.tasks_t => isTaskNoRepeat st
    end in
  isNoRepeat && negb (existsb (Nat.eqb i) indices).

(** One [selectTask] per render, [n] renders in a row. *)
Definition draw_task (random : nat -> Q) (s : App.Store) : string * App.Store :=
  App.selectTask (App.s_state s) random s.

Fixpoint draw_tasks (random : nat -> Q) (n : nat) (s : App.Store)
    : list string * App.Store :=
  match n with
  | O => ([], s)
  | S n' =>
      let (t, s1) := draw_task random s in
      let (l, s2) := draw_tasks random n' s1 in
      (t :: l, s2)
  end.

(** The pools hold positions of their list, each at most once. *)
Definition pool_ok {A} (l : list A) (pool : list nat) : Prop :=
  Forall (fun i => (i < length l)%nat) pool /\ NoDup pool.

Definition pools_ok (s : App.Store) : Prop :=
  pool_ok (names (App.s_state s)) (availableNamesIndices (App.s_state s)) /\
  pool_ok (tasks (App.s_state s)) (availableTasksIndices (App.s_state s)).

(** A sample session at the page: no-repeat on, a draw, two names
    pasted, the first name removed, three groups asked for through an
    input that does not parse, a group draw, a shuffle, a reset. *)
Definition sample_events : list Event :=
  [ToggleNameNoRepeat;
   DrawLots (fun _ => 1 # 2) insertion_engine 1 "09:00:00";
   AddItems App.names_t "Eve
Frank";
   RemoveItem App.names_t 0;
   SelectMode groups;
   ChangeNumGroups None;
   ChangeNumGroups (Some (-3)%Z);
   DrawLots (fun _ => 1 # 4) insertion_engine 2 "09:01:00";
   ShuffleNames (fun _ => 3 # 4);
   ResetAllDraws].

(** What [addItems] lets into a list: a non-empty string with no white
    space at either end. *)
Definition clean_item (i : string) : Prop := i <> "" /\ App.trim i = i.

(** No line break and no tab inside. *)
Definition single_line (i : string) : Prop :=
  forall c, In c (list_ascii_of_string i) -> App.is_sep c = false.

(** ** SpinWheel.tsx: the segments on screen

    The group of segments is drawn with [rotate(-rotation deg)], segment
    [i] covering the angles from [startAngle] to [endAngle] measured from
    the top, where the fixed pointer sits. *)

Module SpinWheelView.

Section Segments.
Variable names : list string.

Definition startAngle (i : nat) : Q :=
  (inject_Z (Z.of_nat i) * SpinWheel.segmentAngle names)%Q.

Definition endAngle (i : nat) : Q :=
  (inject_Z (Z.of_nat (i + 1)) * SpinWheel.segmentAngle names)%Q.

(** [WHEEL_COLORS[i % WHEEL_COLORS.length]]. *)
Definition color (i : nat) : string :=
  App.at_index WHEEL_COLORS (i mod length WHEEL_COLORS).

Definition textAngle (i : nat) : Q :=
  (startAngle i + SpinWheel.segmentAngle names / 2)%Q.

(** The segment that lies under the pointer once the wheel has turned by
    [rotation] degrees. *)
Definition under_pointer (rotation : Q) (i : nat) : Prop :=
  (startAngle i <= JS.rem rotation 360)%Q /\ (JS.rem rotation 360 < endAngle i)%Q.
End Segments.

End SpinWheelView.

(** One spin from start to end: the effect runs with [isSpinning] set,
    its timer fires six seconds later, the parent clears [isSpinning], and
    React runs the cleanup and the effect again. *)
Definition completed_spin (names : list string)
    (w : SpinWheel.Component * Host.Host) (winnerIndex : nat)
    : SpinWheel.Component * Host.Host :=
  let started := SpinWheel.effect names (Some winnerIndex) true w in
  let ended :=
    SpinWheel.tick (Host.clock (snd (fst started)) + 6000) (fst started) in
  fst (SpinWheel.effect names (Some winnerIndex) false
         (SpinWheel.cleanup (snd started) ended)).

(** A marble of a three-second run, at the start of its lane. *)
Definition sample_marble : MarbleRace.Marble :=
  {| MarbleRace.name := "A"; MarbleRace.x := 120; MarbleRace.y := 15;
     MarbleRace.color := "#fb923c"; MarbleRace.duration := 3000;
     MarbleRace.wobbleOffset := 0; MarbleRace.isWinner := true |}.

(** The host holds the timer of [setTimeout(onRaceEnd, 2000)] and no
    other. *)
Definition race_end_pending (h : Host.Host) : Prop :=
  exists tm, Host.timers h = [tm] /\ Host.callback tm = Host.RaceEnd.

(** A marble race left to the host: the clock reaches the given times one
    after the other. *)
Definition marble_session (names : list string) (winnerName : string) (width : Q)
    (random : nat -> Q) (h : Host.Host) (ticks : list Q)
    : MarbleRace.Session * Host.Host :=
  fold_left (fun w t => MarbleRace.tick names width t w) ticks
    (fst (MarbleRace.effect names winnerName width random true (MarbleRace.mount, h))).

(** The ledger of one race that started with [ended0] completions and
    [sounds0] sounds on the host: before the winner is declared nothing is
    scheduled; afterwards the sound has played once and [onRaceEnd] is
    either still pending or has been called once. *)
Definition one_race_end (ended0 sounds0 : nat) (declared : bool) (h : Host.Host) : Prop :=
  if declared then
    Host.sounds h = S sounds0 /\
    ((race_end_pending h /\ Host.ended h = ended0) \/
     (Host.timers h = [] /\ Host.ended h = S ended0))
  else Host.timers h = [] /\ Host.ended h = ended0 /\ Host.sounds h = sounds0.

(** Frames and timer checks at 16 ms, 3.6 s, 5.6 s, 9 s and 12 s. *)
Definition sample_ticks : list Q := [16; 3600; 5600; 9000; 12000]%Q.

(** A duck race left to the host in the same way. *)
Definition duck_session (names : list string) (winnerName : string) (width : R)
    (random : nat -> R) (h : Host.Host) (ticks : list Q)
    : DuckRace.Session * Host.Host :=
  fold_left (fun w t => DuckRace.tick width t w) ticks
    (fst (DuckRace.effect names winnerName width random true (DuckRace.mount, h))).

(** The animation frames of a duck race, one timestamp each. *)
Definition duck_frames (width : R) (frames : list R)
    (w : DuckRace.Session * Host.Host) : DuckRace.Session * Host.Host :=
  fold_left (fun w t => DuckRace.animate width t w) frames w.

(** Timestamps that never go back. *)
Fixpoint ascending (prev : R) (l : list R) : Prop :=
  match l with
  | [] => True
  | t :: l' => (prev <= t)%R /\ ascending t l'
  end.

(** A duck flagged as winner swims at 138 px/s or more and, [elapsed]
    seconds into the race, is on the line or has covered at least 85% of
    what its base speed gives. *)
Definition winner_on_the_way (width elapsed : R) (d : DuckRace.Duck) : Prop :=
  DuckRace.isWinner d = true ->
  (138 <= DuckRace.baseSpeed d)%R /\
  ((DuckRace.finishLineX width <= DuckRace.x d)%R \/
   (DuckRace.START_X + 85 / 100 * DuckRace.baseSpeed d * elapsed <= DuckRace.x d)%R).


(** A race in progress: the first frame came at [t0], the last one at
    [t], the winner is not declared yet, and every duck flagged as winner
    (there is one) is on the way. *)
Definition race_under_way (width t0 t : R) (s : DuckRace.Session) : Prop :=
  DuckRace.winnerDeclared s = false /\
  DuckRace.startTimeRef s = t0 /\ DuckRace.lastTime s = t /\
  Forall (winner_on_the_way width ((t - t0) / 1000)) (DuckRace.ducks s) /\
  exists d, d ∈ DuckRace.ducks s /\ DuckRace.isWinner d = true.

(** Three seconds have passed since the first frame, and 85% of
    138 px/s would have covered the track. *)
Definition finish_due (width t0 t : R) : Prop :=
  (3 <= (t - t0) / 1000)%R /\
  (DuckRace.finishLineX width
   <= DuckRace.START_X + 85 / 100 * 138 * ((t - t0) / 1000))%R.

(** * Properties *)

(** ** Arithmetic of [%] *)

Lemma trunc_nonneg_floor (x : Q) : (0 <= x)%Q -> JS.trunc x = Qfloor x.
Proof.
  destruct x as [n d]. unfold Qle, JS.trunc, Qfloor. simpl. intros H.
  rewrite Z.mul_1_r in H.
  apply Z.quot_div_nonneg; lia.
Qed.

Lemma rem_decompose (a b : Q) :
  (a == JS.rem a b + b * inject_Z (JS.trunc (a / b)))%Q.
Proof. unfold JS.rem. ring. Qed.

Lemma rem_range (a b : Q) :
  (0 <= a)%Q -> (0 < b)%Q -> (0 <= JS.rem a b /\ JS.rem a b < b)%Q.
Proof.
  intros Ha Hb. unfold JS.rem.
  assert (Hq : (0 <= a / b)%Q).
  { apply Qle_shift_div_l; [exact Hb|]. lra. }
  rewrite (trunc_nonneg_floor _ Hq).
  pose proof (Qfloor_le (a / b)) as Hlo.
  pose proof (Qlt_floor (a / b)) as Hhi.
  rewrite inject_Z_plus in Hhi. change (inject_Z 1) with 1%Q in Hhi.
  assert (Hab : (a == (a / b) * b)%Q) by (field; lra).
  set (q := (a / b)%Q) in *. set (f := inject_Z (Qfloor q)) in *.
  split.
  - assert ((b * f <= q * b)%Q) by nra. lra.
  - assert ((q * b < b * (f + 1))%Q) by nra. lra.
Qed.

(** A non-negative number that is [r] plus a whole number of turns, with
    [r] in [[0, m)], has remainder [r]. *)
Lemma rem_unique (x m r : Q) (k : Z) :
  (0 <= x)%Q -> (0 < m)%Q -> (0 <= r)%Q -> (r < m)%Q ->
  (x == r + m * inject_Z k)%Q -> (JS.rem x m == r)%Q.
Proof.
  intros Hx Hm Hr0 Hr1 Hk.
  destruct (rem_range x m Hx Hm) as [H0 H1].
  pose proof (rem_decompose x m) as Hd.
  set (t := JS.trunc (x / m)) in *. set (s := JS.rem x m) in *.
  assert (Heq : (s - r == m * inject_Z (k - t))%Q).
  { unfold Z.sub. rewrite inject_Z_plus, inject_Z_opp. lra. }
  assert (Hkt : (k - t = 0)%Z).
  { destruct (Z.lt_trichotomy (k - t) 0) as [Hlt|[He|Hgt]]; [|exact He|].
    - exfalso.
      assert ((inject_Z (k - t) <= -1)%Q).
      { change (-1)%Q with (inject_Z (-1)). rewrite <- Zle_Qle. lia. }
      nra.
    - exfalso.
      assert ((1 <= inject_Z (k - t))%Q).
      { change 1%Q with (inject_Z 1). rewrite <- Zle_Qle. lia. }
      nra. }
  rewrite Hkt in Heq. change (inject_Z 0) with 0%Q in Heq. lra.
Qed.

(** ** C1: the wheel stops on the winner *)

(** *** The spin in exact arithmetic *)

Lemma Ac_range (names : list string) (winnerIndex : nat) :
  (1 <= length names)%nat -> (winnerIndex < length names)%nat ->
  (0 <= SpinWheel.Ac names winnerIndex /\ SpinWheel.Ac names winnerIndex < 360)%Q.
Proof.
  intros Hn Hw. unfold SpinWheel.Ac, SpinWheel.segmentAngle, SpinWheel.numSegments.
  set (n := inject_Z (Z.of_nat (length names))).
  set (w := inject_Z (Z.of_nat winnerIndex)).
  assert (Hn1 : (1 <= n)%Q).
  { unfold n. change 1%Q with (inject_Z 1). rewrite <- Zle_Qle. lia. }
  assert (Hw0 : (0 <= w)%Q).
  { unfold w. change 0%Q with (inject_Z 0). rewrite <- Zle_Qle. lia. }
  assert (Hw1 : (w + 1 <= n)%Q).
  { unfold w, n. change 1%Q with (inject_Z 1).
    rewrite <- inject_Z_plus, <- Zle_Qle. lia. }
  assert (Hs : (0 < 360 / n)%Q).
  { apply Qlt_shift_div_l; lra. }
  assert (Hsn : ((360 / n) * n == 360)%Q) by (field; lra).
  set (s := (360 / n)%Q) in *.
  assert (Hh : (s / 2 == s * (1 # 2))%Q) by (field).
  split.
  - rewrite Hh. nra.
  - rewrite Hh.
    assert (Hlt : ((w * s + s * (1 # 2)) * n < 360 * n)%Q) by nra.
    nra.
Qed.

Lemma minRotationDelta_turns (names : list string) (winnerIndex : nat) (lastRotation : Q) :
  exists k : Z,
    (lastRotation + SpinWheel.minRotationDelta names winnerIndex lastRotation
     == SpinWheel.Ac names winnerIndex + 360 * inject_Z k)%Q.
Proof.
  unfold SpinWheel.minRotationDelta.
  set (L := SpinWheel.Ac names winnerIndex).
  pose proof (rem_decompose lastRotation 360) as H1.
  set (V := JS.rem lastRotation 360) in *.
  pose proof (rem_decompose (L - V + 360) 360) as H2.
  set (d := JS.rem (L - V + 360) 360) in *.
  set (t1 := JS.trunc (lastRotation / 360)) in *.
  set (t2 := JS.trunc ((L - V + 360) / 360)) in *.
  destruct (Qlt_le_dec d 1).
  - exists (t1 + 1 - t2 + 1)%Z.
    unfold Z.sub. rewrite !inject_Z_plus, inject_Z_opp.
    change (inject_Z 1) with 1%Q. lra.
  - exists (t1 + 1 - t2)%Z.
    unfold Z.sub. rewrite !inject_Z_plus, inject_Z_opp.
    change (inject_Z 1) with 1%Q. lra.
Qed.

Lemma minRotationDelta_range (names : list string) (winnerIndex : nat) (lastRotation : Q) :
  (1 <= length names)%nat -> (winnerIndex < length names)%nat ->
  (0 <= lastRotation)%Q ->
  (1 <= SpinWheel.minRotationDelta names winnerIndex lastRotation /\
   SpinWheel.minRotationDelta names winnerIndex lastRotation < 361)%Q.
Proof.
  intros Hn Hw Hl. unfold SpinWheel.minRotationDelta.
  destruct (Ac_range names winnerIndex Hn Hw) as [HA0 HA1].
  set (L := SpinWheel.Ac names winnerIndex) in *.
  destruct (rem_range lastRotation 360 Hl) as [HV0 HV1]; [lra|].
  set (V := JS.rem lastRotation 360) in *.
  destruct (rem_range (L - V + 360) 360) as [Hd0 Hd1]; [lra|lra|].
  set (d := JS.rem (L - V + 360) 360) in *.
  destruct (Qlt_le_dec d 1); lra.
Qed.

(** *** Rounding to binary64 *)

Lemma pow2_pos (e : Z) : (0 < Double.pow2 e)%Q.
Proof. apply Qpower_0_lt. reflexivity. Qed.

Lemma pow2_add (a b : Z) : (Double.pow2 (a + b) == Double.pow2 a * Double.pow2 b)%Q.
Proof. apply Qpower_plus. discriminate. Qed.

Lemma pow2_nat (n : Z) : (0 <= n)%Z -> (Double.pow2 n == inject_Z (2 ^ n))%Q.
Proof. intros H. unfold Double.pow2. rewrite (Zpower_Qpower 2 n H). reflexivity. Qed.

Lemma nearest_even_err (q : Q) :
  (Qabs (inject_Z (Double.nearest_even q) - q) <= 1 # 2)%Q.
Proof.
  unfold Double.nearest_even.
  pose proof (Qfloor_le q) as Hlo. pose proof (Qlt_floor q) as Hhi.
  rewrite inject_Z_plus in Hhi. change (inject_Z 1) with 1%Q in Hhi.
  set (f := Qfloor q) in *.
  apply Qabs_Qle_condition.
  destruct (q - inject_Z f ?= 1 # 2)%Q eqn:E.
  - apply Qeq_alt in E.
    destruct (Z.even f); [|rewrite inject_Z_plus; change (inject_Z 1) with 1%Q];
      split; lra.
  - apply Qlt_alt in E. split; lra.
  - apply Qgt_alt in E. rewrite inject_Z_plus. change (inject_Z 1) with 1%Q.
    split; lra.
Qed.

Lemma exponent_le (q : Q) : ~ (q == 0)%Q -> (Double.pow2 (Double.exponent q) <= Qabs q)%Q.
Proof.
  intros Hq. unfold Double.exponent.
  destruct (Qle_bool _ _) eqn:E; [apply Qle_bool_iff; exact E|]. clear E.
  assert (Ha : (0 < Qabs q)%Q).
  { destruct q as [qn qd]. unfold Qeq in Hq. unfold Qlt. simpl in *. lia. }
  destruct (Qabs q) as [n d] eqn:Eabs. cbn [Qnum Qden].
  assert (Hn : (0 < n)%Z).
  { unfold Qlt in Ha. simpl in Ha. lia. }
  destruct (Z.log2_spec n Hn) as [Hn1 _].
  destruct (Z.log2_spec (Zpos d) (Pos2Z.is_pos d)) as [_ Hd2].
  pose proof (Z.log2_nonneg n) as Ln. pose proof (Z.log2_nonneg (Zpos d)) as Ld.
  replace (Z.log2 n - Z.log2 (Z.pos d) - 1)%Z
    with (Z.log2 n + - (Z.succ (Z.log2 (Z.pos d))))%Z by lia.
  rewrite pow2_add. unfold Double.pow2 at 2. rewrite Qpower_opp.
  fold (Double.pow2 (Z.succ (Z.log2 (Z.pos d)))).
  rewrite !pow2_nat by lia.
  rewrite (Qmake_Qdiv n d).
  set (A := (2 ^ Z.log2 n)%Z) in *. set (B := (2 ^ Z.succ (Z.log2 (Z.pos d)))%Z) in *.
  assert (HA : (inject_Z A <= inject_Z n)%Q) by (rewrite <- Zle_Qle; exact Hn1).
  assert (HB : (inject_Z (Zpos d) < inject_Z B)%Q) by (rewrite <- Zlt_Qlt; exact Hd2).
  assert (Hd : (0 < inject_Z (Zpos d))%Q) by reflexivity.
  assert (HA0 : (0 < inject_Z A)%Q).
  { change 0%Q with (inject_Z 0). rewrite <- Zlt_Qlt. unfold A. apply Z.pow_pos_nonneg; lia. }
  apply Qle_shift_div_l; [exact Hd|].
  assert (E : (inject_Z A * / inject_Z B * inject_Z (Z.pos d)
               == inject_Z A * inject_Z (Z.pos d) / inject_Z B)%Q) by (field; lra).
  rewrite E. apply Qle_shift_div_r; [lra|]. nra.
Qed.

Lemma exponent_lt (q : Q) :
  ~ (q == 0)%Q -> (Qabs q < Double.pow2 (Double.exponent q + 1))%Q.
Proof.
  intros Hq. unfold Double.exponent.
  destruct (Qle_bool _ _) eqn:E.
  - clear E.
    assert (Ha : (0 < Qabs q)%Q).
    { destruct q as [qn qd]. unfold Qeq in Hq. unfold Qlt. simpl in *. lia. }
    destruct (Qabs q) as [n d] eqn:Eabs. cbn [Qnum Qden].
    assert (Hn : (0 < n)%Z).
    { unfold Qlt in Ha. simpl in Ha. lia. }
    destruct (Z.log2_spec n Hn) as [_ Hn2].
    destruct (Z.log2_spec (Zpos d) (Pos2Z.is_pos d)) as [Hd1 _].
    pose proof (Z.log2_nonneg n) as Ln. pose proof (Z.log2_nonneg (Zpos d)) as Ld.
    replace (Z.log2 n - Z.log2 (Z.pos d) + 1)%Z
      with (Z.succ (Z.log2 n) + - Z.log2 (Z.pos d))%Z by lia.
    rewrite pow2_add. unfold Double.pow2 at 2. rewrite Qpower_opp.
    fold (Double.pow2 (Z.log2 (Z.pos d))).
    rewrite !pow2_nat by lia.
    rewrite (Qmake_Qdiv n d).
    set (A := (2 ^ Z.succ (Z.log2 n))%Z) in *. set (B := (2 ^ Z.log2 (Z.pos d))%Z) in *.
    assert (HA : (inject_Z n < inject_Z A)%Q) by (rewrite <- Zlt_Qlt; exact Hn2).
    assert (HB : (inject_Z B <= inject_Z (Zpos d))%Q) by (rewrite <- Zle_Qle; exact Hd1).
    assert (Hd : (0 < inject_Z (Zpos d))%Q) by reflexivity.
    assert (Hn0 : (0 < inject_Z n)%Q).
    { change 0%Q with (inject_Z 0). rewrite <- Zlt_Qlt. exact Hn. }
    assert (HB0 : (0 < inject_Z B)%Q).
    { change 0%Q with (inject_Z 0). rewrite <- Zlt_Qlt. unfold B.
      apply Z.pow_pos_nonneg; lia. }
    apply Qlt_shift_div_r; [exact Hd|].
    assert (E : (inject_Z A * / inject_Z B * inject_Z (Z.pos d)
                 == inject_Z A * inject_Z (Z.pos d) / inject_Z B)%Q) by (field; lra).
    rewrite E. apply Qlt_shift_div_l; [lra|]. nra.
  - replace (Z.log2 (Qnum (Qabs q)) - Z.log2 (Z.pos (Qden (Qabs q))) - 1 + 1)%Z
      with (Z.log2 (Qnum (Qabs q)) - Z.log2 (Z.pos (Qden (Qabs q))))%Z by lia.
    apply Qnot_le_lt. intros H. apply Qle_bool_iff in H. congruence.
Qed.

Lemma round_samples :
  Double.round (1 # 10) = (3602879701896397 # 36028797018963968)%Q /\
  Double.round (9007199254740993 # 1) = 9007199254740992%Q /\
  Double.round (9007199254740995 # 1) = 9007199254740996%Q /\
  Double.div 360 7 = (3618963986279863 # 70368744177664)%Q.
Proof. vm_compute. repeat split. Qed.

(** What [round] returns has a significand of at most 53 bits. *)
Lemma round_significand (q : Q) :
  ~ (q == 0)%Q ->
  let m := Double.nearest_even (q / Double.pow2 (Double.exponent q - 52)) in
  (Double.round q == inject_Z m * Double.pow2 (Double.exponent q - 52))%Q /\
  (2 ^ 52 <= Z.abs m <= 2 ^ 53)%Z.
Proof.
  intros Hq. cbv zeta. split.
  - unfold Double.round. destruct (Qeq_bool q 0) eqn:E.
    + apply Qeq_bool_iff in E. contradiction.
    + cbv zeta. apply Qred_correct.
  - pose proof (exponent_le q Hq) as Hlo. pose proof (exponent_lt q Hq) as Hhi.
    set (e := Double.exponent q) in *.
    pose proof (pow2_pos (e - 52)) as Hu.
    assert (E1 : (Double.pow2 e == Double.pow2 (e - 52) * inject_Z (2 ^ 52))%Q).
    { replace e with ((e - 52) + 52)%Z at 1 by lia. rewrite pow2_add.
      rewrite (pow2_nat 52) by lia. reflexivity. }
    assert (E2 : (Double.pow2 (e + 1) == Double.pow2 (e - 52) * inject_Z (2 ^ 53))%Q).
    { replace (e + 1)%Z with ((e - 52) + 53)%Z by lia. rewrite pow2_add.
      rewrite (pow2_nat 53) by lia. reflexivity. }
    set (ulp := Double.pow2 (e - 52)) in *.
    pose proof (nearest_even_err (q / ulp)) as Hm.
    set (m := Double.nearest_even (q / ulp)) in *.
    apply Qabs_Qle_condition in Hm as [Hm1 Hm2].
    assert (Hx : (Qabs (q / ulp) == Qabs q / ulp)%Q).
    { unfold Qdiv. rewrite Qabs_Qmult. rewrite (Qabs_pos (/ ulp)); [reflexivity|].
      apply Qlt_le_weak, Qinv_lt_0_compat. exact Hu. }
    assert (Hx1 : (inject_Z (2 ^ 52) <= Qabs (q / ulp))%Q).
    { rewrite Hx. apply Qle_shift_div_l; [exact Hu|]. lra. }
    assert (Hx2 : (Qabs (q / ulp) < inject_Z (2 ^ 53))%Q).
    { rewrite Hx. apply Qlt_shift_div_r; [exact Hu|]. lra. }
    set (x := (q / ulp)%Q) in *.
    change (inject_Z (2 ^ 52)) with 4503599627370496%Q in Hx1.
    change (inject_Z (2 ^ 53)) with 9007199254740992%Q in Hx2.
    assert (A : (4503599627370496 - (1 # 2) <= Qabs (inject_Z m))%Q).
    { revert Hx1. apply Qabs_case; intros ? ?; apply Qabs_case; intros; lra. }
    assert (B : (Qabs (inject_Z m) < 9007199254740992 + (1 # 2))%Q).
    { revert Hx2. apply Qabs_case; intros ? ?; apply Qabs_case; intros; lra. }
    assert (Em : Qabs (inject_Z m) = inject_Z (Z.abs m)) by reflexivity.
    rewrite Em in A, B.
    assert (A' : (inject_Z 4503599627370495 < inject_Z (Z.abs m))%Q).
    { change (inject_Z 4503599627370495) with 4503599627370495%Q. lra. }
    assert (B' : (inject_Z (Z.abs m) < inject_Z 9007199254740993)%Q).
    { change (inject_Z 9007199254740993) with 9007199254740993%Q. lra. }
    rewrite <- Zlt_Qlt in A', B'.
    change (2 ^ 52)%Z with 4503599627370496%Z.
    change (2 ^ 53)%Z with 9007199254740992%Z. lia.
Qed.

Lemma round_err (q : Q) :
  (Qabs (Double.round q - q) <= Qabs q * (1 # 9007199254740992))%Q.
Proof.
  unfold Double.round. destruct (Qeq_bool q 0) eqn:E.
  - apply Qeq_bool_iff in E. rewrite E. discriminate.
  - apply Qeq_bool_neq in E. cbv zeta. rewrite Qred_correct.
    pose proof (exponent_le q E) as He.
    set (e := Double.exponent q) in *.
    pose proof (pow2_pos (e - 52)) as Hu.
    assert (Hulp : (Double.pow2 (e - 52) == Double.pow2 e * (1 # 4503599627370496))%Q).
    { replace (e - 52)%Z with (e + -52)%Z by lia. rewrite pow2_add. reflexivity. }
    set (ulp := Double.pow2 (e - 52)) in *.
    pose proof (nearest_even_err (q / ulp)) as Hm.
    set (m := inject_Z (Double.nearest_even (q / ulp))) in *.
    apply Qabs_Qle_condition in Hm as [Hm1 Hm2].
    assert (Hq : (q == (q / ulp) * ulp)%Q) by (field; lra).
    set (x := (q / ulp)%Q) in *.
    apply Qabs_Qle_condition. split; nra.
Qed.


(** *** The spin in binary64 *)

Lemma round_near (q B : Q) :
  (- B <= q)%Q -> (q <= B)%Q ->
  (q - B * Double.u64 <= Double.round q)%Q /\ (Double.round q <= q + B * Double.u64)%Q.
Proof.
  intros H1 H2. pose proof (round_err q) as H. fold Double.u64 in H.
  apply Qabs_Qle_condition in H as [Ha Hb].
  assert (Hq : (Qabs q <= B)%Q) by (apply Qabs_Qle_condition; split; lra).
  assert (Hu : (0 < Double.u64)%Q) by reflexivity.
  assert (Hm : (Qabs q * Double.u64 <= B * Double.u64)%Q) by (apply Qmult_le_compat_r; lra).
  split; lra.
Qed.

Section Wheel64.
Variable names : list string.
Variable winnerIndex : nat.
Hypothesis some_names : (1 <= length names)%nat.
Hypothesis winner_in_range : (winnerIndex < length names)%nat.

Let N : Q := inject_Z (Z.of_nat (length names)).
Let W : Q := inject_Z (Z.of_nat winnerIndex).
Let s : Q := (360 / N)%Q.

Lemma N_W_range : (1 <= N)%Q /\ (0 <= W)%Q /\ (W + 1 <= N)%Q.
Proof.
  unfold N, W. repeat split.
  - change 1%Q with (inject_Z 1). rewrite <- Zle_Qle. lia.
  - change 0%Q with (inject_Z 0). rewrite <- Zle_Qle. lia.
  - change 1%Q with (inject_Z 1). rewrite <- inject_Z_plus, <- Zle_Qle. lia.
Qed.

Lemma s_range : (0 < s)%Q /\ (s <= 360)%Q /\ (s * N == 360)%Q /\ (W * s + s <= 360)%Q.
Proof.
  destruct N_W_range as (HN & HW0 & HW1).
  assert (Hs : (0 < s)%Q) by (apply Qlt_shift_div_l; lra).
  assert (HsN : (s * N == 360)%Q) by (unfold s; field; lra).
  repeat split; [exact Hs| |exact HsN|]; nra.
Qed.

Lemma segmentAngle64_near :
  (s - s * Double.u64 <= SpinWheel64.segmentAngle names)%Q /\
  (SpinWheel64.segmentAngle names <= s + s * Double.u64)%Q.
Proof.
  destruct s_range as (Hs & _).
  unfold SpinWheel64.segmentAngle, SpinWheel64.numSegments, Double.div.
  fold N. fold s. apply round_near; lra.
Qed.

(** The centre computed in binary64 is the exact centre but for
    rounding. *)
Lemma Ac64_near :
  (W * s + s / 2 - 1500 * Double.u64 <= SpinWheel64.Ac names winnerIndex)%Q /\
  (SpinWheel64.Ac names winnerIndex <= W * s + s / 2 + 1500 * Double.u64)%Q.
Proof.
  destruct N_W_range as (HN & HW0 & HW1).
  destruct s_range as (Hs & Hs360 & HsN & HWs).
  destruct segmentAngle64_near as [Ha1 Ha2].
  unfold SpinWheel64.Ac, Double.add, Double.mul, Double.div. fold W.
  set (sa := SpinWheel64.segmentAngle names) in *.
  assert (Hu : (0 < Double.u64)%Q) by reflexivity.
  assert (Hu1 : (Double.u64 <= 1 # 1000000000)%Q) by (unfold Qle; simpl; lia).
  assert (HWs0 : (0 <= W * s)%Q) by nra.
  assert (HWsu : (W * s * Double.u64 <= 360 * Double.u64)%Q) by nra.
  assert (Hsu : (s * Double.u64 <= 360 * Double.u64)%Q) by nra.
  assert (HWsa1 : (W * s - 360 * Double.u64 <= W * sa)%Q) by nra.
  assert (HWsa2 : (W * sa <= W * s + 360 * Double.u64)%Q) by nra.
  destruct (round_near (W * sa) 361) as [Hp1 Hp2]; [lra|lra|].
  set (p := Double.round (W * sa)) in *.
  assert (Hh : (sa / 2 == sa * (1 # 2))%Q) by (unfold Qdiv; reflexivity).
  assert (Hh' : (s / 2 == s * (1 # 2))%Q) by (unfold Qdiv; reflexivity).
  destruct (round_near (sa / 2) 181) as [Hh1 Hh2]; [lra|lra|].
  set (h := Double.round (sa / 2)) in *.
  destruct (round_near (p + h) 361) as [HA1 HA2]; [lra|lra|].
  split; lra.
Qed.

Variable lastRotation : Q.
Hypothesis rotation_nonneg : (0 <= lastRotation)%Q.
(** The accumulated rotation and the number of names leave the 53 bits of
    a double enough room for half a segment. *)
Hypothesis in_precision : ((lastRotation + 11000) * N <= 1000000000000000000)%Q.

Lemma half_segment : ((lastRotation + 11000) * Double.u64 < s / 2)%Q.
Proof.
  destruct N_W_range as (HN & _). destruct s_range as (Hs & _ & HsN & _).
  apply (Qmult_lt_r _ _ N); [lra|]. unfold Double.u64.
  assert (Hh' : (s / 2 == s * (1 # 2))%Q) by (unfold Qdiv; reflexivity).
  rewrite Hh'. lra.
Qed.

(** The rotation a spin ends on, computed in binary64, is the exact
    centre of the winner's segment plus a whole number of turns, but for
    the rounding error: at most [2^-53] of the rotation itself and of
    the few thousand degrees of the intermediate results. *)
Lemma newTotalRotation64_turns :
  exists k : Z,
    (W * s + s / 2 + 360 * inject_Z k - (lastRotation + 10000) * Double.u64
       <= SpinWheel64.newTotalRotation names winnerIndex lastRotation)%Q /\
    (SpinWheel64.newTotalRotation names winnerIndex lastRotation
       <= W * s + s / 2 + 360 * inject_Z k + (lastRotation + 10000) * Double.u64)%Q /\
    (0 <= SpinWheel64.newTotalRotation names winnerIndex lastRotation)%Q.
Proof.
  destruct N_W_range as (HN & HW0 & HW1).
  destruct s_range as (Hs & Hs360 & HsN & HWs).
  pose proof half_segment as Hhalf.
  destruct Ac64_near as [HA1 HA2].
  assert (Hh' : (s / 2 == s * (1 # 2))%Q) by (unfold Qdiv; reflexivity).
  assert (HWs0 : (0 <= W * s)%Q) by nra.
  unfold SpinWheel64.newTotalRotation, SpinWheel64.rotationDelta,
    SpinWheel64.minRotationDelta, Double.add, Double.sub.
  set (A := SpinWheel64.Ac names winnerIndex) in *.
  assert (Hspins : Double.mul 360 SpinWheel64.fullSpins = 1800%Q)
    by (vm_compute; reflexivity).
  rewrite Hspins.
  destruct (rem_range lastRotation 360 rotation_nonneg) as [HV0 HV1]; [reflexivity|].
  pose proof (rem_decompose lastRotation 360) as HV.
  set (V := JS.rem lastRotation 360) in *.
  set (t1 := JS.trunc (lastRotation / 360)) in *.
  unfold Double.u64 in *.
  destruct (round_near (A - V) 361) as [Hd1a Hd1b]; [lra|lra|].
  set (d1 := Double.round (A - V)) in *.
  destruct (round_near (d1 + 360) 722) as [Hd2a Hd2b]; unfold Double.u64 in *; [lra|lra|].
  set (d2 := Double.round (d1 + 360)) in *.
  destruct (rem_range d2 360) as [Hd0 Hd360]; [lra|reflexivity|].
  pose proof (rem_decompose d2 360) as Hd.
  set (d := JS.rem d2 360) in *.
  set (t2 := JS.trunc (d2 / 360)) in *.
  destruct (Qlt_le_dec d 1) as [Hlt|Hge].
  - destruct (round_near (d + 360) 361) as [Hm1 Hm2]; unfold Double.u64 in *; [lra|lra|].
    set (mrd := Double.round (d + 360)) in *.
    destruct (round_near (mrd + 1800) 2162) as [Hr1 Hr2]; unfold Double.u64 in *;
      [lra|lra|].
    set (rd := Double.round (mrd + 1800)) in *.
    destruct (round_near (lastRotation + rd) (lastRotation + 2163)) as [Hn1 Hn2];
      unfold Double.u64 in *; [lra|lra|].
    exists (t1 + 1 - t2 + 1 + 5)%Z.
    unfold Z.sub. rewrite !inject_Z_plus, inject_Z_opp.
    change (inject_Z 1) with 1%Q. change (inject_Z 5) with 5%Q.
    repeat split; lra.
  - destruct (round_near (d + 1800) 2162) as [Hr1 Hr2]; unfold Double.u64 in *;
      [lra|lra|].
    set (rd := Double.round (d + 1800)) in *.
    destruct (round_near (lastRotation + rd) (lastRotation + 2163)) as [Hn1 Hn2];
      unfold Double.u64 in *; [lra|lra|].
    exists (t1 + 1 - t2 + 5)%Z.
    unfold Z.sub. rewrite !inject_Z_plus, inject_Z_opp.
    change (inject_Z 1) with 1%Q. change (inject_Z 5) with 5%Q.
    repeat split; lra.
Qed.

(** A border [X * segmentAngle] computed in binary64, against the exact
    border [Y * s] of a segment on its left or on its right. *)
Lemma border64_upper (X Y : Q) :
  (0 <= X)%Q -> (X <= Y)%Q -> (Y * s <= 360)%Q ->
  (Double.mul X (SpinWheel64.segmentAngle names) <= Y * s + 1000 * Double.u64)%Q.
Proof.
  intros HX HXY HY. destruct s_range as (Hs & _).
  destruct segmentAngle64_near as [Ha1 Ha2].
  set (sa := SpinWheel64.segmentAngle names) in *.
  unfold Double.mul. destruct (round_near (X * sa) 361) as [_ H];
    unfold Double.u64 in *.
  - assert (Hsa : (0 < sa)%Q) by lra. nra.
  - assert (Hsa : (0 < sa)%Q) by lra.
    assert (H1 : (X * sa <= Y * sa)%Q) by nra.
    assert (H2 : (Y * sa <= Y * (s + s * (1 # 9007199254740992)))%Q) by nra.
    lra.
  - assert (Hsa : (0 < sa)%Q) by lra.
    assert (H1 : (X * sa <= Y * sa)%Q) by nra.
    assert (H2 : (Y * sa <= Y * (s + s * (1 # 9007199254740992)))%Q) by nra.
    lra.
Qed.

Lemma border64_lower (X Y : Q) :
  (0 <= Y)%Q -> (Y <= X)%Q -> (Y * s <= 360)%Q ->
  (Y * s - 1000 * Double.u64 <= Double.mul X (SpinWheel64.segmentAngle names))%Q.
Proof.
  intros HY HYX HYs. destruct s_range as (Hs & _).
  destruct segmentAngle64_near as [Ha1 Ha2].
  set (sa := SpinWheel64.segmentAngle names) in *.
  unfold Double.mul.
  destruct (round_near (X * sa) (X * sa)) as [H _]; unfold Double.u64 in *.
  - assert (Hsa : (0 < sa)%Q) by lra. nra.
  - lra.
  - assert (Hsa : (0 < sa)%Q) by lra.
    assert (H1 : (Y * sa <= X * sa)%Q) by nra.
    assert (H2 : (Y * (s - s * (1 # 9007199254740992)) <= Y * sa)%Q) by nra.
    set (q := (X * sa)%Q) in *.
    assert (H3 : (Y * s * (1 - (1 # 9007199254740992)) <= q)%Q) by lra.
    assert (H4 : (Y * s * (1 - (1 # 9007199254740992)) * (1 - (1 # 9007199254740992))
                  <= q * (1 - (1 # 9007199254740992)))%Q)
      by (apply Qmult_le_compat_r; [exact H3|discriminate]).
    assert (H5 : (0 <= Y * s)%Q) by nra.
    lra.
Qed.

Lemma rest64_near :
  let rest := JS.rem (SpinWheel64.newTotalRotation names winnerIndex lastRotation) 360 in
  (W * s + s / 2 - (lastRotation + 10000) * Double.u64 <= rest)%Q /\
  (rest <= W * s + s / 2 + (lastRotation + 10000) * Double.u64)%Q.
Proof.
  cbv zeta. destruct N_W_range as (HN & HW0 & HW1).
  destruct s_range as (Hs & Hs360 & HsN & HWs).
  pose proof half_segment as Hhalf.
  assert (Hh' : (s / 2 == s * (1 # 2))%Q) by (unfold Qdiv; reflexivity).
  assert (HWs0 : (0 <= W * s)%Q) by nra.
  destruct newTotalRotation64_turns as (k & H1 & H2 & H0).
  set (x := SpinWheel64.newTotalRotation names winnerIndex lastRotation) in *.
  unfold Double.u64 in *.
  assert (E : (JS.rem x 360 == x - 360 * inject_Z k)%Q).
  { apply (rem_unique x 360 _ k); [exact H0|reflexivity|lra|lra|ring]. }
  rewrite E. split; lra.
Qed.
End Wheel64.

(** C1.  The spin as the browser computes it, in binary64.  For a wheel
    of [n >= 1] names, a winner index below [n] and an accumulated
    rotation [lastRotation >= 0] with
    [(lastRotation + 11000) * n <= 10^18] (a thousand names and
    [9 * 10^14] degrees, say), the rotation the spin ends on, reduced
    with [% 360], is the centre
    [winnerIndex * (360 / n) + (360 / n) / 2] of the winner's segment but
    for a rounding error of at most [(lastRotation + 10000) * 2^-53]
    degrees, which is less than half a segment; of the segments drawn
    from [i * segmentAngle] to [(i + 1) * segmentAngle], the one under
    the pointer is therefore the winner's and no other. *)
Theorem wheel64_rests_in_winner_segment (names : list string) (winnerIndex : nat)
    (lastRotation : Q) :
  (1 <= length names)%nat -> (winnerIndex < length names)%nat ->
  (0 <= lastRotation)%Q ->
  ((lastRotation + 11000) * inject_Z (Z.of_nat (length names))
     <= 1000000000000000000)%Q ->
  let n := inject_Z (Z.of_nat (length names)) in
  let centre := (inject_Z (Z.of_nat winnerIndex) * (360 / n) + (360 / n) / 2)%Q in
  let rest := JS.rem (SpinWheel64.newTotalRotation names winnerIndex lastRotation) 360 in
  (Qabs (rest - centre) <= (lastRotation + 10000) * Double.u64)%Q /\
  ((lastRotation + 10000) * Double.u64 < (360 / n) / 2)%Q /\
  forall i : nat,
    (SpinWheel64.startAngle names i <= rest)%Q /\
    (rest < SpinWheel64.endAngle names i)%Q <-> i = winnerIndex.
Proof.
  intros Hn Hw Hl Hp. cbv zeta.
  destruct (rest64_near names winnerIndex Hn Hw lastRotation Hl Hp) as [Hr1 Hr2].
  destruct (N_W_range names winnerIndex Hn Hw) as (HN & HW0 & HW1).
  destruct (s_range names winnerIndex Hn Hw) as (Hs & Hs360 & HsN & HWs).
  pose proof (half_segment names winnerIndex Hn Hw lastRotation Hp) as Hhalf.
  set (rest := JS.rem (SpinWheel64.newTotalRotation names winnerIndex lastRotation) 360) in *.
  set (N := inject_Z (Z.of_nat (length names))) in *.
  set (W := inject_Z (Z.of_nat winnerIndex)) in *.
  set (s := (360 / N)%Q) in *.
  assert (Hh' : (s / 2 == s * (1 # 2))%Q) by (unfold Qdiv; reflexivity).
  assert (HWs0 : (0 <= W * s)%Q) by nra.
  assert (HW1s : ((W + 1) * s <= 360)%Q) by lra.
  split; [apply Qabs_Qle_condition; split; lra|].
  unfold Double.u64 in *. split; [lra|].
  intros i. unfold SpinWheel64.startAngle, SpinWheel64.endAngle.
  assert (HI : (inject_Z (Z.of_nat (i + 1)) == inject_Z (Z.of_nat i) + 1)%Q).
  { rewrite Nat2Z.inj_add, inject_Z_plus. reflexivity. }
  assert (HI0 : (0 <= inject_Z (Z.of_nat i))%Q).
  { change 0%Q with (inject_Z 0). rewrite <- Zle_Qle. lia. }
  assert (HI1 : (0 <= inject_Z (Z.of_nat (i + 1)))%Q).
  { change 0%Q with (inject_Z 0). rewrite <- Zle_Qle. lia. }
  split.
  - intros [H1 H2]. destruct (Nat.lt_trichotomy i winnerIndex) as [Hlt|[He|Hgt]];
      [exfalso|exact He|exfalso].
    + assert (Hle : (inject_Z (Z.of_nat (i + 1)) <= W)%Q)
        by (unfold W; rewrite <- Zle_Qle; lia).
      pose proof (border64_upper names winnerIndex Hn Hw _ W HI1 Hle
                    ltac:(fold N; fold s; lra)) as B.
      fold N in B. fold s in B. unfold Double.u64 in B. lra.
    + assert (Hge : (W + 1 <= inject_Z (Z.of_nat i))%Q).
      { unfold W. change 1%Q with (inject_Z 1). rewrite <- inject_Z_plus, <- Zle_Qle. lia. }
      pose proof (border64_lower names winnerIndex Hn Hw _ (W + 1) ltac:(lra) Hge
                    ltac:(fold N; fold s; lra)) as B.
      fold N in B. fold s in B. unfold Double.u64 in B. lra.
  - intros ->. fold W. split.
    + pose proof (border64_upper names winnerIndex Hn Hw W W HW0 ltac:(lra)
                    ltac:(fold N; fold s; lra)) as B.
      fold N in B. fold s in B. unfold Double.u64 in B. lra.
    + assert (Hge : (W + 1 <= inject_Z (Z.of_nat (winnerIndex + 1)))%Q)
        by (rewrite HI; fold W; lra).
      pose proof (border64_lower names winnerIndex Hn Hw _ (W + 1) ltac:(lra) Hge
                    ltac:(fold N; fold s; lra)) as B.
      fold N in B. fold s in B. unfold Double.u64 in B. lra.
Qed.

Lemma wheel64_rests_in_winner_segment_witness :
  (Qabs (JS.rem (SpinWheel64.newTotalRotation seven_names 1 0) 360
         - (inject_Z (Z.of_nat 1) * (360 / inject_Z (Z.of_nat (length seven_names)))
            + (360 / inject_Z (Z.of_nat (length seven_names))) / 2))
   <= (0 + 10000) * Double.u64)%Q.
Proof.
  refine (proj1 (wheel64_rests_in_winner_segment seven_names 1 0 _ _ _ _)).
  - simpl. lia.
  - simpl. lia.
  - unfold Qle. simpl. lia.
  - unfold Qle. simpl. lia.
Defined.

(** Seven names, winner 1, a wheel that has not turned yet: in binary64
    the spin ends on 1877.142857142857..., which [% 360] reduces to
    77.14285714285711, while [Ac] is 77.14285714285714.  The rotation is
    congruent modulo 360 neither to the [Ac] the code computed nor to the
    exact centre 540/7. *)
Lemma wheel64_rest_is_not_Ac :
  (JS.rem (SpinWheel64.newTotalRotation seven_names 1 0) 360
     - SpinWheel64.Ac seven_names 1 == - (1 # 35184372088832))%Q /\
  ~ (exists k : Z,
       (SpinWheel64.newTotalRotation seven_names 1 0
        == SpinWheel64.Ac seven_names 1 + 360 * inject_Z k)%Q) /\
  ~ (exists k : Z,
       (SpinWheel64.newTotalRotation seven_names 1 0
        == (1 * (360 / 7) + (360 / 7) / 2) + 360 * inject_Z k)%Q).
Proof.
  assert (E1 : SpinWheel64.newTotalRotation seven_names 1 0
               = (8255761593700937 # 4398046511104)%Q) by (vm_compute; reflexivity).
  assert (E2 : SpinWheel64.Ac seven_names 1
               = (2714222989709897 # 35184372088832)%Q) by (vm_compute; reflexivity).
  rewrite E1, E2. split; [reflexivity|]. split; intros [k H].
  - unfold Qeq in H. cbn [Qnum Qden Qplus Qmult inject_Z] in H. lia.
  - assert (E3 : (1 * (360 / 7) + 360 / 7 / 2 == 540 # 7)%Q) by reflexivity.
    rewrite E3 in H.
    unfold Qeq in H. cbn [Qnum Qden Qplus Qmult inject_Z] in H. lia.
Qed.

(** Why the accumulated rotation is bounded above: at [2^60] degrees a
    double is a multiple of 256, the spin ends on an angle that [% 360]
    reduces to 24, and the pointer shows segment 0 instead of the
    winner's segment 1. *)
Lemma wheel64_far_rotation :
  let rest := JS.rem (SpinWheel64.newTotalRotation seven_names 1
                        (inject_Z (2 ^ 60))) 360 in
  (rest == 24)%Q /\
  (SpinWheel64.startAngle seven_names 0 <= rest)%Q /\
  (rest < SpinWheel64.endAngle seven_names 0)%Q.
Proof. vm_compute. repeat split; discriminate. Qed.

(** ** C2: the lane races *)

Section MarbleDurations.
Variable names : list string.
Variable winnerName : string.
Variable width : Q.
Variable random : nat -> Q.
Hypothesis random_range : forall k, (0 <= random k)%Q /\ (random k < 1)%Q.


Lemma setup_durations (l : list string) : forall i k,
  Forall (fair_duration winnerName) (MarbleRace.setup names winnerName width random l i k).
Proof.
  induction l as [|name rest IH]; intros i k; cbn [MarbleRace.setup].
  - constructor.
  - constructor; [|apply IH].
    unfold fair_duration. cbn [MarbleRace.isWinner MarbleRace.name MarbleRace.duration].
    split; [reflexivity|].
    destruct (String.eqb name winnerName).
    + unfold MarbleRace.BASE_DURATION. reflexivity.
    + unfold MarbleRace.BASE_DURATION. destruct (random_range k). lra.
Qed.

Lemma finished_iff (elapsed : Q) (m : MarbleRace.Marble) :
  (0 < MarbleRace.duration m)%Q ->
  MarbleRace.finished elapsed m = true <-> (MarbleRace.duration m <= elapsed)%Q.
Proof.
  intros Hd. unfold MarbleRace.finished, MarbleRace.progress, MarbleRace.Qmin.
  rewrite Qle_bool_iff.
  destruct (Qlt_le_dec 1 (elapsed / MarbleRace.duration m)) as [H|H].
  - split; [intros _|intros _; lra].
    apply Qlt_le_weak. apply (Qmult_lt_r _ _ (MarbleRace.duration m)) in H; [|exact Hd].
    rewrite Qmult_1_l in H.
    assert (E : (elapsed / MarbleRace.duration m * MarbleRace.duration m == elapsed)%Q)
      by (field; lra).
    rewrite E in H. exact H.
  - split; intros H1.
    + assert (E1 : (elapsed / MarbleRace.duration m == 1)%Q) by lra.
      assert (E : (elapsed / MarbleRace.duration m * MarbleRace.duration m == elapsed)%Q)
        by (field; lra).
      rewrite E1 in E. lra.
    + apply Qle_shift_div_l; [exact Hd|lra].
Qed.

(** Whenever a marble that is not the winner has finished, every
    marble carrying the winner's name has finished too; and from 3000 ms
    to 3500 ms only those have. *)
Lemma marble_winner_first (elapsed : Q) (w m : MarbleRace.Marble) :
  let marbles := MarbleRace.setup names winnerName width random names 0 0 in
  w ∈ marbles -> m ∈ marbles ->
  MarbleRace.isWinner w = true -> MarbleRace.isWinner m = false ->
  (MarbleRace.finished elapsed m = true -> MarbleRace.finished elapsed w = true) /\
  ((3000 <= elapsed)%Q -> MarbleRace.finished elapsed w = true) /\
  ((elapsed < 3500)%Q -> MarbleRace.finished elapsed m = false).
Proof.
  intros marbles Hw Hm Hiw Him.
  pose proof (setup_durations names 0 0) as Hall. fold marbles in Hall.
  rewrite Forall_forall in Hall.
  destruct (Hall w Hw) as [_ Hdw]. destruct (Hall m Hm) as [_ Hdm].
  rewrite Hiw in Hdw. rewrite Him in Hdm.
  assert (Hpw : (0 < MarbleRace.duration w)%Q) by lra.
  assert (Hpm : (0 < MarbleRace.duration m)%Q) by lra.
  repeat split.
  - rewrite !finished_iff by assumption. lra.
  - rewrite finished_iff by assumption. lra.
  - intros He. destruct (MarbleRace.finished elapsed m) eqn:E; [|reflexivity].
    apply finished_iff in E; [lra|assumption].
Qed.
End MarbleDurations.

Section DuckSpeeds.
Local Open Scope R_scope.
Variable names : list string.
Variable winnerName : string.
Variable width : R.
Variable random : nat -> R.

(** [setup] returns the maximum of [MIN_SPEED] and the base speeds of
    the ducks that are not the winner. *)
Lemma setup_max (l : list string) : forall i m0,
  let r := DuckRace.setup names winnerName width random l i m0 in
  m0 <= snd r /\
  Forall (fun d => DuckRace.isWinner d = false -> DuckRace.baseSpeed d <= snd r) (fst r).
Proof.
  induction l as [|name rest IH]; intros i m0; cbn [DuckRace.setup].
  - cbn. split; [lra|constructor].
  - cbv zeta.
    set (m1 := if String.eqb name winnerName then m0
               else Rmax m0 (random i * (DuckRace.MAX_SPEED - DuckRace.MIN_SPEED)
                             + DuckRace.MIN_SPEED)).
    specialize (IH (S i) m1). cbv zeta in IH.
    destruct (DuckRace.setup names winnerName width random rest (S i) m1) as [ds m].
    cbn [fst snd] in *. destruct IH as [Hm Hds].
    assert (Hm0 : m0 <= m1).
    { unfold m1. destruct (String.eqb name winnerName); [lra|apply Rmax_l]. }
    split; [lra|]. constructor; [|exact Hds].
    cbn [DuckRace.isWinner DuckRace.baseSpeed]. intros Hw.
    unfold m1 in Hm. rewrite Hw in Hm.
    eapply Rle_trans; [apply Rmax_r|exact Hm].
Qed.

(** Every winner starts at 1.15 times a speed that no other duck
    exceeds. *)
Lemma start_ducks_boost :
  exists maxNonWinnerSpeed,
    DuckRace.MIN_SPEED <= maxNonWinnerSpeed /\
    Forall (fun d =>
              if DuckRace.isWinner d
              then DuckRace.baseSpeed d = maxNonWinnerSpeed * DuckRace.WINNER_BOOST
              else DuckRace.baseSpeed d <= maxNonWinnerSpeed)
           (DuckRace.start_ducks names winnerName width random).
Proof.
  unfold DuckRace.start_ducks.
  pose proof (setup_max names 0 DuckRace.MIN_SPEED) as H. cbv zeta in H.
  destruct (DuckRace.setup names winnerName width random names 0 DuckRace.MIN_SPEED)
    as [ds m]. cbn [fst snd] in H. destruct H as [Hm Hds].
  exists m. split; [exact Hm|].
  apply Forall_fmap. eapply Forall_impl; [exact Hds|].
  intros d Hd. unfold compose. destruct (DuckRace.isWinner d) eqn:E.
  - cbn [DuckRace.set_baseSpeed DuckRace.isWinner DuckRace.baseSpeed].
    rewrite E. reflexivity.
  - rewrite E. apply Hd. exact E.
Qed.
End DuckSpeeds.

(** ** Bounds on [PI] and [sin] at the angles of the sample race *)

Section Trigonometry.
Local Open Scope R_scope.

(** Turns the factorials of a partial Taylor sum into integer literals. *)
Ltac series_constants :=
  rewrite !INR_IZR_INZ;
  repeat match goal with
  | |- context [Z.of_nat ?n] =>
      let z := eval vm_compute in (Z.of_nat n) in
      change (Z.of_nat n) with z
  end.

Lemma cos_155_pos : 0 < cos (155 / 100).
Proof.
  destruct (pre_cos_bound (155 / 100) 1) as [lo _]; [lra|lra|].
  eapply Rlt_le_trans; [|exact lo].
  unfold cos_approx, cos_term. cbn [sum_f_R0 Nat.mul Nat.add fact pow].
  series_constants. lra.
Qed.

Lemma cos_16_neg : cos (16 / 10) < 0.
Proof.
  destruct (pre_cos_bound (16 / 10) 0) as [_ hi]; [lra|lra|].
  eapply Rle_lt_trans; [exact hi|].
  unfold cos_approx, cos_term. cbn [sum_f_R0 Nat.mul Nat.add fact pow].
  series_constants. lra.
Qed.

Lemma PI_lower : 31 / 10 < PI.
Proof.
  assert (155 / 100 < PI / 2); [|lra].
  apply PI2_lower_bound; [lra|apply cos_155_pos].
Qed.

Lemma PI_upper : PI <= 32 / 10.
Proof.
  destruct (Rle_lt_dec PI (32 / 10)) as [H|H]; [exact H|exfalso].
  pose proof PI_RGT_0.
  pose proof (cos_gt_0 (16 / 10) ltac:(lra) ltac:(lra)).
  pose proof cos_16_neg. lra.
Qed.

(** [x - x^3/6 <= sin x] on [[0, 4]]. *)
Lemma sin_cubic (a : R) : 0 <= a -> a <= 4 -> a - a * a * a / 6 <= sin a.
Proof.
  intros H0 H4. destruct (pre_sin_bound a 0 H0 H4) as [lo _].
  eapply Rle_trans; [|exact lo].
  unfold sin_approx, sin_term. cbn [sum_f_R0 Nat.mul Nat.add fact pow].
  series_constants. lra.
Qed.

(** On [[lo, PI/2]] the sine is at least [lo - lo^3/6]. *)
Lemma sin_ge (lo u : R) :
  0 <= lo -> lo <= u -> u <= PI / 2 -> lo - lo * lo * lo / 6 <= sin u.
Proof.
  intros H0 H1 H2. pose proof PI_upper. pose proof PI_RGT_0.
  eapply Rle_trans; [apply sin_cubic; lra|].
  apply sin_incr_1; lra.
Qed.

(** The winner's wobble angle in the second frame: three half turns
    past an angle in [[1, PI/2]]. *)
Lemma sin_winner_angle : sin (1300 / 1000 + (140 / 3 * 1) / 5) <= - (8 / 10).
Proof.
  pose proof PI_lower. pose proof PI_upper.
  set (a := 1300 / 1000 + (140 / 3 * 1) / 5).
  replace a with ((a - 3 * PI) + PI + 2 * INR 1 * PI) by (cbn [INR]; ring).
  rewrite sin_period, neg_sin.
  pose proof (sin_ge 1 (a - 3 * PI)) as Hs.
  unfold a in *. lra.
Qed.

(** The other duck's angle: three full turns past an angle in
    [[3/4, PI/2]]. *)
Lemma sin_other_angle : 6 / 10 <= sin (1300 / 1000 + (140 / 3 * 2) / 5).
Proof.
  pose proof PI_lower. pose proof PI_upper.
  set (a := 1300 / 1000 + (140 / 3 * 2) / 5).
  replace a with ((a - 6 * PI) + 2 * INR 3 * PI) by (cbn [INR]; ring).
  rewrite sin_period.
  pose proof (sin_ge (3 / 4) (a - 6 * PI)) as Hs.
  unfold a in *. lra.
Qed.
End Trigonometry.

(** *** The duck race at the sample input *)




Section DuckKinematics.
Local Open Scope R_scope.
Variable width : R.

Lemma advance_short (t dt : R) (d : DuckRace.Duck) :
  DuckRace.x d < DuckRace.finishLineX width ->
  DuckRace.x d + DuckRace.baseSpeed d * (1 + DuckRace.wobble t d) * dt
    < DuckRace.finishLineX width ->
  DuckRace.advance width t dt d =
    DuckRace.set_x
      (DuckRace.x d + DuckRace.baseSpeed d * (1 + DuckRace.wobble t d) * dt) d.
Proof.
  intros Hx Hx'. unfold DuckRace.advance.
  destruct (Rlt_dec _ _) as [_|n]; [|contradiction].
  destruct (Rle_dec _ _) as [Hle|_]; [lra|reflexivity].
Qed.

Lemma advance_cross (t dt : R) (d : DuckRace.Duck) :
  DuckRace.x d < DuckRace.finishLineX width ->
  DuckRace.finishLineX width
    <= DuckRace.x d + DuckRace.baseSpeed d * (1 + DuckRace.wobble t d) * dt ->
  DuckRace.advance width t dt d = DuckRace.set_x (DuckRace.finishLineX width) d.
Proof.
  intros Hx Hx'. unfold DuckRace.advance.
  destruct (Rlt_dec _ _) as [_|n]; [|contradiction].
  destruct (Rle_dec _ _) as [_|n]; [reflexivity|contradiction].
Qed.

Lemma crossed_false (d : DuckRace.Duck) :
  DuckRace.x d < DuckRace.finishLineX width -> DuckRace.crossed width d = false.
Proof.
  intros H. unfold DuckRace.crossed. destruct (Rle_dec _ _); [lra|reflexivity].
Qed.

Lemma crossed_true (d : DuckRace.Duck) :
  DuckRace.finishLineX width <= DuckRace.x d -> DuckRace.crossed width d = true.
Proof.
  intros H. unfold DuckRace.crossed. destruct (Rle_dec _ _); [reflexivity|contradiction].
Qed.
End DuckKinematics.

Lemma duck_start :
  DuckRace.ducks (fst duck_started) =
    [ {| DuckRace.name := "A"; DuckRace.x := 50;
         DuckRace.y := (DuckRace.laneHeight duck_names duck_width * (INR 0 + 1))%R;
         DuckRace.baseSpeed := (Rmax 120 (0 * (200 - 120) + 120) * (115 / 100))%R;
         DuckRace.color := "#fb923c"; DuckRace.isWinner := true |};
      {| DuckRace.name := "B"; DuckRace.x := 50;
         DuckRace.y := (DuckRace.laneHeight duck_names duck_width * (INR 1 + 1))%R;
         DuckRace.baseSpeed := (0 * (200 - 120) + 120)%R;
         DuckRace.color := "#a78bfa"; DuckRace.isWinner := false |} ].
Proof. reflexivity. Qed.

Lemma animate_running (width ts : R) (s : DuckRace.Session) (h : Host.Host) :
  DuckRace.winnerDeclared s = false ->
  let unset := if Req_EM_T (DuckRace.startTimeRef s) 0 then true else false in
  let start := if unset then ts else DuckRace.startTimeRef s in
  let last := if unset then ts else DuckRace.lastTime s in
  let ds := map (DuckRace.advance width ts ((ts - last) / 1000)) (DuckRace.ducks s) in
  let s' := fst (DuckRace.animate width ts (s, h)) in
  DuckRace.ducks s' = ds /\
  DuckRace.startTimeRef s' = start /\
  DuckRace.lastTime s' = ts /\
  DuckRace.winnerDeclared s' =
    existsb (fun d => DuckRace.isWinner d && DuckRace.crossed width d) ds
    && (if Rle_dec 3 ((ts - start) / 1000) then true else false).
Proof.
  intros Hd. unfold DuckRace.animate. rewrite Hd. cbv zeta.
  destruct (Host.requestAnimationFrame _) as [id h']. repeat split.
Qed.

Section SampleRace.
Local Open Scope R_scope.

Lemma sample_finish : DuckRace.finishLineX duck_width = 12625 / 100.
Proof. unfold DuckRace.finishLineX, DuckRace.FINISH_BUFFER, duck_width. lra. Qed.

Lemma sample_lane : DuckRace.laneHeight duck_names duck_width = 140 / 3.
Proof.
  unfold DuckRace.laneHeight, DuckRace.height, DuckRace.numDucks, duck_width, Rmin.
  cbn [duck_names length INR].
  destruct (Rle_dec _ _); lra.
Qed.

Lemma sample_winner_speed : Rmax 120 (0 * (200 - 120) + 120) * (115 / 100) = 138.
Proof. unfold Rmax. destruct (Rle_dec _ _); lra. Qed.

(** C2.  The claim fails for the duck race.  Two ducks on a 175 px wide
    canvas, every [Math.random()] returning 0, frames at 700 ms and
    1300 ms: the winner A starts with 1.15 times the base speed of B, and
    after the second frame B is on the finish line while A is short of it.
    The wobble, up to 15% of the base speed either way and out of phase
    between lanes, has changed the finishing order.  (The marble race
    keeps it: [marble_winner_first].) *)
Theorem duck_nonwinner_finishes_first :
  exists a b : DuckRace.Duck,
    DuckRace.ducks (fst duck_two_frames) = [a; b] /\
    DuckRace.name a = "A" /\ DuckRace.isWinner a = true /\
    DuckRace.name b = "B" /\ DuckRace.isWinner b = false /\
    DuckRace.baseSpeed a = 115 / 100 * DuckRace.baseSpeed b /\
    DuckRace.x b = DuckRace.finishLineX duck_width /\
    DuckRace.x a < DuckRace.finishLineX duck_width /\
    DuckRace.crossed duck_width b = true /\
    DuckRace.crossed duck_width a = false.
Proof.
  unfold duck_two_frames.
  destruct duck_started as [s0 h0] eqn:E0.
  assert (Hs0 : s0 = fst duck_started) by (rewrite E0; reflexivity).
  assert (Hd0 : DuckRace.winnerDeclared s0 = false) by (rewrite Hs0; reflexivity).
  assert (Hst0 : DuckRace.startTimeRef s0 = 0) by (rewrite Hs0; reflexivity).
  pose proof duck_start as Hducks0. rewrite <- Hs0 in Hducks0.
  destruct (animate_running duck_width 700 s0 h0 Hd0) as (D1 & S1 & L1 & W1).
  destruct (DuckRace.animate duck_width 700 (s0, h0)) as [s1 h1].
  cbn [fst] in D1, S1, L1, W1.
  rewrite Hst0 in *. destruct (Req_EM_T 0 0) as [_|n]; [|contradiction].
  assert (Hw1 : DuckRace.winnerDeclared s1 = false).
  { rewrite W1. destruct (Rle_dec 3 ((700 - 700) / 1000)); [lra|].
    apply andb_false_r. }
  clear W1. rewrite Hducks0 in D1. cbn [map] in D1.
  pose proof sample_finish as Hfin. pose proof sample_lane as Hlane.
  pose proof sample_winner_speed as Hspeed.
  rewrite !advance_short in D1
    by (cbn [DuckRace.x DuckRace.baseSpeed]; rewrite Hfin; lra).
  unfold DuckRace.set_x in D1.
  cbn [DuckRace.x DuckRace.y DuckRace.baseSpeed DuckRace.name DuckRace.color
       DuckRace.isWinner] in D1.
  replace ((700 - 700) / 1000) with 0 in D1 by lra.
  rewrite !Rmult_0_r, !Rplus_0_r, Hspeed, Hlane in D1.
  replace (0 * (200 - 120) + 120) with 120 in D1 by lra.
  destruct (animate_running duck_width 1300 s1 h1 Hw1) as (D2 & _).
  destruct (DuckRace.animate duck_width 1300 (s1, h1)) as [s2 h2].
  cbn [fst] in D2 |- *.
  rewrite S1, L1 in D2. destruct (Req_EM_T 700 0) as [e|_]; [lra|].
  rewrite D1 in D2. cbn [map] in D2.
  pose proof sin_winner_angle as HsA. pose proof sin_other_angle as HsB.
  rewrite advance_short in D2.
  2:{ cbn [DuckRace.x]. rewrite Hfin. lra. }
  2:{ unfold DuckRace.wobble.
      cbn [DuckRace.x DuckRace.y DuckRace.baseSpeed INR]. rewrite Hfin.
      replace (140 / 3 * (0 + 1)) with (140 / 3 * 1) by lra.
      nra. }
  rewrite advance_cross in D2.
  2:{ cbn [DuckRace.x]. rewrite Hfin. lra. }
  2:{ unfold DuckRace.wobble.
      cbn [DuckRace.x DuckRace.y DuckRace.baseSpeed INR]. rewrite Hfin.
      replace (140 / 3 * (1 + 1)) with (140 / 3 * 2) by lra.
      nra. }
  assert (HxA : DuckRace.x (DuckRace.set_x
            (50 + 138 * (1 + sin (1300 / 1000 + 140 / 3 * 1 / 5) * (15 / 100))
                  * ((1300 - 700) / 1000))
            {| DuckRace.name := "A"; DuckRace.x := 50;
               DuckRace.y := 140 / 3 * (INR 0 + 1); DuckRace.baseSpeed := 138;
               DuckRace.color := "#fb923c"; DuckRace.isWinner := true |})
          < DuckRace.finishLineX duck_width).
  { cbn [DuckRace.set_x DuckRace.x]. rewrite Hfin. nra. }
  unfold DuckRace.wobble in D2.
  cbn [DuckRace.x DuckRace.y DuckRace.baseSpeed INR] in D2.
  replace (140 / 3 * (0 + 1)) with (140 / 3 * 1) in D2 by lra.
  eexists. eexists. split; [exact D2|].
  split; [reflexivity|]. split; [reflexivity|].
  split; [reflexivity|]. split; [reflexivity|].
  split; [cbn [DuckRace.set_x DuckRace.baseSpeed]; lra|].
  split; [reflexivity|].
  split; [exact HxA|].
  split; [apply crossed_true; cbn [DuckRace.set_x DuckRace.x]; lra|].
  apply crossed_false. exact HxA.
Qed.
End SampleRace.

(** ** Drawing from the pools *)

Lemma randomIndex_lt (r : Q) (len : nat) :
  (0 <= r)%Q -> (r < 1)%Q -> (0 < len)%nat -> (JS.randomIndex r len < len)%nat.
Proof.
  intros H0 H1 Hlen. unfold JS.randomIndex, JS.floor.
  set (n := inject_Z (Z.of_nat len)).
  assert (Hn : (0 < n)%Q).
  { unfold n. change 0%Q with (inject_Z 0). rewrite <- Zlt_Qlt. lia. }
  assert (Hlo : (0 <= Qfloor (r * n))%Z).
  { change 0%Z with (Qfloor 0). apply Qfloor_resp_le. nra. }
  assert (Hhi : (Qfloor (r * n) < Z.of_nat len)%Z).
  { rewrite Zlt_Qlt. eapply Qle_lt_trans; [apply Qfloor_le|]. fold n. nra. }
  lia.
Qed.

Lemma filter_lt_all (n : nat) (l : list nat) :
  Forall (fun i => (i < n)%nat) l -> filter (fun i => (i < n)%nat) l = l.
Proof.
  induction 1 as [|x l Hx _ IH]; [reflexivity|].
  rewrite filter_cons_True by exact Hx. by rewrite IH.
Qed.

Lemma length_eqb_0 {A} (l : list A) : l <> [] -> (length l =? 0)%nat = false.
Proof. destruct l; [congruence|reflexivity]. Qed.

Lemma selectNameIndex_draw st random s :
  isNameNoRepeat st = true ->
  let pool := filter (fun i => (i < length (names st))%nat) (availableNamesIndices st) in
  names st <> [] -> pool <> [] ->
  let j := JS.randomIndex (random (App.s_calls s)) (length pool) in
  App.selectNameIndex st random s =
    (pool !! j,
     {| App.s_state := assign (App.s_state s) (AvailableNamesIndices (delete j pool));
        App.s_isSpinning := App.s_isSpinning s;
        App.s_currentWinner := App.s_currentWinner s;
        App.s_resultCardText := App.s_resultCardText s;
        App.s_calls := S (App.s_calls s); App.s_effects := App.s_effects s |}).
Proof.
  intros Hnr pool Hnames Hpool j. unfold App.selectNameIndex.
  rewrite (length_eqb_0 _ Hnames), Hnr. fold pool.
  rewrite (length_eqb_0 _ Hpool). reflexivity.
Qed.

Lemma selectNameIndex_exhausted st random s :
  isNameNoRepeat st = true -> names st <> [] ->
  filter (fun i => (i < length (names st))%nat) (availableNamesIndices st) = [] ->
  App.selectNameIndex st random s =
    (None,
     {| App.s_state := assign (App.s_state s) (AvailableNamesIndices (JS.indices (names st)));
        App.s_isSpinning := App.s_isSpinning s;
        App.s_currentWinner := App.s_currentWinner s;
        App.s_resultCardText := App.s_resultCardText s;
        App.s_calls := App.s_calls s;
        App.s_effects := App.s_effects s ++ [App.Toast "All names drawn! Resetting list."] |}).
Proof.
  intros Hnr Hnames Hpool. unfold App.selectNameIndex.
  rewrite (length_eqb_0 _ Hnames), Hnr, Hpool. reflexivity.
Qed.

Lemma draw_names_invariant (random : nat -> Q) :
  (forall k, (0 <= random k)%Q /\ (random k < 1)%Q) ->
  forall (m : nat) (s : App.Store),
    isNameNoRepeat (App.s_state s) = true ->
    Forall (fun i => (i < length (names (App.s_state s)))%nat) (name_pool s) ->
    (m <= length (name_pool s))%nat ->
    exists order : list nat,
      fst (draw_names random m s) = map Some order /\
      length order = m /\
      order ++ name_pool (snd (draw_names random m s)) ≡ₚ name_pool s /\
      names (App.s_state (snd (draw_names random m s))) = names (App.s_state s).
Proof.
  intros Hr. induction m as [|m IH]; intros s Hnr Hall Hm.
  - exists []. simpl. auto.
  - assert (Hpool : name_pool s <> []).
    { destruct (name_pool s); [simpl in Hm; lia|congruence]. }
    assert (Hnames : names (App.s_state s) <> []).
    { intros E. destruct (name_pool s) as [|p ps]; [congruence|].
      apply Forall_cons in Hall as [Hp _]. rewrite E in Hp. simpl in Hp. lia. }
    pose proof (filter_lt_all _ _ Hall) as Hf. unfold name_pool in Hf, Hpool, Hm, Hall.
    pose proof (selectNameIndex_draw (App.s_state s) random s Hnr) as Hd.
    cbv zeta in Hd. rewrite Hf in Hd. specialize (Hd Hnames Hpool).
    set (pool := availableNamesIndices (App.s_state s)) in *.
    set (j := JS.randomIndex (random (App.s_calls s)) (length pool)) in *.
    assert (Hj : (j < length pool)%nat).
    { apply randomIndex_lt; try apply Hr. lia. }
    destruct (lookup_lt_is_Some_2 pool j Hj) as [i Hi].
    cbn [draw_names]. unfold draw_name. rewrite Hd.
    match goal with |- context [draw_names random m ?t] => set (s1 := t) end.
    destruct (IH s1) as (order & Ho & Hlen & Hperm & Hn).
    + exact Hnr.
    + unfold name_pool, s1. cbn [App.s_state assign availableNamesIndices names].
      apply Forall_delete. exact Hall.
    + unfold name_pool, s1. cbn [App.s_state assign availableNamesIndices].
      rewrite length_delete by eauto. lia.
    + exists (i :: order).
      destruct (draw_names random m s1) as [l s2] eqn:E.
      cbn [fst snd] in *. rewrite Hi, Ho. repeat split.
      * simpl. lia.
      * cbn [app]. rewrite Hperm. unfold name_pool, s1.
        cbn [App.s_state assign availableNamesIndices].
        symmetry. apply delete_Permutation. exact Hi.
      * rewrite Hn. reflexivity.
Qed.

Lemma indices_lookup {A} (l : list A) (j : nat) :
  (j < length l)%nat -> JS.indices l !! j = Some j.
Proof. intros H. unfold JS.indices. rewrite lookup_seq_lt by exact H. reflexivity. Qed.

Lemma indices_all_lt {A} (l : list A) :
  Forall (fun i => (i < length l)%nat) (JS.indices l).
Proof. unfold JS.indices. apply Forall_seq. intros; lia. Qed.

Lemma half_in_range (k : nat) : (0 <= 1 # 2)%Q /\ (1 # 2 < 1)%Q.
Proof. split; [discriminate|reflexivity]. Qed.

(** ** C3: no-repeat draws *)

(** C3.  With no-repeat on and a full pool over [n] names, [n] draws in a
    row, for any results of [Math.random()] in [[0,1)], select every index
    below [n] exactly once.  After [j <= n] draws the indices drawn so
    far, which do not repeat, and the pool together are the full range:
    each draw takes its own selection out of the pool and nothing else.
    After [n] draws the pool is empty. *)
Theorem no_repeat_draws_exhaust (st : AppState) (random : nat -> Q) :
  isNameNoRepeat st = true ->
  availableNamesIndices st = JS.indices (names st) ->
  (forall k, (0 <= random k)%Q /\ (random k < 1)%Q) ->
  let n := length (names st) in
  (forall j, (j <= n)%nat ->
     exists drawn : list nat,
       fst (draw_names random j (App.initial st)) = map Some drawn /\
       length drawn = j /\ NoDup drawn /\
       drawn ++ name_pool (snd (draw_names random j (App.initial st))) ≡ₚ seq 0 n) /\
  (exists order : list nat,
     fst (draw_names random n (App.initial st)) = map Some order /\
     order ≡ₚ seq 0 n /\
     name_pool (snd (draw_names random n (App.initial st))) = []).
Proof.
  intros Hnr Hfull Hr n.
  assert (Hinv : forall j, (j <= n)%nat ->
     exists drawn : list nat,
       fst (draw_names random j (App.initial st)) = map Some drawn /\
       length drawn = j /\ NoDup drawn /\
       drawn ++ name_pool (snd (draw_names random j (App.initial st))) ≡ₚ seq 0 n).
  { intros j Hj.
    destruct (draw_names_invariant random Hr j (App.initial st)) as (drawn & H1 & H2 & H3 & _).
    - exact Hnr.
    - unfold name_pool. cbn [App.initial App.s_state]. rewrite Hfull. apply indices_all_lt.
    - unfold name_pool. cbn [App.initial App.s_state]. rewrite Hfull.
      unfold JS.indices. rewrite length_seq. exact Hj.
    - exists drawn.
      assert (Hp : drawn ++ name_pool (snd (draw_names random j (App.initial st))) ≡ₚ seq 0 n).
      { rewrite H3. unfold name_pool. cbn [App.initial App.s_state]. rewrite Hfull.
        reflexivity. }
      repeat split; try assumption.
      assert (Hnd : NoDup (drawn ++ name_pool (snd (draw_names random j (App.initial st))))).
      { rewrite Hp. apply NoDup_seq. }
      apply NoDup_app in Hnd. tauto. }
  split; [exact Hinv|].
  destruct (Hinv n (Nat.le_refl n)) as (order & H1 & H2 & _ & H4).
  exists order. split; [exact H1|].
  assert (Hnil : name_pool (snd (draw_names random n (App.initial st))) = []).
  { apply nil_length_inv. apply Permutation_length in H4.
    rewrite length_app, length_seq in H4. lia. }
  rewrite Hnil, app_nil_r in H4. auto.
Qed.

Lemma no_repeat_draws_exhaust_witness :
  exists order : list nat,
    fst (draw_names (fun _ => 1 # 2) 6 (App.initial no_repeat_defaults)) = map Some order /\
    order ≡ₚ seq 0 6 /\
    name_pool (snd (draw_names (fun _ => 1 # 2) 6 (App.initial no_repeat_defaults))) = [].
Proof.
  apply (no_repeat_draws_exhaust no_repeat_defaults (fun _ => 1 # 2)).
  - reflexivity.
  - reflexivity.
  - apply half_in_range.
Defined.

Example draws_of_defaults :
  fst (draw_names (fun _ => 1 # 2) 7 (App.initial no_repeat_defaults))
    = [Some 3; Some 2; Some 4; Some 1; Some 5; Some 0; None]%nat.
Proof. vm_compute. reflexivity. Qed.

(** ** C4: the groups *)

Lemma assign_groups_length l : forall i k gs,
  length (App.assign_groups l i k gs) = length gs.
Proof.
  induction l as [|x l IH]; intros i k gs; [reflexivity|].
  cbn [App.assign_groups]. rewrite IH. apply length_alter.
Qed.

Lemma concat_alter_snoc (gs : list (list string)) (j : nat) (x : string) :
  (j < length gs)%nat ->
  concat (alter (fun g => g ++ [x]) j gs) ≡ₚ x :: concat gs.
Proof.
  revert j. induction gs as [|g gs IH]; intros j Hj; [simpl in Hj; lia|].
  destruct j as [|j]; cbn.
  - rewrite <- app_assoc. cbn. symmetry. apply Permutation_middle.
  - rewrite IH by (simpl in Hj; lia). symmetry. apply Permutation_middle.
Qed.

Lemma assign_groups_concat l : forall i k gs,
  (0 < k)%nat -> length gs = k ->
  concat (App.assign_groups l i k gs) ≡ₚ concat gs ++ l.
Proof.
  induction l as [|x l IH]; intros i k gs Hk Hlen.
  - cbn. by rewrite app_nil_r.
  - cbn [App.assign_groups]. rewrite IH; [|exact Hk|by rewrite length_alter].
    rewrite concat_alter_snoc.
    + cbn. apply Permutation_middle.
    + rewrite Hlen. apply Nat.mod_upper_bound. lia.
Qed.


Lemma succ_div_mod (i k : nat) :
  (0 < k)%nat ->
  ((i mod k + 1 < k)%nat /\ (S i mod k = i mod k + 1)%nat /\ (S i / k = i / k)%nat) \/
  ((i mod k + 1 = k)%nat /\ (S i mod k = 0)%nat /\ (S i / k = i / k + 1)%nat).
Proof.
  intros Hk.
  pose proof (Nat.div_mod_eq i k) as Hi.
  pose proof (Nat.mod_upper_bound i k ltac:(lia)) as Hr.
  destruct (decide (i mod k + 1 < k)%nat) as [Hlt|Hge].
  - left. split; [exact Hlt|].
    assert (E : S i = (i mod k + 1) + (i / k) * k) by lia.
    rewrite E. rewrite Nat.Div0.mod_add, Nat.div_add by lia.
    rewrite Nat.mod_small, Nat.div_small by lia. lia.
  - right. split; [lia|].
    assert (E : S i = 0 + (i / k + 1) * k) by lia.
    rewrite E. rewrite Nat.Div0.mod_add, Nat.div_add by lia.
    rewrite Nat.Div0.mod_0_l, Nat.Div0.div_0_l. lia.
Qed.

Lemma dealt_step (i k : nat) (gs : list (list string)) (x : string) :
  (0 < k)%nat -> length gs = k -> dealt i k gs ->
  dealt (S i) k (alter (fun g => g ++ [x]) (i mod k)%nat gs).
Proof.
  intros Hk Hlen Hd r g Hg.
  assert (Hr : (r < k)%nat).
  { rewrite <- Hlen, <- (length_alter (fun g => g ++ [x]) gs (i mod k)).
    eapply lookup_lt_Some; eauto. }
  destruct (decide (r = i mod k)%nat) as [->|Hne].
  - rewrite list_lookup_alter_eq in Hg.
    destruct (gs !! (i mod k)%nat) as [g0|] eqn:E; [|discriminate].
    cbn in Hg. injection Hg as <-.
    rewrite length_app, (Hd _ _ E). cbn [length].
    rewrite Nat.ltb_irrefl.
    destruct (succ_div_mod i k Hk) as [(H1 & H2 & H3)|(H1 & H2 & H3)];
      rewrite H2, H3.
    + replace (i mod k <? i mod k + 1)%nat with true
        by (symmetry; apply Nat.ltb_lt; lia). lia.
    + cbn. lia.
  - rewrite list_lookup_alter_ne in Hg by congruence.
    rewrite (Hd _ _ Hg).
    destruct (succ_div_mod i k Hk) as [(H1 & H2 & H3)|(H1 & H2 & H3)];
      rewrite H2, H3.
    + destruct (r <? i mod k)%nat eqn:E1, (r <? i mod k + 1)%nat eqn:E2;
        try reflexivity;
        [apply Nat.ltb_lt in E1; apply Nat.ltb_ge in E2; lia
        |apply Nat.ltb_ge in E1; apply Nat.ltb_lt in E2; lia].
    + replace (r <? i mod k)%nat with true
        by (symmetry; apply Nat.ltb_lt; lia).
      cbn. lia.
Qed.

Lemma assign_groups_dealt l : forall i k gs,
  (0 < k)%nat -> length gs = k -> dealt i k gs ->
  dealt (i + length l) k (App.assign_groups l i k gs).
Proof.
  induction l as [|x l IH]; intros i k gs Hk Hlen Hd.
  - cbn. by rewrite Nat.add_0_r.
  - cbn [App.assign_groups length].
    replace (i + S (length l))%nat with (S i + length l)%nat by lia.
    apply IH; [exact Hk|by rewrite length_alter|by apply dealt_step].
Qed.

Lemma dealt_balanced (i k : nat) (gs : list (list string)) :
  dealt i k gs ->
  forall g1 g2, g1 ∈ gs -> g2 ∈ gs -> (length g1 <= length g2 + 1)%nat.
Proof.
  intros Hd g1 g2 [r1 H1]%list_elem_of_lookup [r2 H2]%list_elem_of_lookup.
  rewrite (Hd _ _ H1), (Hd _ _ H2).
  destruct (r1 <? i mod k)%nat, (r2 <? i mod k)%nat; lia.
Qed.

Lemma dealt_start (k : nat) : dealt 0 k (replicate k []).
Proof.
  intros r g Hg. apply lookup_replicate in Hg as [-> _].
  rewrite Nat.Div0.div_0_l, Nat.Div0.mod_0_l. reflexivity.
Qed.

(** A name dealt at offset [j] of [l] ends in group [(i + j) mod k], and
    names already in a group stay there. *)
Lemma assign_groups_keeps l : forall i k gs r g x,
  gs !! r = Some g -> x ∈ g ->
  exists g', App.assign_groups l i k gs !! r = Some g' /\ x ∈ g'.
Proof.
  induction l as [|y l IH]; intros i k gs r g x Hg Hx; [eauto|].
  cbn [App.assign_groups].
  destruct (decide (r = i mod k)%nat) as [->|Hne].
  - eapply (IH _ _ _ _ (g ++ [y])).
    + rewrite list_lookup_alter_eq, Hg. reflexivity.
    + apply elem_of_app. by left.
  - eapply (IH _ _ _ _ g); [|exact Hx].
    by rewrite list_lookup_alter_ne.
Qed.

Lemma assign_groups_round_robin l : forall i k gs j x,
  (0 < k)%nat -> length gs = k -> l !! j = Some x ->
  exists g, App.assign_groups l i k gs !! ((i + j) mod k)%nat = Some g /\ x ∈ g.
Proof.
  induction l as [|y l IH]; intros i k gs j x Hk Hlen Hj; [discriminate|].
  cbn [App.assign_groups]. destruct j as [|j].
  - injection Hj as ->. rewrite Nat.add_0_r.
    assert (Hlt : (i mod k < length gs)%nat)
      by (rewrite Hlen; apply Nat.mod_upper_bound; lia).
    destruct (lookup_lt_is_Some_2 _ _ Hlt) as [g Hg].
    eapply (assign_groups_keeps _ _ _ _ _ (g ++ [x])).
    + rewrite list_lookup_alter_eq, Hg. reflexivity.
    + apply elem_of_app. right. by apply list_elem_of_singleton.
  - replace (i + S j)%nat with (S i + j)%nat by lia.
    apply IH; [exact Hk|by rewrite length_alter|exact Hj].
Qed.

Lemma run_sort_leaf t random : forall k, fst (run_sort t random k) ∈ leaves t.
Proof.
  induction t as [o|a IHa b IHb c IHc]; intros k; cbn [run_sort leaves].
  - apply list_elem_of_singleton. reflexivity.
  - destruct (comparator (random k) ?= 0)%Q;
      rewrite !elem_of_app; auto.
Qed.

Lemma at_index_seq (l : list string) :
  map (App.at_index l) (seq 0 (length l)) = l.
Proof.
  apply list_eq. intros i. rewrite list_lookup_fmap.
  destruct (decide (i < length l)%nat) as [Hlt|Hge].
  - rewrite lookup_seq_lt by exact Hlt. cbn.
    destruct (lookup_lt_is_Some_2 _ _ Hlt) as [x Hx].
    unfold App.at_index. rewrite Hx. reflexivity.
  - rewrite lookup_seq_ge by lia. rewrite lookup_ge_None_2 by lia. reflexivity.
Qed.

Lemma sort_random_shuffles st random engine s :
  Forall (fun order => order ≡ₚ seq 0 (length (names st)))
         (leaves (engine (length (names st)))) ->
  fst (App.sort_random random engine (names st) s) ≡ₚ names st.
Proof.
  intros Hvalid. unfold App.sort_random.
  pose proof (run_sort_leaf (engine (length (names st))) random (App.s_calls s)) as Hleaf.
  destruct (run_sort _ _ _) as [order k]. cbn [fst] in *.
  rewrite Forall_forall in Hvalid. rewrite (Hvalid _ Hleaf).
  by rewrite at_index_seq.
Qed.

Lemma insert_run_leaves (P : list nat -> Prop) x rev_left : forall right k,
  (forall l, l ≡ₚ x :: rev_left ++ right -> Forall P (leaves (k l))) ->
  Forall P (leaves (insert_run x rev_left right k)).
Proof.
  induction rev_left as [|y rl IH]; intros right k Hk; cbn [insert_run leaves].
  - apply Hk. reflexivity.
  - assert (Hstop : Forall P (leaves (k (rev rl ++ y :: x :: right)))).
    { apply Hk. rewrite <- (Permutation_rev rl).
      rewrite <- !Permutation_middle. cbn. apply perm_swap. }
    rewrite !Forall_app. repeat split; try exact Hstop.
    apply IH. intros l Hl. apply Hk. rewrite Hl.
    cbn. rewrite <- Permutation_middle. reflexivity.
Qed.

Lemma isort_run_leaves todo : forall done,
  Forall (fun order => order ≡ₚ done ++ todo) (leaves (isort_run todo done)).
Proof.
  induction todo as [|x t IH]; intros done; cbn [isort_run leaves].
  - rewrite app_nil_r. by repeat constructor.
  - apply insert_run_leaves. intros l Hl.
    eapply Forall_impl; [apply IH|]. cbn. intros order Ho.
    rewrite Ho, Hl, app_nil_r, <- (Permutation_rev done).
    cbn. apply Permutation_middle.
Qed.

Lemma insertion_engine_valid (n : nat) :
  Forall (fun order => order ≡ₚ seq 0 n) (leaves (insertion_engine n)).
Proof. apply (isort_run_leaves (seq 0 n) []). Qed.

(** C4.  In groups mode with [1 <= numGroups <= names.length], whatever
    order the engine's sort returns, as long as it is a permutation of the
    positions, the draw logs exactly [numGroups] groups; any two of them
    differ in size by at most one; together they hold the names of the
    list, each as often as the list does; and the name at position [i] of
    the shuffled copy is in group [i mod numGroups]. *)
Theorem group_partition_shape (s : App.Store) (random : nat -> Q)
    (engine : nat -> SortRun) (now : Z) (time : string) :
  let st := App.s_state s in
  let k := Z.to_nat (numGroups st) in
  mode st = groups ->
  (1 <= numGroups st)%Z -> (numGroups st <= Z.of_nat (length (names st)))%Z ->
  Forall (fun order => order ≡ₚ seq 0 (length (names st)))
         (leaves (engine (length (names st)))) ->
  exists shuffled gs,
    shuffled ≡ₚ names st /\
    gs = App.make_groups st shuffled /\
    history (App.s_state (click_draw random engine now time s)) =
      take 50 ({| h_id := now; h_result := App.join " | " (App.group_labels 0 gs);
                  h_mode := groups; h_timestamp := time; h_groups := Some gs |}
               :: history st) /\
    length gs = k /\
    (forall g1 g2, g1 ∈ gs -> g2 ∈ gs -> (length g1 <= length g2 + 1)%nat) /\
    concat gs ≡ₚ names st /\
    (forall i name, shuffled !! i = Some name ->
       exists g, gs !! (i mod k)%nat = Some g /\ name ∈ g).
Proof.
  intros st k Hm Hk1 Hk2 Hvalid.
  pose proof (sort_random_shuffles st random engine s Hvalid) as Hperm.
  assert (Hk : (0 < k)%nat) by (unfold k; lia).
  assert (Hn : names st <> []).
  { intros E. rewrite E in Hk2. cbn in Hk2. lia. }
  exists (fst (App.sort_random random engine (names st) s)).
  eexists. split; [exact Hperm|]. split; [reflexivity|].
  set (shuffled := fst (App.sort_random random engine (names st) s)) in *.
  split.
  { unfold click_draw, App.dispatch. fold st. unfold App.handleDraw, App.logHistory.
    rewrite (length_eqb_0 _ Hn), Hm.
    replace (numGroups st <=? 0)%Z with false by (symmetry; apply Z.leb_gt; lia).
    replace (Z.of_nat (length (names st)) <? numGroups st)%Z with false
      by (symmetry; apply Z.ltb_ge; lia).
    unfold App.bind at 1. unfold shuffled.
    destruct (App.sort_random random engine (names st) s) as [sh s1].
    cbn [fst]. reflexivity. }
  unfold App.make_groups. fold k.
  split; [by rewrite assign_groups_length, length_replicate|].
  split.
  { eapply dealt_balanced. apply (assign_groups_dealt shuffled 0 k);
      [exact Hk|apply length_replicate|apply dealt_start]. }
  split.
  { rewrite assign_groups_concat by (try exact Hk; apply length_replicate).
    rewrite <- Hperm.
    assert (Hc : concat (replicate k ([] : list string)) = []).
    { clear. induction k; [reflexivity|exact IHk]. }
    rewrite Hc. reflexivity. }
  intros i name Hi.
  apply (assign_groups_round_robin shuffled 0 k _ i name Hk (length_replicate _ _) Hi).
Qed.


Lemma group_partition_shape_witness :
  exists shuffled gs,
    shuffled ≡ₚ ["A"; "B"; "C"; "D"; "E"] /\
    gs = App.make_groups (App.s_state five_names_two_groups) shuffled /\
    h_groups <$> head (history (App.s_state
       (click_draw (fun _ => 1 # 4) insertion_engine 0 "" five_names_two_groups)))
      = Some (Some gs) /\
    length gs = 2%nat /\
    concat gs ≡ₚ ["A"; "B"; "C"; "D"; "E"].
Proof.
  destruct (group_partition_shape five_names_two_groups (fun _ => 1 # 4)
              insertion_engine 0 "")
    as (shuffled & gs & H1 & H2 & H3 & H4 & _ & H6 & _).
  - reflexivity.
  - cbn. lia.
  - cbn. lia.
  - apply insertion_engine_valid.
  - exists shuffled, gs. rewrite H3. auto.
Defined.

Example groups_of_five :
  h_groups <$> head (history (App.s_state
     (click_draw (fun _ => 1 # 4) insertion_engine 0 "" five_names_two_groups)))
  = Some (Some [["A"; "C"; "E"]; ["B"; "D"]]).
Proof. vm_compute. reflexivity. Qed.

(** ** C5: the shuffle behind the groups *)

Lemma pow2_mod3 (m : nat) :
  ((2 ^ Z.of_nat m) mod 3 = 1 \/ (2 ^ Z.of_nat m) mod 3 = 2)%Z.
Proof.
  induction m as [|m IH]; [left; reflexivity|].
  rewrite Nat2Z.inj_succ, Z.pow_succ_r by lia.
  rewrite Z.mul_mod by lia.
  destruct IH as [-> | ->]; [right|left]; reflexivity.
Qed.

Lemma fact_div3 (n : nat) : exists q : Z, Z.of_nat (fact (n + 3)) = (3 * q)%Z.
Proof.
  induction n as [|n [q Hq]]; [exists 2%Z; reflexivity|].
  exists (Z.of_nat (S (n + 3)) * q)%Z.
  change (S n + 3)%nat with (S (n + 3)).
  cbn [fact]. fold (fact (n + 3)).
  change (fact (n + 3) + (n + 3) * fact (n + 3))%nat with (S (n + 3) * fact (n + 3))%nat.
  rewrite Nat2Z.inj_mul, Hq. ring.
Qed.

(** Every outcome of the sort has a dyadic probability. *)
Lemma prob_dyadic (t : SortRun) (order : list nat) :
  exists (c : Z) (m : nat),
    (prob t order * inject_Z (2 ^ Z.of_nat m) == inject_Z c)%Q.
Proof.
  induction t as [o|a [ca [ma Ha]] b _ c [cc [mc Hc]]]; cbn [prob].
  - exists (if decide (o = order) then 1 else 0)%Z, 0%nat.
    destruct (decide (o = order)); reflexivity.
  - exists (ca * 2 ^ Z.of_nat mc + cc * 2 ^ Z.of_nat ma)%Z, (S (ma + mc))%nat.
    rewrite Nat2Z.inj_succ, Nat2Z.inj_add, Z.pow_succ_r, Z.pow_add_r by lia.
    rewrite inject_Z_plus, !inject_Z_mult, <- Ha, <- Hc.
    change (inject_Z 2) with 2%Q. ring.
Qed.

(** C5.  The claim fails.  For a list of [n + 3] names, whatever the
    engine's sort does with the signs of [Math.random() - 0.5], no order
    comes out with probability [1 / (n + 3)!]: every outcome has a
    probability that is a multiple of a power of 1/2, and the factorial
    has the factor 3.  The shuffled copy is never uniformly distributed. *)
Theorem sort_shuffle_never_uniform (t : SortRun) (order : list nat) (n : nat) :
  ~ (prob t order == 1 / inject_Z (Z.of_nat (fact (n + 3))))%Q.
Proof.
  intros Hu.
  destruct (prob_dyadic t order) as (c & m & Hd).
  destruct (fact_div3 n) as [q Hq].
  assert (Hpos : (0 < Z.of_nat (fact (n + 3)))%Z).
  { pose proof (lt_O_fact (n + 3)). lia. }
  rewrite Hq in Hu, Hpos.
  assert (HQ : (inject_Z (2 ^ Z.of_nat m) == inject_Z (c * (3 * q)))%Q).
  { rewrite inject_Z_mult, <- Hd, Hu. field.
    intros E. change 0%Q with (inject_Z 0) in E.
    apply (proj1 (inject_Z_injective _ _)) in E. lia. }
  apply (proj1 (inject_Z_injective _ _)) in HQ.
  destruct (pow2_mod3 m) as [H|H]; rewrite HQ in H;
    replace (c * (3 * q))%Z with ((c * q) * 3)%Z in H by ring;
    rewrite Z.mod_mul in H by lia; discriminate.
Qed.

(** With the sample engine the six orders of three names have
    probabilities 1/4, 1/4, 1/8, 1/8, 1/8 and 1/8. *)
Example insertion_engine_bias :
  (prob (insertion_engine 3) [0; 1; 2]%nat == 1 # 4)%Q /\
  (prob (insertion_engine 3) [1; 0; 2]%nat == 1 # 4)%Q /\
  (prob (insertion_engine 3) [1; 2; 0]%nat == 1 # 8)%Q /\
  (prob (insertion_engine 3) [0; 2; 1]%nat == 1 # 8)%Q /\
  (prob (insertion_engine 3) [2; 0; 1]%nat == 1 # 8)%Q /\
  (prob (insertion_engine 3) [2; 1; 0]%nat == 1 # 8)%Q.
Proof. repeat split. Qed.

(** ** C6: tearing a session down *)

(** A tick with no timer due and no frame requested only moves the clock. *)
Lemma tick_idle {C : Type} (fire : Host.Callback -> C * Host.Host -> C * Host.Host)
    (animate : Q -> C * Host.Host -> C * Host.Host) (t : Q) (c : C) (h : Host.Host) :
  Host.due_by t h = [] -> Host.frames h = [] ->
  Host.tick fire animate t (c, h) = (c, Host.set_clock t h).
Proof.
  intros Hd Hf. unfold Host.tick. cbn [snd]. rewrite Hd. cbn [fold_left fst snd].
  unfold Host.run_frame. cbn [snd Host.set_clock Host.frames]. rewrite Hf. reflexivity.
Qed.

(** What the wheel's cleanup leaves behind: nothing. *)
Lemma wheel_cancel_safe (names : list string) (winnerIndex : nat)
    (c : SpinWheel.Component) (h : Host.Host) (t1 t2 : Q) :
  Host.timers h = [] -> Host.frames h = [] -> (t1 < Host.clock h + 6000)%Q ->
  let started := SpinWheel.effect names (Some winnerIndex) true (c, h) in
  let cancelled := SpinWheel.cleanup (snd started) (SpinWheel.tick t1 (fst started)) in
  snd started = Host.ClearTimeout (Host.next_id h) /\
  Host.timers (snd cancelled) = [] /\
  Host.frames (snd cancelled) = [] /\
  Host.ended (snd (SpinWheel.tick t2 cancelled)) = Host.ended h.
Proof.
  intros Ht Hf Hlt. unfold SpinWheel.effect, Host.setTimeout. cbv zeta.
  cbn [fst snd]. rewrite Ht. cbn [app].
  assert (Hnd : Qle_bool (Host.clock h + 6000) t1 = false).
  { destruct (Qle_bool (Host.clock h + 6000) t1) eqn:E; [|reflexivity].
    apply Qle_bool_iff in E. lra. }
  unfold SpinWheel.tick. rewrite tick_idle; [| |exact Hf].
  2:{ unfold Host.due_by. cbn [Host.timers].
      rewrite filter_cons_False by (cbn [Host.due]; rewrite Hnd; discriminate).
      reflexivity. }
  unfold SpinWheel.cleanup, Host.cleanup, Host.clearTimeout.
  cbn [fst snd Host.set_clock Host.timers Host.frames Host.clock Host.next_id
       Host.ended Host.sounds].
  rewrite filter_cons_False by (cbn [Host.timer_id]; intros E; apply E; reflexivity).
  rewrite filter_nil.
  rewrite tick_idle; [|reflexivity|exact Hf].
  repeat split; assumption.
Qed.

Lemma tick_frame {C : Type} (fire : Host.Callback -> C * Host.Host -> C * Host.Host)
    (animate : Q -> C * Host.Host -> C * Host.Host) (t : Q) (c : C) (h : Host.Host) :
  Host.due_by t h = [] -> Host.frames h <> [] ->
  Host.tick fire animate t (c, h) = animate t (c, Host.drop_frames (Host.set_clock t h)).
Proof.
  intros Hd Hf. unfold Host.tick. cbn [snd]. rewrite Hd. cbn [fold_left fst snd].
  unfold Host.run_frame. cbn [snd fst Host.set_clock Host.frames].
  destruct (Host.frames h); [congruence|reflexivity].
Qed.

Lemma animate_host (width ts : R) (s : DuckRace.Session) (h : Host.Host) :
  DuckRace.winnerDeclared s = false ->
  let r := DuckRace.animate width ts (s, h) in
  let h' := if DuckRace.winnerDeclared (fst r)
            then snd (Host.setTimeout Host.RaceEnd 2000 (Host.playDrawSound h))
            else h in
  snd r = snd (Host.requestAnimationFrame h') /\
  DuckRace.requestRef (fst r) = Some (fst (Host.requestAnimationFrame h')).
Proof.
  intros Hd. unfold DuckRace.animate. rewrite Hd. cbv zeta.
  match goal with
  | |- context [if (existsb ?f ?l && ?b) then _ else _] =>
      destruct (existsb f l && b)
  end; split; reflexivity.
Qed.

Section DuckTeardown.
Local Open Scope R_scope.

Lemma wobble_bounds (t : R) (d : DuckRace.Duck) :
  - (15 / 100) <= DuckRace.wobble t d <= 15 / 100.
Proof. unfold DuckRace.wobble. pose proof (SIN_bound (t / 1000 + DuckRace.y d / 5)). lra. Qed.

Lemma Q2R_whole (z : Z) : Q2R (inject_Z z) = IZR z.
Proof. unfold Q2R, inject_Z. cbn [Qnum Qden]. field. Qed.
End DuckTeardown.

Lemma duck_cancelled_host :
  Host.frames (snd duck_cancelled) = [] /\
  map Host.callback (Host.timers (snd duck_cancelled)) = [Host.RaceEnd] /\
  Host.ended (snd duck_cancelled) = 0%nat /\
  Host.ended (snd (duck_tick 62700 duck_cancelled)) = 1%nat.
Proof.
  unfold duck_cancelled, duck_tick, DuckRace.tick.
  destruct duck_started as [s0 h0] eqn:E0.
  assert (Hs0 : s0 = fst duck_started) by (rewrite E0; reflexivity).
  assert (Hh0 : h0 = snd duck_started) by (rewrite E0; reflexivity).
  assert (Hd0 : DuckRace.winnerDeclared s0 = false) by (rewrite Hs0; reflexivity).
  assert (Hst0 : DuckRace.startTimeRef s0 = 0%R) by (rewrite Hs0; reflexivity).
  pose proof duck_start as Hducks0. rewrite <- Hs0 in Hducks0.
  vm_compute in Hh0. subst h0.
  rewrite tick_frame by (try reflexivity; discriminate).
  change 700%Q with (inject_Z 700). rewrite Q2R_whole.
  match goal with |- context [DuckRace.animate _ _ (s0, ?h)] => set (h0 := h) end.
  vm_compute in h0.
  (* first frame: nobody moves *)
  destruct (animate_running duck_width 700 s0 h0 Hd0) as (D1 & S1 & L1 & W1).
  destruct (animate_host duck_width 700 s0 h0 Hd0) as (H1 & _).
  destruct (DuckRace.animate duck_width 700 (s0, h0)) as [s1 h1].
  cbn [fst snd] in D1, S1, L1, W1, H1.
  rewrite Hst0 in *. destruct (Req_EM_T 0 0) as [_|n]; [|contradiction].
  assert (Hw1 : DuckRace.winnerDeclared s1 = false).
  { rewrite W1. destruct (Rle_dec 3 ((700 - 700) / 1000)); [lra|].
    apply andb_false_r. }
  clear W1. rewrite Hw1 in H1. vm_compute in H1. subst h1.
  rewrite Hducks0 in D1. cbn [map] in D1.
  pose proof sample_finish as Hfin.
  rewrite !advance_short in D1
    by (cbn [DuckRace.x DuckRace.baseSpeed]; rewrite Hfin; lra).
  unfold DuckRace.set_x in D1.
  cbn [DuckRace.x DuckRace.y DuckRace.baseSpeed DuckRace.name DuckRace.color
       DuckRace.isWinner] in D1.
  replace ((700 - 700) / 1000)%R with 0%R in D1 by lra.
  rewrite !Rmult_0_r, !Rplus_0_r, sample_winner_speed in D1.
  replace (0 * (200 - 120) + 120)%R with 120%R in D1 by lra.
  (* second frame, a minute later: both ducks are on the line *)
  rewrite tick_frame by (try reflexivity; discriminate).
  change 60700%Q with (inject_Z 60700). rewrite Q2R_whole.
  match goal with |- context [DuckRace.animate _ _ (s1, ?h)] => set (h1 := h) end.
  vm_compute in h1.
  destruct (animate_running duck_width 60700 s1 h1 Hw1) as (D2 & S2 & _ & W2).
  destruct (animate_host duck_width 60700 s1 h1 Hw1) as (H2 & R2).
  destruct (DuckRace.animate duck_width 60700 (s1, h1)) as [s2 h2].
  cbn [fst snd] in D2, S2, W2, H2, R2.
  rewrite S1, L1 in *. destruct (Req_EM_T 700 0) as [e|_]; [lra|].
  rewrite D1 in W2. cbn [map] in W2.
  rewrite !advance_cross in W2
    by (cbn [DuckRace.x DuckRace.baseSpeed]; rewrite Hfin;
        first [lra|
         match goal with
         | |- context [DuckRace.wobble ?t ?d] =>
             pose proof (wobble_bounds t d); nra
         end]).
  cbn [existsb DuckRace.set_x DuckRace.isWinner andb] in W2.
  rewrite crossed_true in W2 by (cbn [DuckRace.x DuckRace.set_x]; lra).
  destruct (Rle_dec 3 ((60700 - 700) / 1000)) as [_|n]; [|lra].
  cbn [andb orb] in W2.
  rewrite W2 in H2, R2. vm_compute in H2. subst h2.
  assert (R2' : DuckRace.requestRef s2 = Some 4%nat) by exact R2.
  (* teardown, then the timer *)
  unfold DuckRace.cleanup, Host.cleanup. cbn [fst snd]. rewrite R2'.
  match goal with |- context [Host.cancelAnimationFrame ?i ?h] =>
    set (h3 := Host.cancelAnimationFrame i h) end.
  vm_compute in h3.
  split; [reflexivity|]. split; [reflexivity|]. split; [reflexivity|].
  unfold Host.tick. cbn [snd].
  set (l := Host.due_by 62700 h3). vm_compute in l. subst l.
  cbn [fold_left]. unfold Host.fire_timer at 1. cbn [snd fst].
  set (b := existsb _ _). vm_compute in b. subst b. cbv iota.
  unfold DuckRace.fire. cbn [Host.callback fst snd].
  unfold Host.run_frame. cbn [fst snd]. reflexivity.
Qed.

(** C6.  The claim fails: tearing a session down does not stop its
    completion callback in three of the four components.  CardDraw's effect
    returns no
    cleanup: torn down one second after the start, its three timers stay
    pending and [onEnd] runs at 5000 ms.  The cleanup of MarbleRace and of
    DuckRace cancels the requested frame and leaves the 2000 ms timer
    alone: torn down while the winner is shown, [onRaceEnd] still runs.
    (SpinWheel clears its timer: [wheel_cancel_safe].) *)
Theorem cancelled_sessions_still_complete :
  (snd card_started = Host.NoCleanup /\
   map Host.callback (Host.timers (snd card_cancelled))
     = [Host.ToPicking; Host.ToRevealed; Host.CardEnd] /\
   Host.ended (snd card_cancelled) = 0%nat /\
   Host.ended (snd (CardDraw.tick 5000 card_cancelled)) = 1%nat) /\
  (snd marble_started = Host.CancelRequestedFrame /\
   Host.frames (snd marble_cancelled) = [] /\
   map Host.callback (Host.timers (snd marble_cancelled)) = [Host.RaceEnd] /\
   Host.ended (snd marble_cancelled) = 0%nat /\
   Host.ended (snd (marble_tick 5600 marble_cancelled)) = 1%nat) /\
  (snd (DuckRace.effect duck_names "A" duck_width (fun _ => 0%R) true
          (DuckRace.mount, Host.boot)) = Host.CancelRequestedFrame /\
   Host.frames (snd duck_cancelled) = [] /\
   map Host.callback (Host.timers (snd duck_cancelled)) = [Host.RaceEnd] /\
   Host.ended (snd duck_cancelled) = 0%nat /\
   Host.ended (snd (duck_tick 62700 duck_cancelled)) = 1%nat).
Proof.
  split; [vm_compute; repeat split|].
  split; [vm_compute; repeat split|].
  split; [reflexivity|].
  exact duck_cancelled_host.
Qed.

(** ** C7: an exhausted pool *)

Lemma selectNameIndex_select st random s :
  names st <> [] -> name_candidates st <> [] ->
  let pool := name_candidates st in
  let j := JS.randomIndex (random (App.s_calls s)) (length pool) in
  App.selectNameIndex st random s =
    (pool !! j,
     with_state (fun p => if isNameNoRepeat st
                          then assign p (AvailableNamesIndices (delete j pool)) else p)
       (S (App.s_calls s)) s).
Proof.
  intros Hnames Hpool pool j. unfold App.selectNameIndex.
  rewrite (length_eqb_0 _ Hnames). cbv zeta.
  change (filter _ (if isNameNoRepeat st then _ else _)) with pool.
  rewrite (length_eqb_0 pool Hpool), andb_false_r.
  unfold with_state. destruct (isNameNoRepeat st); reflexivity.
Qed.

Lemma candidates_nonempty_names st : name_candidates st <> [] -> names st <> [].
Proof.
  unfold name_candidates. intros H E. apply H. clear H. rewrite E. simpl.
  destruct (isNameNoRepeat st); [|reflexivity].
  induction (availableNamesIndices st) as [|x l IH]; [reflexivity|].
  rewrite filter_cons_False by lia. exact IH.
Qed.

Lemma selectTask_exhausted st random s :
  isTaskNoRepeat st = true -> tasks st <> [] -> task_candidates st = [] ->
  let pool := JS.indices (tasks st) in
  let j := JS.randomIndex (random (App.s_calls s)) (length pool) in
  App.selectTask st random s =
    (default "undefined" (pool !! j ≫= fun i => tasks st !! i),
     {| App.s_state :=
          assign (assign (App.s_state s) (AvailableTasksIndices pool))
                 (AvailableTasksIndices (delete j pool));
        App.s_isSpinning := App.s_isSpinning s;
        App.s_currentWinner := App.s_currentWinner s;
        App.s_resultCardText := App.s_resultCardText s;
        App.s_calls := S (App.s_calls s);
        App.s_effects := App.s_effects s ++ [App.Toast "All tasks assigned! Resetting task list."] |}).
Proof.
  intros Hnr Htasks Hpool pool j. unfold App.selectTask.
  rewrite (length_eqb_0 _ Htasks), Hnr.
  unfold task_candidates in Hpool. rewrite Hnr in Hpool. rewrite Hpool.
  reflexivity.
Qed.

Lemma handleDraw_names_exhausted st sp random engine now time s :
  names st <> [] -> isNameNoRepeat st = true -> name_candidates st = [] ->
  mode st = single \/ mode st = paired \/
    (mode st = interactive /\ (2 <= length (names st))%nat /\ sp = false) ->
  App.handleDraw st sp random engine now time s =
    (tt, snd (App.selectNameIndex st random s)).
Proof.
  intros Hn Hnr Hc Hm. unfold App.handleDraw.
  rewrite (length_eqb_0 _ Hn).
  unfold name_candidates in Hc. rewrite Hnr in Hc.
  destruct Hm as [-> | [-> | (-> & Hlen & ->)]]; unfold App.bind;
    try (replace (length (names st) <? 2)%nat with false
           by (symmetry; apply Nat.ltb_ge; exact Hlen));
    rewrite (selectNameIndex_exhausted st random s Hnr Hn Hc); reflexivity.
Qed.

Lemma handleDraw_paired_task_exhausted st sp random engine now time s :
  mode st = paired -> name_candidates st <> [] -> tasks st <> [] ->
  isTaskNoRepeat st = true -> task_candidates st = [] ->
  (forall k, (0 <= random k)%Q /\ (random k < 1)%Q) ->
  let jn := JS.randomIndex (random (App.s_calls s)) (length (name_candidates st)) in
  let jt := JS.randomIndex (random (S (App.s_calls s))) (length (tasks st)) in
  exists idx task s',
    name_candidates st !! jn = Some idx /\
    tasks st !! jt = Some task /\
    App.handleDraw st sp random engine now time s = (tt, s') /\
    availableTasksIndices (App.s_state s') = delete jt (JS.indices (tasks st)) /\
    history (App.s_state s') =
      take 50 ({| h_id := now;
                  h_result := (App.at_index (names st) idx ++ " is assigned to: " ++ task)%string;
                  h_mode := paired; h_timestamp := time; h_groups := None |}
               :: history st) /\
    App.s_resultCardText s' =
      (App.at_index (names st) idx ++ " is assigned to: " ++ task)%string.
Proof.
  intros Hm Hc Ht Hnr Htc Hr jn jt.
  pose proof (candidates_nonempty_names st Hc) as Hn.
  assert (Hjn : (jn < length (name_candidates st))%nat).
  { apply randomIndex_lt; try apply Hr. destruct (name_candidates st); [congruence|simpl; lia]. }
  assert (Hjt : (jt < length (tasks st))%nat).
  { apply randomIndex_lt; try apply Hr. destruct (tasks st); [congruence|simpl; lia]. }
  destruct (lookup_lt_is_Some_2 _ _ Hjn) as [idx Hidx].
  destruct (lookup_lt_is_Some_2 _ _ Hjt) as [task Htask].
  exists idx, task. eexists. split; [exact Hidx|]. split; [exact Htask|].
  unfold App.handleDraw. rewrite (length_eqb_0 _ Hn), Hm.
  unfold App.bind at 1.
  rewrite (selectNameIndex_select st random s Hn Hc). cbv zeta. fold jn. rewrite Hidx.
  rewrite (length_eqb_0 _ Ht).
  unfold App.bind at 1.
  rewrite selectTask_exhausted by assumption. cbv zeta.
  cbn [with_state App.s_calls].
  replace (length (JS.indices (tasks st))) with (length (tasks st))
    by (unfold JS.indices; rewrite length_seq; reflexivity).
  fold jt. rewrite (indices_lookup _ _ Hjt). cbn [mbind option_bind]. rewrite Htask.
  cbn [default].
  split; [reflexivity|].
  rewrite Hm. repeat split.
Qed.

(** C7.  A draw (single, paired, or interactive with two names or more and
    no session running) on a store whose no-repeat name pool holds no
    valid index resets the pool to the full range, shows the toast, makes
    no call of [Math.random()] and logs nothing: the state it leaves is
    the one [selectNameIndex] leaves when it returns [null].  A paired
    draw on a store whose no-repeat task pool holds no valid index draws
    the task from the full range in the same call, leaves the full range
    without that position as the task pool, and logs the pair. *)
Theorem pool_exhaustion_asymmetry
    (sN sT : App.Store) (random : nat -> Q) (engine : nat -> SortRun)
    (now : Z) (time : string) :
  let stN := App.s_state sN in
  let stT := App.s_state sT in
  names stN <> [] -> isNameNoRepeat stN = true -> name_candidates stN = [] ->
  mode stN = single \/ mode stN = paired \/
    (mode stN = interactive /\ (2 <= length (names stN))%nat /\
     App.s_isSpinning sN = false) ->
  mode stT = paired -> name_candidates stT <> [] -> tasks stT <> [] ->
  isTaskNoRepeat stT = true -> task_candidates stT = [] ->
  (forall k, (0 <= random k)%Q /\ (random k < 1)%Q) ->
  (let sN' := click_draw random engine now time sN in
   fst (App.selectNameIndex stN random sN) = None /\
   sN' = snd (App.selectNameIndex stN random sN) /\
   availableNamesIndices (App.s_state sN') = JS.indices (names stN) /\
   history (App.s_state sN') = history stN /\
   App.s_calls sN' = App.s_calls sN /\
   App.s_resultCardText sN' = App.s_resultCardText sN /\
   App.s_currentWinner sN' = App.s_currentWinner sN /\
   App.s_isSpinning sN' = App.s_isSpinning sN /\
   App.s_effects sN' =
     App.s_effects sN ++ [App.Toast "All names drawn! Resetting list."]) /\
  (let sT' := click_draw random engine now time sT in
   let jn := JS.randomIndex (random (App.s_calls sT)) (length (name_candidates stT)) in
   let jt := JS.randomIndex (random (S (App.s_calls sT))) (length (tasks stT)) in
   exists idx task,
     name_candidates stT !! jn = Some idx /\
     tasks stT !! jt = Some task /\
     availableTasksIndices (App.s_state sT') = delete jt (JS.indices (tasks stT)) /\
     history (App.s_state sT') =
       take 50 ({| h_id := now;
                   h_result := (App.at_index (names stT) idx ++ " is assigned to: " ++ task)%string;
                   h_mode := paired; h_timestamp := time; h_groups := None |}
                :: history stT) /\
     App.s_resultCardText sT' =
       (App.at_index (names stT) idx ++ " is assigned to: " ++ task)%string).
Proof.
  intros stN stT HnN HnrN HcN HmN HmT HcT HtT HnrT HtcT Hr. split.
  - unfold click_draw, App.dispatch. fold stN.
    rewrite (handleDraw_names_exhausted stN _ random engine now time sN HnN HnrN HcN HmN).
    unfold name_candidates in HcN. rewrite HnrN in HcN.
    rewrite (selectNameIndex_exhausted stN random sN HnrN HnN HcN).
    cbn [fst snd App.s_state App.s_calls App.s_resultCardText App.s_effects
         App.s_currentWinner App.s_isSpinning].
    repeat split.
  - cbv zeta. unfold click_draw, App.dispatch. fold stT.
    destruct (handleDraw_paired_task_exhausted stT (App.s_isSpinning sT) random engine
                now time sT HmT HcT HtT HnrT HtcT Hr)
      as (idx & task & s' & H1 & H2 & H3 & H4 & H5 & H6).
    exists idx, task. rewrite H3. cbn [snd]. auto.
Qed.

Lemma pool_exhaustion_asymmetry_witness :
  availableNamesIndices
    (App.s_state (click_draw (fun _ => 1 # 2) insertion_engine 0 "" exhausted_names))
    = [0; 1; 2]%nat /\
  history (App.s_state (click_draw (fun _ => 1 # 2) insertion_engine 0 "" exhausted_names))
    = [] /\
  exists idx task,
    map h_result
      (history (App.s_state (click_draw (fun _ => 1 # 2) insertion_engine 0 "" exhausted_tasks)))
    = [(App.at_index ["A"; "B"; "C"] idx ++ " is assigned to: " ++ task)%string].
Proof.
  destruct (pool_exhaustion_asymmetry exhausted_names exhausted_tasks
              (fun _ => 1 # 2) insertion_engine 0 "")
    as [(_ & _ & Hp & Hh & _) (idx & task & _ & _ & _ & Hh2 & _)];
    try reflexivity; try discriminate.
  - left; reflexivity.
  - apply half_in_range.
  - split; [exact Hp|]. split; [exact Hh|].
    exists idx, task. rewrite Hh2. reflexivity.
Defined.

(** ** C8: a paired draw without tasks *)

(** C8.  The claim fails when no-repeat is on.  With names [[A]], no
    tasks, paired mode and the pool [[0]], the draw shows "Add tasks for
    paired mode." and logs nothing, but [selectNameIndex] has already run:
    index 0 is gone from the pool, and the next attempt reports that all
    names were drawn although none was. *)
Theorem paired_without_tasks_consumes_name :
  let s0 := one_name_no_tasks in
  let s1 := click_draw (fun _ => 0%Q) insertion_engine 0 "" s0 in
  let s2 := click_draw (fun _ => 0%Q) insertion_engine 0 "" s1 in
  history (App.s_state s1) = [] /\
  App.s_effects s1 = [App.Toast "Add tasks for paired mode."] /\
  availableNamesIndices (App.s_state s0) = [0]%nat /\
  availableNamesIndices (App.s_state s1) = [] /\
  App.s_state s1 <> App.s_state s0 /\
  App.s_effects s2 =
    [App.Toast "Add tasks for paired mode."; App.Toast "All names drawn! Resetting list."].
Proof.
  cbv zeta. repeat split; try reflexivity. discriminate.
Qed.

(** What does hold: the failed attempt never touches the history, and
    with no-repeat off it leaves the whole state alone. *)
Lemma paired_without_tasks_logs_nothing st sp random engine now time s :
  mode st = paired -> tasks st = [] ->
  history (App.s_state (snd (App.handleDraw st sp random engine now time s)))
    = history (App.s_state s) /\
  (isNameNoRepeat st = false ->
   App.s_state (snd (App.handleDraw st sp random engine now time s)) = App.s_state s).
Proof.
  intros Hm Ht. unfold App.handleDraw. rewrite Hm, Ht.
  destruct (length (names st) =? 0)%nat eqn:En; [split; reflexivity|].
  unfold App.bind.
  destruct (App.selectNameIndex st random s) as [idx s1] eqn:Es.
  assert (Hs1 : history (App.s_state s1) = history (App.s_state s) /\
                (isNameNoRepeat st = false -> App.s_state s1 = App.s_state s)).
  { assert (Hn : names st <> []) by (intros E; rewrite E in En; discriminate).
    destruct (decide (name_candidates st = [])) as [Hc|Hc].
    - destruct (isNameNoRepeat st) eqn:Hnr.
      + unfold name_candidates in Hc. rewrite Hnr in Hc.
        rewrite (selectNameIndex_exhausted st random s Hnr Hn Hc) in Es.
        injection Es as _ <-. split; [reflexivity|discriminate].
      + exfalso. unfold name_candidates in Hc. rewrite Hnr in Hc.
        rewrite (filter_lt_all _ _ (indices_all_lt _)) in Hc.
        unfold JS.indices in Hc. destruct (names st); [congruence|discriminate].
    - rewrite (selectNameIndex_select st random s Hn Hc) in Es.
      injection Es as _ <-. unfold with_state. cbn [App.s_state].
      destruct (isNameNoRepeat st); split; try reflexivity; discriminate. }
  destruct idx; cbn; exact Hs1.
Qed.

(** ** C9: the history log *)

Lemma log_one_history s r :
  history (App.s_state (log_one s r)) =
    take 50 (entry_of (mode (App.s_state s)) r :: history (App.s_state s)).
Proof. reflexivity. Qed.

Lemma log_one_mode s r : mode (App.s_state (log_one s r)) = mode (App.s_state s).
Proof. reflexivity. Qed.

Lemma append_all_history reqs : forall s,
  (length (history (App.s_state s)) <= 50)%nat ->
  history (App.s_state (append_all reqs s)) =
    take 50 (rev (map (entry_of (mode (App.s_state s))) reqs) ++ history (App.s_state s)).
Proof.
  induction reqs as [|r reqs IH]; intros s Hlen.
  - cbn [append_all fold_left map rev app]. symmetry. apply take_ge. exact Hlen.
  - cbn [append_all fold_left]. fold (append_all reqs (log_one s r)).
    rewrite IH.
    + rewrite log_one_mode, log_one_history.
      cbn [map rev]. rewrite <- app_assoc. cbn [app].
      set (es := rev (map (entry_of (mode (App.s_state s))) reqs)).
      set (e := entry_of (mode (App.s_state s)) r).
      set (old := history (App.s_state s)).
      destruct (decide (length es < 50)%nat) as [Hlt|Hge].
      * rewrite !take_app_ge by lia. f_equal.
        rewrite take_take. f_equal. lia.
      * rewrite !take_app_le by lia. reflexivity.
    + rewrite log_one_history. rewrite length_take. lia.
Qed.

(** C9.  [logHistory] sets the log to the new entry followed by the old
    log, cut to its first 50 entries; the entry records the clock, the
    result and the mode as given and the kept entries are the old ones,
    unchanged and in order.  Appending 51 entries to an empty log, one per
    render, leaves 50 entries, the 51st first and the 2nd last. *)
Theorem history_log_truncation (st : AppState) (reqs : list LogRequest) :
  history st = [] -> length reqs = 51%nat ->
  (forall st' now time res g s,
     history (App.s_state (snd (App.logHistory st' now time res g s))) =
       take 50 ({| h_id := now; h_result := res; h_mode := mode st';
                   h_timestamp := time; h_groups := g |} :: history st')) /\
  (let e := entry_of (mode st) in
   let log := history (App.s_state (append_all reqs (App.initial st))) in
   log = take 50 (rev (map e reqs)) /\
   length log = 50%nat /\
   head log = e <$> last reqs /\
   last log = e <$> reqs !! 1%nat).
Proof.
  intros Hh Hlen. split; [reflexivity|].
  intros e log.
  assert (Hlog : log = take 50 (rev (map e reqs))).
  { unfold log. rewrite append_all_history.
    - cbn [App.initial App.s_state]. rewrite Hh, app_nil_r. reflexivity.
    - cbn [App.initial App.s_state]. rewrite Hh. simpl. lia. }
  split; [exact Hlog|].
  do 52 (destruct reqs as [|? reqs]; try discriminate Hlen).
  rewrite Hlog. repeat split.
Qed.

Lemma history_log_truncation_witness :
  let log :=
    history (App.s_state (append_all fifty_one_requests (App.initial DEFAULT_STATE))) in
  length log = 50%nat /\
  h_result <$> head log = Some "51" /\
  h_result <$> last log = Some "2".
Proof.
  destruct (history_log_truncation DEFAULT_STATE fifty_one_requests)
    as (_ & _ & Hlen & Hhead & Hlast).
  - reflexivity.
  - reflexivity.
  - cbv zeta. rewrite Hlen, Hhead, Hlast. repeat split.
Defined.

(** ** C10: list edits and the pools *)

(** C10, as stated, fails: with no-repeat on and only index 1 left in the
    pool of two names, clicking the checkbox switches no-repeat off and
    leaves the pool at [[1]], not at [[0; 1]]. *)
Lemma toggle_off_keeps_pool :
  isNameNoRepeat (App.s_state (click_name_toggle half_drawn)) = false /\
  availableNamesIndices (App.s_state (click_name_toggle half_drawn)) = [1]%nat /\
  ~ name_pool_full (click_name_toggle half_drawn).
Proof. repeat split. discriminate. Qed.

Lemma addItems_names s value :
  names (App.s_state (click_add App.names_t value s)) <> names (App.s_state s) ->
  name_pool_full (click_add App.names_t value s).
Proof.
  unfold click_add, App.dispatch, App.addItems, name_pool_full.
  destruct (String.length (App.trim value) =? 0)%nat; [cbn; congruence|].
  cbv zeta. destruct (0 <? length _)%nat; cbn; [reflexivity|congruence].
Qed.

Lemma addItems_tasks s value :
  tasks (App.s_state (click_add App.tasks_t value s)) <> tasks (App.s_state s) ->
  task_pool_full (click_add App.tasks_t value s).
Proof.
  unfold click_add, App.dispatch, App.addItems, task_pool_full.
  destruct (String.length (App.trim value) =? 0)%nat; [cbn; congruence|].
  cbv zeta. destruct (0 <? length _)%nat; cbn; [reflexivity|congruence].
Qed.

Lemma shuffle_loop_calls random i : forall k l,
  snd (App.shuffle_loop random i k l) = (i + k)%nat.
Proof.
  induction i as [|i IH]; intros k l; [reflexivity|].
  cbn [App.shuffle_loop]. rewrite IH. lia.
Qed.

Lemma shuffleNames_state s random :
  App.s_state (click_shuffle random s) =
    let shuffled := fst (App.shuffle_loop random (length (names (App.s_state s)) - 1)
                           (App.s_calls s) (names (App.s_state s))) in
    merge (App.s_state s)
      [Names shuffled; AvailableNamesIndices (JS.indices shuffled); History []].
Proof.
  unfold click_shuffle, App.dispatch, App.shuffleNames.
  destruct (App.shuffle_loop _ _ _ _) as [shuffled k]. reflexivity.
Qed.

(** C10, with the toggle split by direction.  Every edit of a participant
    list sets its pool to the full index range of the new list: [addItems]
    when it adds
    something, [removeItem], [clearList] and [shuffleNames]; so does the
    no-repeat checkbox when it switches no-repeat on.  Switching it off
    leaves the pool as it is. *)
Theorem list_edits_reset_pool (s : App.Store) (random : nat -> Q) :
  (forall value,
     names (App.s_state (click_add App.names_t value s)) <> names (App.s_state s) ->
     name_pool_full (click_add App.names_t value s)) /\
  (forall value,
     tasks (App.s_state (click_add App.tasks_t value s)) <> tasks (App.s_state s) ->
     task_pool_full (click_add App.tasks_t value s)) /\
  (forall index,
     names (App.s_state (click_remove App.names_t index s))
       = delete index (names (App.s_state s)) /\
     name_pool_full (click_remove App.names_t index s)) /\
  (forall index,
     tasks (App.s_state (click_remove App.tasks_t index s))
       = delete index (tasks (App.s_state s)) /\
     task_pool_full (click_remove App.tasks_t index s)) /\
  name_pool_full (click_shuffle random s) /\
  (names (App.s_state (click_clear App.names_t s)) = [] /\
   name_pool_full (click_clear App.names_t s)) /\
  (tasks (App.s_state (click_clear App.tasks_t s)) = [] /\
   task_pool_full (click_clear App.tasks_t s)) /\
  (isNameNoRepeat (App.s_state s) = false ->
     isNameNoRepeat (App.s_state (click_name_toggle s)) = true /\
     name_pool_full (click_name_toggle s)) /\
  (isTaskNoRepeat (App.s_state s) = false ->
     isTaskNoRepeat (App.s_state (click_task_toggle s)) = true /\
     task_pool_full (click_task_toggle s)) /\
  (isNameNoRepeat (App.s_state s) = true ->
     isNameNoRepeat (App.s_state (click_name_toggle s)) = false /\
     availableNamesIndices (App.s_state (click_name_toggle s))
       = availableNamesIndices (App.s_state s)) /\
  (isTaskNoRepeat (App.s_state s) = true ->
     isTaskNoRepeat (App.s_state (click_task_toggle s)) = false /\
     availableTasksIndices (App.s_state (click_task_toggle s))
       = availableTasksIndices (App.s_state s)).
Proof.
  split; [intros; by apply addItems_names|].
  split; [intros; by apply addItems_tasks|].
  split; [intros; split; reflexivity|].
  split; [intros; split; reflexivity|].
  split; [unfold name_pool_full; rewrite shuffleNames_state; reflexivity|].
  split; [split; reflexivity|].
  split; [split; reflexivity|].
  unfold click_name_toggle, click_task_toggle, App.dispatch,
    App.toggleNameNoRepeat, App.toggleTaskNoRepeat, name_pool_full, task_pool_full.
  split; [intros H; rewrite H; split; reflexivity|].
  split; [intros H; rewrite H; split; reflexivity|].
  split; intros H; rewrite H; split; reflexivity.
Qed.

Lemma list_edits_reset_pool_witness :
  name_pool_full (click_add App.names_t "C" half_drawn) /\
  name_pool_full (click_remove App.names_t 0 half_drawn) /\
  name_pool_full (click_shuffle (fun _ => 0%Q) half_drawn) /\
  availableNamesIndices (App.s_state (click_name_toggle half_drawn)) = [1]%nat /\
  name_pool_full (click_name_toggle (click_name_toggle half_drawn)).
Proof.
  pose proof (list_edits_reset_pool half_drawn (fun _ => 0%Q))
    as (Ha & _ & Hr & _ & Hs & _ & _ & _ & _ & Hoff & _).
  pose proof (list_edits_reset_pool (click_name_toggle half_drawn) (fun _ => 0%Q))
    as (_ & _ & _ & _ & _ & _ & _ & Hon & _).
  split; [apply Ha; discriminate|].
  split; [apply (Hr 0%nat)|].
  split; [exact Hs|].
  split; [apply Hoff; reflexivity|].
  apply Hon; reflexivity.
Defined.

(** ** More on the draw helpers *)

Lemma existsb_eqb_elem_of (i : nat) (l : list nat) :
  existsb (Nat.eqb i) l = true <-> i ∈ l.
Proof.
  rewrite existsb_exists. split.
  - intros (x & Hx & He). apply Nat.eqb_eq in He. subst x.
    apply list_elem_of_In. exact Hx.
  - intros Hi. exists i. split; [apply list_elem_of_In; exact Hi|apply Nat.eqb_refl].
Qed.

Lemma candidates_in_range st i : i ∈ name_candidates st -> (i < length (names st))%nat.
Proof.
  unfold name_candidates. intros Hi. apply list_elem_of_filter in Hi. tauto.
Qed.

Lemma candidates_off st :
  isNameNoRepeat st = false -> name_candidates st = JS.indices (names st).
Proof.
  intros H. unfold name_candidates. rewrite H.
  apply filter_lt_all, indices_all_lt.
Qed.

Lemma indices_nil {A} (l : list A) : JS.indices l = [] -> l = [].
Proof.
  unfold JS.indices. intros H. apply nil_length_inv.
  apply (f_equal length) in H. rewrite length_seq in H. exact H.
Qed.

Lemma selectNameIndex_empty st random s :
  names st = [] -> App.selectNameIndex st random s = (None, s).
Proof. intros H. unfold App.selectNameIndex. rewrite H. reflexivity. Qed.

Lemma task_candidates_off st :
  isTaskNoRepeat st = false -> task_candidates st = JS.indices (tasks st).
Proof.
  intros H. unfold task_candidates. rewrite H.
  apply filter_lt_all, indices_all_lt.
Qed.

Lemma task_candidates_in_range st i :
  i ∈ task_candidates st -> (i < length (tasks st))%nat.
Proof.
  unfold task_candidates. intros Hi. apply list_elem_of_filter in Hi. tauto.
Qed.

Lemma selectTask_select st random s :
  tasks st <> [] -> task_candidates st <> [] ->
  let pool := task_candidates st in
  let j := JS.randomIndex (random (App.s_calls s)) (length pool) in
  App.selectTask st random s =
    (default "undefined" (pool !! j ≫= fun i => tasks st !! i),
     with_state (fun p => if isTaskNoRepeat st
                          then assign p (AvailableTasksIndices (delete j pool)) else p)
       (S (App.s_calls s)) s).
Proof.
  intros Htasks Hpool pool j. unfold App.selectTask.
  rewrite (length_eqb_0 _ Htasks). cbv zeta.
  change (filter _ (if isTaskNoRepeat st then _ else _)) with pool.
  rewrite (length_eqb_0 pool Hpool), andb_false_r.
  unfold with_state. destruct (isTaskNoRepeat st); reflexivity.
Qed.

(** X1.  Whatever the pool holds (stale positions of a longer list
    included), [selectNameIndex] returns [null] or a position of the
    current list: it returns [null] exactly when the list is empty or
    no-repeat is on and no candidate is left, and a position it returns is
    one of the candidates, hence below [names.length]. *)
Theorem selectNameIndex_in_range (st : AppState) (random : nat -> Q) (s : App.Store) :
  (forall k, (0 <= random k)%Q /\ (random k < 1)%Q) ->
  (fst (App.selectNameIndex st random s) = None <->
     names st = [] \/ (isNameNoRepeat st = true /\ name_candidates st = [])) /\
  (forall i, fst (App.selectNameIndex st random s) = Some i ->
     i ∈ name_candidates st /\ (i < length (names st))%nat /\
     (isNameNoRepeat st = true -> i ∈ availableNamesIndices st)).
Proof.
  intros Hr.
  destruct (decide (names st = [])) as [Hn|Hn].
  { rewrite (selectNameIndex_empty _ _ _ Hn). cbn [fst]. split; [tauto|]. congruence. }
  destruct (decide (name_candidates st = [])) as [Hc|Hc].
  { destruct (isNameNoRepeat st) eqn:Hnr.
    - rewrite (selectNameIndex_exhausted st random s Hnr Hn)
        by (unfold name_candidates in Hc; rewrite Hnr in Hc; exact Hc).
      cbn [fst]. split; [tauto|]. congruence.
    - rewrite (candidates_off _ Hnr) in Hc. apply indices_nil in Hc. contradiction. }
  rewrite (selectNameIndex_select st random s Hn Hc). cbv zeta. cbn [fst].
  set (j := JS.randomIndex _ _).
  assert (Hj : (j < length (name_candidates st))%nat).
  { apply randomIndex_lt; try apply Hr. destruct (name_candidates st); [congruence|simpl; lia]. }
  destruct (lookup_lt_is_Some_2 _ _ Hj) as [i Hi]. rewrite Hi. split.
  - split; [congruence|]. intros [H|[_ H]]; contradiction.
  - intros i' [= <-].
    assert (Hin : i ∈ name_candidates st) by (eapply list_elem_of_lookup_2; exact Hi).
    split; [exact Hin|]. split; [apply candidates_in_range; exact Hin|].
    intros Hnr. unfold name_candidates in Hin. rewrite Hnr in Hin.
    apply list_elem_of_filter in Hin. tauto.
Qed.

Lemma selectNameIndex_in_range_witness :
  (1%nat ∈ name_candidates (App.s_state half_drawn)) /\
  (1 < length (names (App.s_state half_drawn)))%nat /\
  (isNameNoRepeat (App.s_state half_drawn) = true ->
   1%nat ∈ availableNamesIndices (App.s_state half_drawn)).
Proof.
  refine (proj2 (selectNameIndex_in_range (App.s_state half_drawn) (fun _ => 1 # 2)
                   half_drawn _) 1%nat _).
  - intros k. split; [unfold Qle; simpl; lia|reflexivity].
  - reflexivity.
Defined.

(** X2.  With a non-empty task list, [selectTask] returns one of the
    tasks, never [undefined]: when no-repeat is on and no candidate is
    left it refills the pool and selects from the full list in the same
    call. *)
Theorem selectTask_returns_a_task (st : AppState) (random : nat -> Q) (s : App.Store) :
  tasks st <> [] ->
  (forall k, (0 <= random k)%Q /\ (random k < 1)%Q) ->
  fst (App.selectTask st random s) ∈ tasks st.
Proof.
  intros Ht Hr.
  assert (Hlen : (0 < length (tasks st))%nat) by (destruct (tasks st); [congruence|simpl; lia]).
  destruct (decide (task_candidates st = [])) as [Hc|Hc].
  - destruct (isTaskNoRepeat st) eqn:Hnr.
    + rewrite (selectTask_exhausted st random s Hnr Ht Hc). cbv zeta. cbn [fst].
      set (j := JS.randomIndex _ _).
      assert (Hj : (j < length (tasks st))%nat).
      { subst j. unfold JS.indices at 1. rewrite length_seq.
        apply randomIndex_lt; try apply Hr. exact Hlen. }
      rewrite (indices_lookup _ _ Hj). cbn [mbind option_bind].
      destruct (lookup_lt_is_Some_2 _ _ Hj) as [t Htk]. rewrite Htk. cbn [default].
      eapply list_elem_of_lookup_2; exact Htk.
    + rewrite (task_candidates_off _ Hnr) in Hc. apply indices_nil in Hc. contradiction.
  - rewrite (selectTask_select st random s Ht Hc). cbv zeta. cbn [fst].
    set (j := JS.randomIndex _ _).
    assert (Hj : (j < length (task_candidates st))%nat).
    { apply randomIndex_lt; try apply Hr. destruct (task_candidates st); [congruence|simpl; lia]. }
    destruct (lookup_lt_is_Some_2 _ _ Hj) as [i Hi]. rewrite Hi. cbn [mbind option_bind].
    assert (Hin : i ∈ task_candidates st) by (eapply list_elem_of_lookup_2; exact Hi).
    apply task_candidates_in_range in Hin.
    destruct (lookup_lt_is_Some_2 _ _ Hin) as [t Htk]. rewrite Htk. cbn [default].
    eapply list_elem_of_lookup_2; exact Htk.
Qed.

Lemma selectTask_returns_a_task_witness :
  fst (App.selectTask (App.s_state exhausted_tasks) (fun _ => 1 # 2) exhausted_tasks)
    ∈ tasks (App.s_state exhausted_tasks).
Proof.
  apply (selectTask_returns_a_task (App.s_state exhausted_tasks) (fun _ => 1 # 2)).
  - discriminate.
  - intros k. split; reflexivity || (unfold Qle; simpl; lia).
Defined.

(** ** What a click on the draw button can change *)

Ltac draw_done :=
  unfold JS.slice0, JS.splice1;
  repeat match goal with |- _ /\ _ => split end;
  first [assumption | reflexivity | symmetry; assumption
        | left; reflexivity | right; eexists; reflexivity
        | right; left; reflexivity | right; right; eexists; reflexivity
        | right; exists 0%nat; left; reflexivity
        | right; eexists; left; reflexivity
        | right; eexists; right; reflexivity ].

Lemma handleDraw_state s random engine now time :
  let st := App.s_state s in
  let st' := App.s_state (click_draw random engine now time s) in
  (names st' = names st /\ tasks st' = tasks st /\
   isNameNoRepeat st' = isNameNoRepeat st /\ isTaskNoRepeat st' = isTaskNoRepeat st /\
   mode st' = mode st /\ interactiveMode st' = interactiveMode st /\
   numGroups st' = numGroups st) /\
  (history st' = history st \/ exists e, history st' = take 50 (e :: history st)) /\
  (availableNamesIndices st' = availableNamesIndices st \/
   availableNamesIndices st' = JS.indices (names st) \/
   exists j, availableNamesIndices st' = delete j (name_candidates st)) /\
  (availableTasksIndices st' = availableTasksIndices st \/
   exists j, availableTasksIndices st' = delete j (task_candidates st) \/
             availableTasksIndices st' = delete j (JS.indices (tasks st))).
Proof.
  cbv zeta. unfold click_draw, App.dispatch.
  set (st := App.s_state s).
  unfold App.handleDraw.
  destruct (length (names st) =? 0)%nat eqn:Hlen; [subst st; cbn; draw_done|].
  destruct (mode st) eqn:Hm.
  - (* single *)
    unfold App.bind at 1. unfold App.selectNameIndex. rewrite Hlen.
    cbv zeta. fold (name_candidates st).
    destruct (isNameNoRepeat st) eqn:Hnr; cbn [andb].
    + destruct (length (name_candidates st) =? 0)%nat.
      * subst st. cbn. draw_done.
      * cbn -[name_candidates take]. destruct (name_candidates st !! _);
          cbn -[name_candidates take]; subst st; draw_done.
    + cbn -[name_candidates take]. destruct (name_candidates st !! _);
        cbn -[name_candidates take]; subst st; draw_done.
  - (* paired *)
    unfold App.bind at 1. unfold App.selectNameIndex. rewrite Hlen.
    cbv zeta. fold (name_candidates st).
    assert (Htask : forall name s1,
      App.s_state s1 = st \/
      (exists j, App.s_state s1
         = assign st (AvailableNamesIndices (delete j (name_candidates st)))) ->
      let st' := App.s_state (snd
        ((if (length (tasks st) =? 0)%nat then App.showToast "Add tasks for paired mode."
          else App.bind (App.selectTask st random)
                 (fun task =>
                    App.bind (App.logHistory st now time
                                (name ++ " is assigned to: " ++ task)%string None)
                      (fun _ => App.bind (App.setResultCardText
                                  (name ++ " is assigned to: " ++ task)%string)
                         (fun _ => App.bind App.playDrawSound
                                     (fun _ => App.triggerResultAnimation))))) s1)) in
      (names st' = names st /\ tasks st' = tasks st /\
       isNameNoRepeat st' = isNameNoRepeat st /\ isTaskNoRepeat st' = isTaskNoRepeat st /\
       mode st' = mode st /\ interactiveMode st' = interactiveMode st /\
       numGroups st' = numGroups st) /\
      (history st' = history st \/ exists e, history st' = take 50 (e :: history st)) /\
      (availableNamesIndices st' = availableNamesIndices st \/
       availableNamesIndices st' = JS.indices (names st) \/
       exists j, availableNamesIndices st' = delete j (name_candidates st)) /\
      (availableTasksIndices st' = availableTasksIndices st \/
       exists j, availableTasksIndices st' = delete j (task_candidates st) \/
                 availableTasksIndices st' = delete j (JS.indices (tasks st)))).
    { intros name s1 Hs1. cbv zeta.
      destruct (length (tasks st) =? 0)%nat eqn:Htl.
      { cbn. destruct Hs1 as [->|[j ->]]; cbn; draw_done. }
      unfold App.bind at 1. unfold App.selectTask. rewrite Htl. cbv zeta.
      fold (task_candidates st).
      destruct (isTaskNoRepeat st) eqn:Htnr; cbn [andb].
      - destruct (length (task_candidates st) =? 0)%nat;
          cbn -[name_candidates task_candidates take];
          destruct Hs1 as [->|[j ->]]; cbn -[name_candidates task_candidates take];
          draw_done.
      - cbn -[name_candidates task_candidates take].
        destruct Hs1 as [->|[j ->]]; cbn -[name_candidates task_candidates take];
          draw_done. }
    destruct (isNameNoRepeat st) eqn:Hnr; cbn [andb].
    + destruct (length (name_candidates st) =? 0)%nat.
      * subst st. cbn. draw_done.
      * cbn -[name_candidates take App.selectTask].
        destruct (name_candidates st !! _); [|subst st; cbn; draw_done].
        rewrite Hm in Htask. apply Htask. right. eexists. reflexivity.
    + cbn -[name_candidates take App.selectTask].
      destruct (name_candidates st !! _); [|subst st; cbn; draw_done].
      rewrite Hm in Htask. apply Htask. left. reflexivity.
  - (* groups *)
    destruct (numGroups st <=? 0)%Z; [subst st; cbn; draw_done|].
    destruct (Z.of_nat (length (names st)) <? numGroups st)%Z; [subst st; cbn; draw_done|].
    unfold App.bind, App.sort_random. cbv beta.
    destruct (run_sort _ _ _) as [order k].
    cbn -[take]. subst st. draw_done.
  - (* interactive *)
    destruct (length (names st) <? 2)%nat; [subst st; cbn; draw_done|].
    destruct (App.s_isSpinning s); [subst st; cbn; draw_done|].
    unfold App.bind at 1. unfold App.selectNameIndex. rewrite Hlen.
    cbv zeta. fold (name_candidates st).
    destruct (isNameNoRepeat st) eqn:Hnr; cbn [andb].
    + destruct (length (name_candidates st) =? 0)%nat.
      * subst st. cbn. draw_done.
      * cbn -[name_candidates take]. destruct (name_candidates st !! _);
          cbn -[name_candidates take]; subst st; draw_done.
    + cbn -[name_candidates take]. destruct (name_candidates st !! _);
        cbn -[name_candidates take]; subst st; draw_done.
Qed.

(** ** What the other events can change *)

Lemma swap_length (a : list string) (i j : nat) : length (App.swap a i j) = length a.
Proof.
  unfold App.swap. destruct (a !! i), (a !! j); try reflexivity.
  rewrite !length_insert. reflexivity.
Qed.

Lemma shuffle_loop_length random i : forall k l,
  length (fst (App.shuffle_loop random i k l)) = length l.
Proof.
  induction i as [|i IH]; intros k l; cbn [App.shuffle_loop]; [reflexivity|].
  cbv zeta. rewrite IH. apply swap_length.
Qed.

Lemma addItems_state s type value :
  let st := App.s_state s in
  let st' := App.s_state (click_add type value s) in
  st' = st \/
  exists added, added <> [] /\
    match type with
    | App.names_t =>
        st' = merge st [Names (names st ++ added);
                        AvailableNamesIndices (JS.indices (names st ++ added))]
    | App.tasks_t =>
        st' = merge st [Tasks (tasks st ++ added);
                        AvailableTasksIndices (JS.indices (tasks st ++ added))]
    end.
Proof.
  cbv zeta. unfold click_add, App.dispatch, App.addItems.
  destruct (String.length (App.trim value) =? 0)%nat; [left; reflexivity|].
  cbv zeta.
  match goal with |- context [(0 <? length ?u)%nat] => set (added := u) end.
  destruct (0 <? length added)%nat eqn:Hlen; [|left; reflexivity].
  right. exists added. split.
  - intros E. rewrite E in Hlen. discriminate.
  - destruct type; reflexivity.
Qed.

Lemma pool_ok_indices {A} (l : list A) : pool_ok l (JS.indices l).
Proof. split; [apply indices_all_lt|apply NoDup_seq]. Qed.

Lemma pool_ok_nil {A} (l : list A) : pool_ok l [].
Proof. split; constructor. Qed.

Lemma pool_ok_delete {A} (l : list A) (p : list nat) (j : nat) :
  pool_ok l p -> pool_ok l (delete j p).
Proof.
  intros [Hf Hn]. split; [apply Forall_delete; exact Hf|].
  eapply sublist_NoDup; [exact Hn|apply sublist_delete].
Qed.

Lemma pool_ok_filter {A} (l : list A) (p : list nat) :
  NoDup p -> pool_ok l (filter (fun i => (i < length l)%nat) p).
Proof.
  intros Hn. split; [|apply NoDup_filter; exact Hn].
  apply Forall_forall. intros i Hi. apply list_elem_of_filter in Hi. tauto.
Qed.

Lemma pool_ok_name_candidates st :
  NoDup (availableNamesIndices st) -> pool_ok (names st) (name_candidates st).
Proof.
  intros Hn. unfold name_candidates.
  destruct (isNameNoRepeat st); apply pool_ok_filter; [exact Hn|apply NoDup_seq].
Qed.

Lemma pool_ok_task_candidates st :
  NoDup (availableTasksIndices st) -> pool_ok (tasks st) (task_candidates st).
Proof.
  intros Hn. unfold task_candidates.
  destruct (isTaskNoRepeat st); apply pool_ok_filter; [exact Hn|apply NoDup_seq].
Qed.

Lemma pools_ok_step (s : App.Store) (e : Event) : pools_ok s -> pools_ok (step s e).
Proof.
  intros [[Hnf Hnn] [Htf Htn]]. destruct e; cbn [step].
  - (* draw *)
    destruct (handleDraw_state s random engine now time)
      as ((En & Et & _) & _ & Hn & Ht).
    unfold pools_ok. rewrite En, Et. split.
    + destruct Hn as [->|[->|[j ->]]].
      * split; assumption.
      * apply pool_ok_indices.
      * apply pool_ok_delete, pool_ok_name_candidates. exact Hnn.
    + destruct Ht as [->|[j [->| ->]]].
      * split; assumption.
      * apply pool_ok_delete, pool_ok_task_candidates. exact Htn.
      * apply pool_ok_delete, pool_ok_indices.
  - (* animation end *)
    unfold animation_end, App.dispatch, App.handleInteractiveEnd.
    destruct (App.s_currentWinner s) as [[name idx]|]; cbn; repeat split; assumption.
  - (* add *)
    destruct (addItems_state s type value) as [E|(added & _ & E)].
    + unfold pools_ok. rewrite E. repeat split; assumption.
    + unfold pools_ok. destruct type; rewrite E; cbn; split;
        first [apply pool_ok_indices | split; assumption].
  - (* remove *)
    unfold click_remove, App.dispatch, App.removeItem.
    destruct type; cbn; split; first [apply pool_ok_indices | split; assumption].
  - (* clear *)
    unfold click_clear, App.dispatch, App.clearList.
    destruct type; cbn; split; first [apply pool_ok_nil | split; assumption].
  - (* shuffle *)
    unfold pools_ok. rewrite shuffleNames_state. cbn. split.
    + apply pool_ok_indices.
    + split; assumption.
  - unfold click_name_toggle, App.dispatch, App.toggleNameNoRepeat.
    destruct (isNameNoRepeat (App.s_state s)); cbn; split;
      first [apply pool_ok_indices | split; assumption].
  - unfold click_task_toggle, App.dispatch, App.toggleTaskNoRepeat.
    destruct (isTaskNoRepeat (App.s_state s)); cbn; split;
      first [apply pool_ok_indices | split; assumption].
  - cbn. repeat split; assumption.
  - unfold click_interactive_mode, App.dispatch.
    destruct (App.s_isSpinning s); cbn; repeat split; assumption.
  - cbn. repeat split; assumption.
  - cbn. split; apply pool_ok_indices.
Qed.

Lemma run_snoc events e s : run (events ++ [e]) s = step (run events s) e.
Proof. unfold run. rewrite fold_left_app. reflexivity. Qed.

Lemma history_step (s : App.Store) (e : Event) :
  let h := history (App.s_state s) in
  let h' := history (App.s_state (step s e)) in
  h' = h \/ h' = [] \/ exists entry, h' = take 50 (entry :: h).
Proof.
  cbv zeta. destruct e; cbn [step].
  - destruct (handleDraw_state s random engine now time) as (_ & [H|H] & _); tauto.
  - unfold animation_end, App.dispatch, App.handleInteractiveEnd.
    destruct (App.s_currentWinner s) as [[name idx]|]; cbn -[take]; eauto.
  - destruct (addItems_state s type value) as [E|(added & _ & E)].
    + rewrite E. tauto.
    + destruct type; rewrite E; cbn; tauto.
  - unfold click_remove, App.dispatch, App.removeItem. destruct type; cbn; tauto.
  - unfold click_clear, App.dispatch, App.clearList. destruct type; cbn; tauto.
  - rewrite shuffleNames_state. cbn. tauto.
  - unfold click_name_toggle, App.dispatch, App.toggleNameNoRepeat.
    destruct (isNameNoRepeat (App.s_state s)); cbn; tauto.
  - unfold click_task_toggle, App.dispatch, App.toggleTaskNoRepeat.
    destruct (isTaskNoRepeat (App.s_state s)); cbn; tauto.
  - cbn. tauto.
  - unfold click_interactive_mode, App.dispatch.
    destruct (App.s_isSpinning s); cbn; tauto.
  - cbn. tauto.
  - cbn. tauto.
Qed.

Lemma numGroups_step (s : App.Store) (e : Event) :
  numGroups (App.s_state (step s e)) = numGroups (App.s_state s) \/
  exists parsed, e = ChangeNumGroups parsed /\
    numGroups (App.s_state (step s e)) = Z.max 1 (or_one parsed).
Proof.
  destruct e; cbn [step].
  - destruct (handleDraw_state s random engine now time) as ((_ & _ & _ & _ & _ & _ & H) & _).
    left. exact H.
  - unfold animation_end, App.dispatch, App.handleInteractiveEnd.
    destruct (App.s_currentWinner s) as [[name idx]|]; cbn; tauto.
  - destruct (addItems_state s type value) as [E|(added & _ & E)].
    + rewrite E. tauto.
    + destruct type; rewrite E; cbn; tauto.
  - unfold click_remove, App.dispatch, App.removeItem. destruct type; cbn; tauto.
  - unfold click_clear, App.dispatch, App.clearList. destruct type; cbn; tauto.
  - rewrite shuffleNames_state. cbn. tauto.
  - unfold click_name_toggle, App.dispatch, App.toggleNameNoRepeat.
    destruct (isNameNoRepeat (App.s_state s)); cbn; tauto.
  - unfold click_task_toggle, App.dispatch, App.toggleTaskNoRepeat.
    destruct (isTaskNoRepeat (App.s_state s)); cbn; tauto.
  - cbn. tauto.
  - unfold click_interactive_mode, App.dispatch.
    destruct (App.s_isSpinning s); cbn; tauto.
  - right. exists parsed. split; reflexivity.
  - cbn. tauto.
Qed.

(** ** Invariants of the page *)

(** X3.  The history never grows beyond 50 entries: if it holds at most
    50 entries, it still does after any sequence of events of the page
    (draws, finished animations, list edits, toggles, mode changes,
    resets). *)
Theorem history_never_exceeds_50 (s : App.Store) (events : list Event) :
  (length (history (App.s_state s)) <= 50)%nat ->
  (length (history (App.s_state (run events s))) <= 50)%nat.
Proof.
  intros H0. induction events as [|e events IH] using rev_ind; [exact H0|].
  rewrite run_snoc.
  destruct (history_step (run events s) e) as [E|[E|[entry E]]]; rewrite E.
  - exact IH.
  - simpl. lia.
  - rewrite length_take. lia.
Qed.

Lemma history_never_exceeds_50_witness :
  (length (history (App.s_state (run sample_events (App.initial DEFAULT_STATE)))) <= 50)%nat.
Proof.
  apply (history_never_exceeds_50 (App.initial DEFAULT_STATE) sample_events).
  simpl. lia.
Defined.

(** X4.  The pools stay well formed: if each pool holds positions of its
    list, each at most once, it still does after any sequence of events of
    the page; in such a state the filter of [selectNameIndex] and
    [selectTask] that drops out-of-range positions removes nothing. *)
Theorem pools_stay_well_formed (s : App.Store) (events : list Event) :
  pools_ok s ->
  let st := App.s_state (run events s) in
  pools_ok (run events s) /\
  name_candidates st
    = (if isNameNoRepeat st then availableNamesIndices st else JS.indices (names st)) /\
  task_candidates st
    = (if isTaskNoRepeat st then availableTasksIndices st else JS.indices (tasks st)).
Proof.
  intros H0. cbv zeta.
  assert (H : pools_ok (run events s)).
  { induction events as [|e events IH] using rev_ind; [exact H0|].
    rewrite run_snoc. apply pools_ok_step. exact IH. }
  split; [exact H|]. destruct H as [[Hn _] [Ht _]].
  unfold name_candidates, task_candidates. split.
  - destruct (isNameNoRepeat _); apply filter_lt_all; [exact Hn|apply indices_all_lt].
  - destruct (isTaskNoRepeat _); apply filter_lt_all; [exact Ht|apply indices_all_lt].
Qed.

Lemma pools_stay_well_formed_witness :
  pools_ok (run sample_events (App.initial DEFAULT_STATE)).
Proof.
  apply (pools_stay_well_formed (App.initial DEFAULT_STATE) sample_events).
  split; split; try (repeat constructor; simpl; lia).
  apply (NoDup_seq 0 6).
Defined.

Lemma handleDraw_effects s random engine now time :
  (1 <= numGroups (App.s_state s))%Z ->
  exists new,
    App.s_effects (click_draw random engine now time s) = App.s_effects s ++ new /\
    App.Toast "Invalid group number." ∉ new.
Proof.
  intros Hg.
  assert (Hg'' : (numGroups (App.s_state s) <=? 0)%Z = false) by (apply Z.leb_gt; lia).
  unfold click_draw, App.dispatch, App.handleDraw, App.selectNameIndex, App.selectTask,
    App.sort_random, App.bind.
  rewrite Hg''. cbv beta zeta.
  repeat (match goal with
          | |- context [if ?b then _ else _] => destruct b
          | |- context [match mode ?st with _ => _ end] => destruct (mode st)
          | |- context [match ?l !! ?j with _ => _ end] => destruct (l !! j)
          | |- context [let (_, _) := run_sort ?a ?b ?c in _] => destruct (run_sort a b c)
          end; cbn -[take filter]);
  cbn -[take filter];
  rewrite <- ?app_assoc;
  (eexists; split; [reflexivity || (symmetry; apply app_nil_r)|]);
  cbn [app];
  rewrite ?not_elem_of_cons; repeat split; try discriminate; apply not_elem_of_nil.
Qed.

(** X5.  The number of groups stays at least 1: the input handler stores
    [Math.max(1, parseInt(value) || 1)], and no other event writes
    [numGroups]; so after any sequence of events a draw never takes the
    "Invalid group number." branch. *)
Theorem numGroups_stays_positive (s : App.Store) (events : list Event) :
  (1 <= numGroups (App.s_state s))%Z ->
  (1 <= numGroups (App.s_state (run events s)))%Z /\
  forall random engine now time,
    exists new,
      App.s_effects (click_draw random engine now time (run events s))
        = App.s_effects (run events s) ++ new /\
      App.Toast "Invalid group number." ∉ new.
Proof.
  intros H0.
  assert (H : (1 <= numGroups (App.s_state (run events s)))%Z).
  { induction events as [|e events IH] using rev_ind; [exact H0|].
    rewrite run_snoc.
    destruct (numGroups_step (run events s) e) as [E|(parsed & _ & E)]; rewrite E; lia. }
  split; [exact H|]. intros. apply handleDraw_effects. exact H.
Qed.

Lemma numGroups_stays_positive_witness :
  (1 <= numGroups (App.s_state (run sample_events (App.initial DEFAULT_STATE))))%Z.
Proof.
  apply (numGroups_stays_positive (App.initial DEFAULT_STATE) sample_events).
  simpl. lia.
Defined.

(** ** The branches of [handleDraw] *)

Lemma candidates_lookup (st : AppState) (random : nat -> Q) (k : nat) :
  name_candidates st <> [] -> (0 <= random k)%Q /\ (random k < 1)%Q ->
  exists idx name,
    name_candidates st !! JS.randomIndex (random k) (length (name_candidates st)) = Some idx /\
    names st !! idx = Some name /\ App.at_index (names st) idx = name.
Proof.
  intros Hc [Hr0 Hr1].
  assert (Hj : (JS.randomIndex (random k) (length (name_candidates st))
                < length (name_candidates st))%nat).
  { apply randomIndex_lt; try assumption.
    destruct (name_candidates st); [congruence|simpl; lia]. }
  destruct (lookup_lt_is_Some_2 _ _ Hj) as [idx Hidx].
  assert (Hin : idx ∈ name_candidates st) by (eapply list_elem_of_lookup_2; exact Hidx).
  apply candidates_in_range in Hin.
  destruct (lookup_lt_is_Some_2 _ _ Hin) as [name Hname].
  exists idx, name. split; [exact Hidx|]. split; [exact Hname|].
  unfold App.at_index. rewrite Hname. reflexivity.
Qed.

(** X6.  A draw that fails validation only shows a notification: with an
    empty name list, in groups mode with a non-positive group number or
    fewer names than groups, and in interactive mode with fewer than two
    names, the click leaves the state, the pools, the history, the winner,
    the result card and the random source untouched and adds one toast.
    In interactive mode a click while an animation runs does nothing at
    all. *)
Theorem rejected_draw_only_toasts (s : App.Store) (random : nat -> Q)
    (engine : nat -> SortRun) (now : Z) (time : string) :
  let st := App.s_state s in
  (names st = [] \/
   (mode st = groups /\
    ((numGroups st <= 0)%Z \/ (Z.of_nat (length (names st)) < numGroups st)%Z)) \/
   (mode st = interactive /\ (length (names st) < 2)%nat) ->
   exists msg,
     click_draw random engine now time s =
       {| App.s_state := st; App.s_isSpinning := App.s_isSpinning s;
          App.s_currentWinner := App.s_currentWinner s;
          App.s_resultCardText := App.s_resultCardText s;
          App.s_calls := App.s_calls s;
          App.s_effects := App.s_effects s ++ [App.Toast msg] |}) /\
  (mode st = interactive -> (2 <= length (names st))%nat -> App.s_isSpinning s = true ->
   click_draw random engine now time s = s).
Proof.
  cbv zeta. unfold click_draw, App.dispatch, App.handleDraw. split.
  - intros H.
    destruct (length (names (App.s_state s)) =? 0)%nat eqn:Hlen; [eexists; reflexivity|].
    destruct H as [Hn|[[Hm Hg]|[Hm Hl]]].
    + rewrite Hn in Hlen. discriminate.
    + rewrite Hm. destruct (numGroups (App.s_state s) <=? 0)%Z eqn:Hz; [eexists; reflexivity|].
      apply Z.leb_gt in Hz. destruct Hg as [Hg|Hg]; [lia|].
      apply Z.ltb_lt in Hg. rewrite Hg. eexists. reflexivity.
    + rewrite Hm. apply Nat.ltb_lt in Hl. rewrite Hl. eexists. reflexivity.
  - intros Hm Hl Hsp.
    assert (Hlen : (length (names (App.s_state s)) =? 0)%nat = false)
      by (apply Nat.eqb_neq; lia).
    assert (Hl2 : (length (names (App.s_state s)) <? 2)%nat = false)
      by (apply Nat.ltb_ge; lia).
    rewrite Hlen, Hm, Hl2, Hsp. reflexivity.
Qed.

Lemma rejected_draw_only_toasts_witness :
  exists msg,
    click_draw (fun _ => 0%Q) insertion_engine 0 "09:00:00"
      (click_clear App.names_t (App.initial DEFAULT_STATE)) =
      {| App.s_state := App.s_state (click_clear App.names_t (App.initial DEFAULT_STATE));
         App.s_isSpinning := false; App.s_currentWinner := None;
         App.s_resultCardText := "Click 'DRAW LOTS' to begin!";
         App.s_calls := 0;
         App.s_effects := [App.Toast msg] |}.
Proof.
  apply (proj1 (rejected_draw_only_toasts
                  (click_clear App.names_t (App.initial DEFAULT_STATE))
                  (fun _ => 0%Q) insertion_engine 0 "09:00:00")).
  left. reflexivity.
Defined.

(** X7.  A single draw with a candidate left logs one of the names: the
    name at the selected candidate position becomes the result card and
    the head of the history, with no-repeat on that position leaves the
    pool and nothing else does, and with no-repeat off the state changes
    in the history only. *)
Theorem single_draw_logs_a_name (s : App.Store) (random : nat -> Q)
    (engine : nat -> SortRun) (now : Z) (time : string) :
  let st := App.s_state s in
  let s' := click_draw random engine now time s in
  let j := JS.randomIndex (random (App.s_calls s)) (length (name_candidates st)) in
  mode st = single -> name_candidates st <> [] ->
  (0 <= random (App.s_calls s))%Q /\ (random (App.s_calls s) < 1)%Q ->
  exists idx name,
    name_candidates st !! j = Some idx /\ names st !! idx = Some name /\
    App.s_resultCardText s' = name /\
    history (App.s_state s') =
      take 50 ({| h_id := now; h_result := name; h_mode := single;
                  h_timestamp := time; h_groups := None |} :: history st) /\
    availableNamesIndices (App.s_state s') =
      (if isNameNoRepeat st then delete j (name_candidates st)
       else availableNamesIndices st) /\
    names (App.s_state s') = names st /\
    App.s_calls s' = S (App.s_calls s) /\
    App.s_effects s' = App.s_effects s ++ [App.PlayDrawSound; App.ResultAnimation].
Proof.
  cbv zeta. intros Hm Hc Hr.
  pose proof (candidates_nonempty_names _ Hc) as Hn.
  destruct (candidates_lookup _ random (App.s_calls s) Hc Hr) as (idx & name & Hidx & Hname & Hat).
  exists idx, name. split; [exact Hidx|]. split; [exact Hname|].
  assert (E : click_draw random engine now time s =
    {| App.s_state :=
         assign (if isNameNoRepeat (App.s_state s)
                 then assign (App.s_state s)
                        (AvailableNamesIndices
                           (delete (JS.randomIndex (random (App.s_calls s))
                                      (length (name_candidates (App.s_state s))))
                              (name_candidates (App.s_state s))))
                 else App.s_state s)
           (History (take 50 ({| h_id := now; h_result := name;
                                 h_mode := mode (App.s_state s);
                                 h_timestamp := time; h_groups := None |}
                              :: history (App.s_state s))));
       App.s_isSpinning := App.s_isSpinning s;
       App.s_currentWinner := App.s_currentWinner s;
       App.s_resultCardText := name;
       App.s_calls := S (App.s_calls s);
       App.s_effects := (App.s_effects s ++ [App.PlayDrawSound]) ++ [App.ResultAnimation] |}).
  { unfold click_draw, App.dispatch, App.handleDraw.
    rewrite (length_eqb_0 _ Hn), Hm. unfold App.bind at 1.
    rewrite (selectNameIndex_select _ random s Hn Hc). cbv zeta. rewrite Hidx, Hat.
    unfold App.bind, App.logHistory, with_state. cbn -[take name_candidates].
    rewrite ?Hm. reflexivity. }
  rewrite E. cbn -[take name_candidates]. rewrite ?Hm, <- app_assoc.
  destruct (isNameNoRepeat (App.s_state s)); repeat split.
Qed.

Lemma single_draw_logs_a_name_witness :
  exists idx name,
    name_candidates DEFAULT_STATE
      !! JS.randomIndex (1 # 2) (length (name_candidates DEFAULT_STATE)) = Some idx /\
    names DEFAULT_STATE !! idx = Some name /\
    App.s_resultCardText
      (click_draw (fun _ => 1 # 2) insertion_engine 0 "09:00:00" (App.initial DEFAULT_STATE))
      = name.
Proof.
  destruct (single_draw_logs_a_name (App.initial DEFAULT_STATE) (fun _ => 1 # 2)
              insertion_engine 0 "09:00:00")
    as (idx & name & H1 & H2 & H3 & _).
  - reflexivity.
  - discriminate.
  - split; [unfold Qle; simpl; lia|reflexivity].
  - exists idx, name. split; [exact H1|]. split; [exact H2|exact H3].
Defined.

(** X8.  An interactive round logs once, and only when the animation
    ends.  The click selects the winner, starts the animation and logs
    nothing; further clicks while the animation runs change nothing; the
    end of the animation stops it, shows the winner's name and puts that
    name at the head of the history. *)
Theorem interactive_round_logs_at_the_end (s : App.Store) (random : nat -> Q)
    (engine : nat -> SortRun) (now now' : Z) (time time' : string) :
  let st := App.s_state s in
  let s1 := click_draw random engine now time s in
  let s2 := animation_end now' time' s1 in
  mode st = interactive -> (2 <= length (names st))%nat ->
  App.s_isSpinning s = false -> name_candidates st <> [] ->
  (0 <= random (App.s_calls s))%Q /\ (random (App.s_calls s) < 1)%Q ->
  exists idx name,
    names st !! idx = Some name /\
    App.s_currentWinner s1 = Some (name, idx) /\
    App.s_isSpinning s1 = true /\
    App.s_resultCardText s1 = "...ANIMATING..." /\
    history (App.s_state s1) = history st /\
    App.s_effects s1 = App.s_effects s /\
    (forall random2 engine2 now2 time2, click_draw random2 engine2 now2 time2 s1 = s1) /\
    App.s_isSpinning s2 = false /\
    App.s_resultCardText s2 = name /\
    history (App.s_state s2) =
      take 50 ({| h_id := now'; h_result := name; h_mode := interactive;
                  h_timestamp := time'; h_groups := None |} :: history st) /\
    App.s_effects s2 = App.s_effects s ++ [App.ResultAnimation].
Proof.
  cbv zeta. intros Hm Hl Hsp Hc Hr.
  pose proof (candidates_nonempty_names _ Hc) as Hn.
  destruct (candidates_lookup _ random (App.s_calls s) Hc Hr) as (idx & name & Hidx & Hname & Hat).
  exists idx, name. split; [exact Hname|].
  assert (Hl2 : (length (names (App.s_state s)) <? 2)%nat = false)
    by (apply Nat.ltb_ge; lia).
  assert (E1 : click_draw random engine now time s =
    {| App.s_state :=
         (if isNameNoRepeat (App.s_state s)
          then assign (App.s_state s)
                 (AvailableNamesIndices
                    (delete (JS.randomIndex (random (App.s_calls s))
                               (length (name_candidates (App.s_state s))))
                       (name_candidates (App.s_state s))))
          else App.s_state s);
       App.s_isSpinning := true;
       App.s_currentWinner := Some (name, idx);
       App.s_resultCardText := "...ANIMATING...";
       App.s_calls := S (App.s_calls s);
       App.s_effects := App.s_effects s |}).
  { unfold click_draw, App.dispatch, App.handleDraw.
    rewrite (length_eqb_0 _ Hn), Hm, Hl2, Hsp. unfold App.bind at 1.
    rewrite (selectNameIndex_select _ random s Hn Hc). cbv zeta. rewrite Hidx, Hat.
    reflexivity. }
  rewrite E1. cbn [App.s_currentWinner App.s_isSpinning App.s_resultCardText
                   App.s_state App.s_effects].
  destruct (isNameNoRepeat (App.s_state s)).
  all: repeat split.
  all: try (intros; unfold click_draw, App.dispatch, App.handleDraw;
            cbn [App.s_state App.s_isSpinning App.s_currentWinner assign names mode];
            rewrite (length_eqb_0 _ Hn), Hm, Hl2; reflexivity).
  all: unfold animation_end, App.dispatch, App.handleInteractiveEnd;
       cbn -[take]; rewrite Hm; reflexivity.
Qed.

Lemma interactive_round_logs_at_the_end_witness :
  exists idx name,
    names DEFAULT_STATE !! idx = Some name /\
    App.s_currentWinner
      (click_draw (fun _ => 1 # 2) insertion_engine 1 "09:00:00"
         (click_mode interactive (App.initial DEFAULT_STATE))) = Some (name, idx) /\
    map h_result
      (history (App.s_state
         (animation_end 2 "09:00:06"
            (click_draw (fun _ => 1 # 2) insertion_engine 1 "09:00:00"
               (click_mode interactive (App.initial DEFAULT_STATE)))))) = [name].
Proof.
  destruct (interactive_round_logs_at_the_end
              (click_mode interactive (App.initial DEFAULT_STATE))
              (fun _ => 1 # 2) insertion_engine 1 2 "09:00:00" "09:00:06")
    as (idx & name & H1 & H2 & _ & _ & _ & _ & _ & _ & _ & H3 & _).
  - reflexivity.
  - simpl. lia.
  - reflexivity.
  - discriminate.
  - split; [unfold Qle; simpl; lia|reflexivity].
  - exists idx, name. split; [exact H1|]. split; [exact H2|].
    rewrite H3. reflexivity.
Defined.

(** ** The list on screen *)

Lemma selectNameIndex_flag st random s :
  isNameNoRepeat (App.s_state (snd (App.selectNameIndex st random s)))
    = isNameNoRepeat (App.s_state s).
Proof.
  unfold App.selectNameIndex.
  destruct (length (names st) =? 0)%nat; [reflexivity|]. cbv zeta.
  destruct (isNameNoRepeat st); cbn [andb];
    [destruct (length _ =? 0)%nat|]; reflexivity.
Qed.

Lemma draw_names_flag random m : forall s,
  isNameNoRepeat (App.s_state (snd (draw_names random m s)))
    = isNameNoRepeat (App.s_state s).
Proof.
  induction m as [|m IH]; intros s; [reflexivity|].
  cbn [draw_names]. unfold draw_name.
  pose proof (selectNameIndex_flag (App.s_state s) random s) as Hf.
  destruct (App.selectNameIndex (App.s_state s) random s) as [i s1].
  specialize (IH s1). destruct (draw_names random m s1) as [l s2].
  cbn [snd] in *. congruence.
Qed.

(** X9.  The items shown struck through are the drawn ones: after [m]
    no-repeat draws from a full pool, with the list unchanged in between,
    [renderList] marks position [i] of the name list as used exactly when
    one of the draws returned [i]. *)
Theorem used_items_are_the_drawn_ones (st : AppState) (random : nat -> Q) (m i : nat) :
  isNameNoRepeat st = true ->
  availableNamesIndices st = JS.indices (names st) ->
  (forall k, (0 <= random k)%Q /\ (random k < 1)%Q) ->
  (m <= length (names st))%nat -> (i < length (names st))%nat ->
  isUsed (App.s_state (snd (draw_names random m (App.initial st)))) App.names_t i = true
  <-> Some i ∈ fst (draw_names random m (App.initial st)).
Proof.
  intros Hnr Hfull Hr Hm Hi.
  destruct (draw_names_invariant random Hr m (App.initial st)) as (drawn & H1 & _ & H3 & _).
  - exact Hnr.
  - unfold name_pool. cbn [App.initial App.s_state]. rewrite Hfull. apply indices_all_lt.
  - unfold name_pool. cbn [App.initial App.s_state]. rewrite Hfull.
    unfold JS.indices. rewrite length_seq. exact Hm.
  - unfold name_pool in H3.
    change (availableNamesIndices (App.s_state (App.initial st)))
      with (availableNamesIndices st) in H3.
    rewrite Hfull in H3. unfold JS.indices in H3.
    set (pool := availableNamesIndices
                   (App.s_state (snd (draw_names random m (App.initial st))))) in *.
    assert (Hnd : NoDup (drawn ++ pool)) by (rewrite H3; apply NoDup_seq).
    assert (Hin : i ∈ drawn ++ pool).
    { rewrite H3. apply elem_of_seq. lia. }
    apply NoDup_app in Hnd as (_ & Hdisj & _).
    unfold isUsed. rewrite (draw_names_flag random m (App.initial st)).
    cbn [App.initial App.s_state]. rewrite Hnr. cbn [andb]. fold pool.
    rewrite H1, negb_true_iff, <- not_true_iff_false, existsb_eqb_elem_of.
    rewrite list_elem_of_fmap. apply elem_of_app in Hin. split.
    + intros Hnot. destruct Hin as [Hd|Hp]; [|contradiction]. exists i. auto.
    + intros (i' & [= <-] & Hd). apply Hdisj. exact Hd.
Qed.

Lemma used_items_are_the_drawn_ones_witness :
  isUsed (App.s_state (snd (draw_names (fun _ => 1 # 2) 2 (App.initial no_repeat_defaults))))
    App.names_t 3 = true
  <-> Some 3%nat ∈ fst (draw_names (fun _ => 1 # 2) 2 (App.initial no_repeat_defaults)).
Proof.
  apply (used_items_are_the_drawn_ones no_repeat_defaults (fun _ => 1 # 2) 2 3).
  - reflexivity.
  - reflexivity.
  - intros k. split; [unfold Qle; simpl; lia|reflexivity].
  - simpl. lia.
  - simpl. lia.
Defined.

(** ** Adding items *)

Lemma trimStart_eq s :
  App.trimStart s =
    match App.white_space s with Some r => App.trimStart r | None => s end.
Proof.
  destruct s as [|a [|b [|c r3]]]; cbn [App.trimStart App.white_space];
    try reflexivity.
  - destruct (App.space1 a); reflexivity.
  - destruct (App.space1 a); [reflexivity|]. destruct (App.space2 a b); reflexivity.
  - destruct (App.space1 a); [reflexivity|]. destruct (App.space2 a b); [reflexivity|].
    destruct (App.space3 a b c); reflexivity.
Qed.

Lemma white_space_shorter s r :
  App.white_space s = Some r -> (String.length r < String.length s)%nat.
Proof.
  destruct s as [|a [|b [|c r3]]]; cbn [App.white_space]; try discriminate.
  - destruct (App.space1 a); [|discriminate]. intros [= <-]. simpl. lia.
  - destruct (App.space1 a); [intros [= <-]; simpl; lia|].
    destruct (App.space2 a b); [|discriminate]. intros [= <-]. simpl. lia.
  - destruct (App.space1 a); [intros [= <-]; simpl; lia|].
    destruct (App.space2 a b); [intros [= <-]; simpl; lia|].
    destruct (App.space3 a b c); [|discriminate]. intros [= <-]. simpl. lia.
Qed.

Lemma white_space_app p q r :
  App.white_space p = Some r -> App.white_space (p ++ q) = Some (r ++ q)%string.
Proof.
  destruct p as [|a [|b [|c r3]]]; cbn [App.white_space]; try discriminate.
  - destruct (App.space1 a) eqn:H1; [|discriminate]. intros [= <-].
    change (String a "" ++ q)%string with (String a q).
    cbn [App.white_space]. rewrite H1. reflexivity.
  - change (String a (String b "") ++ q)%string with (String a (String b q)).
    cbn [App.white_space].
    destruct (App.space1 a) eqn:H1; [intros [= <-]; reflexivity|].
    destruct (App.space2 a b) eqn:H2; [|discriminate]. intros [= <-]. reflexivity.
  - change (String a (String b (String c r3)) ++ q)%string
      with (String a (String b (String c (r3 ++ q)))).
    cbn [App.white_space].
    destruct (App.space1 a) eqn:H1; [intros [= <-]; reflexivity|].
    destruct (App.space2 a b) eqn:H2; [intros [= <-]; reflexivity|].
    destruct (App.space3 a b c) eqn:H3; [|discriminate]. intros [= <-]. reflexivity.
Qed.

(** Induction on white space stripped from the head. *)
Lemma white_space_ind (P : string -> Prop) :
  (forall s, App.white_space s = None -> P s) ->
  (forall s r, App.white_space s = Some r -> P r -> P s) ->
  forall s, P s.
Proof.
  intros Hnone Hsome s.
  remember (String.length s) as n eqn:En. revert s En.
  induction n as [n IH] using lt_wf_ind. intros s ->.
  destruct (App.white_space s) as [r|] eqn:E.
  - apply (Hsome s r E). apply (IH (String.length r)); [|reflexivity].
    apply white_space_shorter. exact E.
  - apply Hnone. exact E.
Qed.

Lemma trimStart_head s :
  App.trimStart s = "" \/ App.white_space (App.trimStart s) = None.
Proof.
  induction s as [s E|s r E IH] using white_space_ind; rewrite trimStart_eq, E.
  - right. exact E.
  - exact IH.
Qed.

Lemma trimStart_idem s : App.trimStart (App.trimStart s) = App.trimStart s.
Proof.
  destruct (trimStart_head s) as [E|E].
  - rewrite E. reflexivity.
  - rewrite (trimStart_eq (App.trimStart s)), E. reflexivity.
Qed.

Lemma blank_app p q :
  App.blank p = true -> App.trimStart (p ++ q) = App.trimStart q.
Proof.
  unfold App.blank.
  induction p as [p E|p r E IH] using white_space_ind; rewrite (trimStart_eq p), E.
  - destruct p; [reflexivity|discriminate].
  - intros H. rewrite (trimStart_eq (p ++ q)), (white_space_app p q r E).
    apply IH. exact H.
Qed.

Lemma trimEnd_eq c s :
  App.trimEnd (String c s) =
    if App.blank (String c s) then "" else String c (App.trimEnd s).
Proof. reflexivity. Qed.

(** [trimEnd s] is [s] without a blank end. *)
Lemma trimEnd_prefix s :
  exists q, s = (App.trimEnd s ++ q)%string /\ App.blank q = true.
Proof.
  induction s as [|c s (q & Hs & Hq)]; [exists ""; split; reflexivity|].
  rewrite trimEnd_eq. destruct (App.blank (String c s)) eqn:B.
  - exists (String c s). split; [reflexivity|exact B].
  - exists q. split; [|exact Hq].
    change (String c (App.trimEnd s) ++ q)%string with (String c (App.trimEnd s ++ q)).
    rewrite <- Hs. reflexivity.
Qed.

Lemma trimEnd_idem s : App.trimEnd (App.trimEnd s) = App.trimEnd s.
Proof.
  induction s as [|c s IH]; [reflexivity|].
  rewrite trimEnd_eq. destruct (App.blank (String c s)) eqn:B; [reflexivity|].
  rewrite trimEnd_eq.
  destruct (App.blank (String c (App.trimEnd s))) eqn:B'; [|rewrite IH; reflexivity].
  destruct (trimEnd_prefix s) as (q & Hs & Hq).
  pose proof (blank_app _ q B') as H.
  change (String c (App.trimEnd s) ++ q)%string
    with (String c (App.trimEnd s ++ q)) in H.
  rewrite <- Hs in H. unfold App.blank in B, Hq. rewrite H in B.
  destruct (App.trimStart q); discriminate.
Qed.

Lemma trimEnd_white_space t :
  App.white_space t = None -> App.white_space (App.trimEnd t) = None.
Proof.
  intros Ht. destruct (App.white_space (App.trimEnd t)) as [r|] eqn:E; [|reflexivity].
  destruct (trimEnd_prefix t) as (q & Hs & _).
  apply (white_space_app _ q) in E. rewrite <- Hs in E. congruence.
Qed.

Lemma trim_idem s : App.trim (App.trim s) = App.trim s.
Proof.
  unfold App.trim. destruct (trimStart_head s) as [E|E].
  - rewrite E. reflexivity.
  - rewrite (trimStart_eq (App.trimEnd _)), (trimEnd_white_space _ E).
    apply trimEnd_idem.
Qed.

Lemma chars_app s1 s2 :
  list_ascii_of_string (s1 ++ s2)%string
    = list_ascii_of_string s1 ++ list_ascii_of_string s2.
Proof. induction s1 as [|c s1 IH]; [reflexivity|]. simpl. f_equal. exact IH. Qed.

Lemma chars_white_space s r c :
  App.white_space s = Some r ->
  In c (list_ascii_of_string r) -> In c (list_ascii_of_string s).
Proof.
  destruct s as [|a [|b [|d r3]]]; cbn [App.white_space]; try discriminate.
  - destruct (App.space1 a); [|discriminate]. intros [= <-] [].
  - destruct (App.space1 a); [intros [= <-] H; right; exact H|].
    destruct (App.space2 a b); [|discriminate]. intros [= <-] [].
  - destruct (App.space1 a); [intros [= <-] H; right; exact H|].
    destruct (App.space2 a b); [intros [= <-] H; right; right; exact H|].
    destruct (App.space3 a b d); [|discriminate].
    intros [= <-] H. right. right. right. exact H.
Qed.

Lemma chars_trimStart s c :
  In c (list_ascii_of_string (App.trimStart s)) -> In c (list_ascii_of_string s).
Proof.
  induction s as [s E|s r E IH] using white_space_ind; rewrite trimStart_eq, E.
  - intros H; exact H.
  - intros H. apply (chars_white_space s r c E), IH, H.
Qed.

Lemma chars_trimEnd s c :
  In c (list_ascii_of_string (App.trimEnd s)) -> In c (list_ascii_of_string s).
Proof.
  destruct (trimEnd_prefix s) as (q & Hs & _). intros H.
  rewrite Hs, chars_app. apply in_or_app. left. exact H.
Qed.

Lemma chars_trim s c :
  In c (list_ascii_of_string (App.trim s)) -> In c (list_ascii_of_string s).
Proof. intros H. apply chars_trimStart, chars_trimEnd. exact H. Qed.

(** [trim] on a no-break space (C2 A0), a line separator (E2 80 A8) and
    a byte order mark (EF BB BF) around a name, and on a name made of
    no-break spaces only; white space inside a name stays. *)
Lemma trim_samples :
  App.trim (String "194" (String "160" ("Zed" ++ String "226" (String "128"
              (String "168" " "))))) = "Zed" /\
  App.trim (String "239" (String "187" (String "191" "A B"))) = "A B" /\
  App.trim (String "194" (String "160" (String "194" (String "160" "")))) = "".
Proof. vm_compute. repeat split. Qed.

Lemma split_from_no_sep s : forall cur b,
  (forall c, In c (list_ascii_of_string cur) -> App.is_sep c = false) ->
  Forall (fun p => forall c, In c (list_ascii_of_string p) -> App.is_sep c = false)
         (App.split_from s cur b).
Proof.
  induction s as [|d s IH]; intros cur b Hcur; cbn [App.split_from].
  - constructor; [exact Hcur|constructor].
  - destruct (App.is_sep d) eqn:Hd.
    + destruct b; [|constructor; [exact Hcur|]]; apply IH; intros c [].
    + apply IH. intros c Hc. rewrite chars_app in Hc. apply in_app_or in Hc.
      destruct Hc as [Hc|[<-|[]]]; [apply Hcur; exact Hc|exact Hd].
Qed.

Lemma includes_false l i : App.includes l i = false <-> i ∉ l.
Proof.
  unfold App.includes. rewrite <- not_true_iff_false, existsb_exists.
  split; intros H Hin; apply H.
  - exists i. split; [apply list_elem_of_In; exact Hin|apply String.eqb_refl].
  - destruct Hin as (x & Hx & He). apply String.eqb_eq in He. subst x.
    apply list_elem_of_In. exact Hx.
Qed.

Lemma length_0_empty s : String.length s = 0%nat -> s = "".
Proof. destruct s; [reflexivity|discriminate]. Qed.

(** X10.  [addItems] only appends, and only clean, new items: the old
    list stays as a prefix, every appended item is non-empty, has no
    white space at either end and was not in the old list, and an appended
    name holds no line break or tab; the other list and the history are
    untouched.  When nothing is appended (blank input, or items that all
    exist) the state is unchanged, and blank input does not even show a
    toast. *)
Theorem addItems_appends_clean_new_items (s : App.Store) (type : App.ListType)
    (value : string) :
  let st := App.s_state s in
  let st' := App.s_state (click_add type value s) in
  let list (x : AppState) :=
    match type with App.names_t => names x | App.tasks_t => tasks x end in
  let other (x : AppState) :=
    match type with App.names_t => tasks x | App.tasks_t => names x end in
  (exists added,
     list st' = list st ++ added /\
     Forall (fun i => clean_item i /\ (i ∉ list st) /\
                      (type = App.names_t -> single_line i)) added /\
     (added = [] -> st' = st) /\
     (added <> [] ->
      App.s_effects (click_add type value s) =
        App.s_effects s ++
          [match type with
           | App.names_t => App.ClearNameInput
           | App.tasks_t => App.ClearTaskInput
           end;
           App.Toast (App.nat_to_string (length added) ++ " item(s) added.")%string])) /\
  other st' = other st /\ history st' = history st /\
  (App.trim value = "" -> click_add type value s = s).
Proof.
  cbv zeta. unfold click_add, App.dispatch, App.addItems.
  destruct (String.length (App.trim value) =? 0)%nat eqn:Hblank.
  { cbn. split; [|destruct type; auto].
    exists []. rewrite app_nil_r. repeat split; [constructor|congruence]. }
  apply Nat.eqb_neq in Hblank.
  cbv zeta.
  match goal with |- context [(0 <? length ?u)%nat] => set (added := u) end.
  assert (Hclean : Forall (fun i => clean_item i /\
                     (i ∉ match type with
                          | App.names_t => names (App.s_state s)
                          | App.tasks_t => tasks (App.s_state s)
                          end) /\
                     (type = App.names_t -> single_line i)) added).
  { apply Forall_forall. intros i Hi. subst added.
    apply list_elem_of_filter in Hi as [Hnew Hi]. apply includes_false in Hnew.
    destruct type.
    - apply list_elem_of_filter in Hi as [Hlen Hi]. apply Nat.ltb_lt in Hlen.
      apply list_elem_of_fmap in Hi as (p & -> & Hp).
      split; [split; [intros E; rewrite E in Hlen; simpl in Hlen; lia|apply trim_idem]|].
      split; [exact Hnew|].
      intros _ c Hc. apply chars_trim in Hc.
      pose proof (split_from_no_sep value "" false (fun c (H : In c []) => match H with end))
        as Hall.
      rewrite Forall_forall in Hall. apply (Hall p Hp c Hc).
    - apply list_elem_of_singleton in Hi. subst i.
      split; [split; [intros E; rewrite E in Hblank; simpl in Hblank; lia|apply trim_idem]|].
      split; [exact Hnew|discriminate]. }
  destruct (0 <? length added)%nat eqn:Hlen.
  - split; [|repeat split; try (destruct type; reflexivity);
             intros E; rewrite E in Hblank; simpl in Hblank; lia].
    exists added. split; [destruct type; reflexivity|]. split; [exact Hclean|].
    split; [intros E; rewrite E in Hlen; discriminate|].
    intros _. destruct type; cbn; rewrite <- app_assoc; reflexivity.
  - assert (E : added = []).
    { destruct added; [reflexivity|discriminate]. }
    split; [|repeat split; try (destruct type; reflexivity);
             intros E'; rewrite E' in Hblank; simpl in Hblank; lia].
    exists []. rewrite app_nil_r.
    split; [destruct type; reflexivity|]. split; [constructor|].
    split; [reflexivity|congruence].
Qed.

Lemma tasks_step (s : App.Store) (e : Event) :
  let l := tasks (App.s_state s) in
  let l' := tasks (App.s_state (step s e)) in
  l' = l \/ l' = [] \/ (exists i, l' = delete i l) \/ (exists t, (t ∉ l) /\ l' = l ++ [t]).
Proof.
  cbv zeta. destruct e; cbn [step].
  - destruct (handleDraw_state s random engine now time) as ((_ & H & _) & _). tauto.
  - unfold animation_end, App.dispatch, App.handleInteractiveEnd.
    destruct (App.s_currentWinner s) as [[name idx]|]; cbn; tauto.
  - unfold click_add, App.dispatch, App.addItems.
    destruct (String.length (App.trim value) =? 0)%nat; [tauto|]. cbv zeta.
    destruct type.
    + destruct (0 <? _)%nat; cbn; tauto.
    + cbn [filter]. unfold filter. cbn [list_filter].
      destruct (decide (App.includes (tasks (App.s_state s)) (App.trim value) = false))
        as [Hnew|Hold].
      * cbn. right. right. right. exists (App.trim value).
        split; [apply includes_false; exact Hnew|reflexivity].
      * cbn. tauto.
  - unfold click_remove, App.dispatch, App.removeItem.
    destruct type; cbn; [tauto|]. right. right. left. eexists. reflexivity.
  - unfold click_clear, App.dispatch, App.clearList. destruct type; cbn; tauto.
  - rewrite shuffleNames_state. cbn. tauto.
  - unfold click_name_toggle, App.dispatch, App.toggleNameNoRepeat.
    destruct (isNameNoRepeat (App.s_state s)); cbn; tauto.
  - unfold click_task_toggle, App.dispatch, App.toggleTaskNoRepeat.
    destruct (isTaskNoRepeat (App.s_state s)); cbn; tauto.
  - cbn. tauto.
  - unfold click_interactive_mode, App.dispatch.
    destruct (App.s_isSpinning s); cbn; tauto.
  - cbn. tauto.
  - cbn. tauto.
Qed.

(** X11.  The task list never holds a task twice: if its items are
    pairwise distinct, they still are after any sequence of events of the
    page. *)
Theorem task_list_never_repeats (s : App.Store) (events : list Event) :
  NoDup (tasks (App.s_state s)) -> NoDup (tasks (App.s_state (run events s))).
Proof.
  intros H0. induction events as [|e events IH] using rev_ind; [exact H0|].
  rewrite run_snoc.
  destruct (tasks_step (run events s) e) as [E|[E|[[i E]|(t & Ht & E)]]]; rewrite E.
  - exact IH.
  - constructor.
  - eapply sublist_NoDup; [exact IH|apply sublist_delete].
  - apply NoDup_app. split; [exact IH|]. split.
    + intros x Hx Hx'. apply list_elem_of_singleton in Hx'. subst x. contradiction.
    + apply NoDup_singleton.
Qed.

Lemma task_list_never_repeats_witness :
  NoDup (tasks (App.s_state
    (run [SelectMode paired; AddItems App.tasks_t "read"; AddItems App.tasks_t " read ";
          AddItems App.tasks_t "write"; RemoveItem App.tasks_t 0]
       (App.initial DEFAULT_STATE)))).
Proof.
  apply (task_list_never_repeats (App.initial DEFAULT_STATE)).
  simpl. constructor.
Defined.

Lemma string_app_assoc (a b c : string) : ((a ++ b) ++ c = a ++ (b ++ c))%string.
Proof.
  induction a as [|x a IH]; [reflexivity|].
  change (String x ((a ++ b) ++ c) = String x (a ++ (b ++ c)))%string.
  rewrite IH. reflexivity.
Qed.

Lemma string_app_nil_r (a : string) : (a ++ "" = a)%string.
Proof.
  induction a as [|x a IH]; [reflexivity|].
  change (String x (a ++ "") = String x a)%string. rewrite IH. reflexivity.
Qed.

Lemma split_from_line (x : string) : forall (rest cur : string) (c : ascii) (b : bool),
  single_line (String c x) ->
  App.split_from (String c x ++ rest) cur b
    = App.split_from rest (cur ++ String c x) false.
Proof.
  induction x as [|d x IH]; intros rest cur c b Hx.
  - change (String c "" ++ rest)%string with (String c rest).
    cbn [App.split_from]. rewrite (Hx c) by (left; reflexivity).
    reflexivity.
  - change (String c (String d x) ++ rest)%string
      with (String c (String d x ++ rest))%string.
    cbn [App.split_from]. rewrite (Hx c) by (left; reflexivity).
    rewrite IH.
    + rewrite string_app_assoc. reflexivity.
    + intros e He. apply Hx. right. exact He.
Qed.

Lemma clean_head x : clean_item x -> App.white_space x = None.
Proof.
  intros [Hne Htrim]. unfold App.trim in Htrim.
  destruct (trimStart_head x) as [E|E].
  - rewrite E in Htrim. simpl in Htrim. congruence.
  - rewrite <- Htrim. apply trimEnd_white_space. exact E.
Qed.

(** A line break after a name does not complete a white-space character
    that the name's last bytes started. *)
Lemma white_space_line x r :
  App.white_space x = None -> x <> "" ->
  App.white_space (x ++ String "010" r) = None.
Proof.
  destruct x as [|a [|b [|c x3]]]; [congruence| | |]; intros H _.
  - change (String a "" ++ String "010" r)%string with (String a (String "010" r)).
    cbn [App.white_space] in *.
    destruct (App.space1 a); [discriminate|].
    unfold App.space2. cbn [nat_of_ascii]. rewrite andb_false_r.
    destruct r; [reflexivity|]. reflexivity.
  - change (String a (String b "") ++ String "010" r)%string
      with (String a (String b (String "010" r))).
    cbn [App.white_space] in *.
    destruct (App.space1 a); [discriminate|].
    destruct (App.space2 a b); [discriminate|].
    unfold App.space3. cbv zeta.
    change (nat_of_ascii "010") with 10%nat.
    cbn [Nat.eqb Nat.leb andb orb].
    rewrite !andb_false_r. reflexivity.
  - change (String a (String b (String c x3)) ++ String "010" r)%string
      with (String a (String b (String c (x3 ++ String "010" r)))).
    cbn [App.white_space] in *.
    destruct (App.space1 a); [discriminate|].
    destruct (App.space2 a b); [discriminate|].
    destruct (App.space3 a b c); [discriminate|]. reflexivity.
Qed.

Lemma trim_not_blank s :
  App.white_space s = None -> s <> "" -> exists c t, App.trim s = String c t.
Proof.
  intros H Hne. unfold App.trim. rewrite trimStart_eq, H.
  destruct s as [|c s]; [congruence|]. rewrite trimEnd_eq.
  unfold App.blank. rewrite trimStart_eq, H. eauto.
Qed.

(** X12.  Names are checked against the stored list only, not against
    each other: pasting a clean new name on two lines appends it twice. *)
Theorem pasted_duplicate_is_added_twice (s : App.Store) (x : string) :
  clean_item x -> single_line x -> x ∉ names (App.s_state s) ->
  names (App.s_state (click_add App.names_t (x ++ String "010" x) s))
    = names (App.s_state s) ++ [x; x] /\
  ~ NoDup (names (App.s_state (click_add App.names_t (x ++ String "010" x) s))).
Proof.
  intros Hclean Hline Hnew.
  pose proof (clean_head x Hclean) as Hhead. destruct Hclean as [Hne Htrim].
  destruct x as [|c x]; [congruence|].
  assert (Hsplit : App.split (String c x ++ String "010" (String c x))
                   = [String c x; String c x]).
  { unfold App.split. rewrite (split_from_line x _ "" c false Hline).
    change ("" ++ String c x)%string with (String c x).
    change (App.split_from (String "010" (String c x)) (String c x) false)
      with (String c x :: App.split_from (String c x) "" true).
    f_equal.
    pose proof (split_from_line x "" "" c true Hline) as H.
    rewrite string_app_nil_r in H. rewrite H. reflexivity. }
  assert (E : names (App.s_state (click_add App.names_t
                 (String c x ++ String "010" (String c x)) s))
              = names (App.s_state s) ++ [String c x; String c x]).
  { unfold click_add, App.dispatch, App.addItems.
    destruct (trim_not_blank (String c x ++ String "010" (String c x)))
      as (d & t & ->); [apply white_space_line; [exact Hhead|exact Hne]|discriminate|].
    cbn [String.length Nat.eqb].
    cbv zeta. rewrite Hsplit. cbn [map]. rewrite Htrim.
    apply includes_false in Hnew.
    assert (F1 : filter (fun i => (0 <? String.length i)%nat = true)
                   [String c x; String c x] = [String c x; String c x])
      by (rewrite !filter_cons_True by reflexivity; reflexivity).
    assert (F2 : filter (fun i => App.includes (names (App.s_state s)) i = false)
                   [String c x; String c x] = [String c x; String c x])
      by (rewrite !filter_cons_True by exact Hnew; reflexivity).
    rewrite F1, F2. reflexivity. }
  split; [exact E|]. rewrite E. intros Hnd.
  apply NoDup_app in Hnd as (_ & _ & Hnd).
  apply NoDup_cons in Hnd as [Hnd _]. apply Hnd. left.
Qed.

Lemma pasted_duplicate_is_added_twice_witness :
  names (App.s_state (click_add App.names_t ("Eve" ++ String "010" "Eve")
                        (App.initial DEFAULT_STATE)))
    = names DEFAULT_STATE ++ ["Eve"; "Eve"].
Proof.
  apply (pasted_duplicate_is_added_twice (App.initial DEFAULT_STATE) "Eve").
  - split; [discriminate|reflexivity].
  - intros c H. simpl in H. destruct H as [<-|[<-|[<-|[]]]]; reflexivity.
  - simpl. intros H.
    repeat (apply elem_of_cons in H as [H|H]; [discriminate|]).
    inversion H.
Defined.

(** ** Shuffling the names *)

Lemma delete_insert_same {A} (l : list A) (i : nat) (x : A) :
  delete i (<[i := x]> l) = delete i l.
Proof.
  revert i. induction l as [|y l IH]; intros [|i]; cbn; try reflexivity.
  f_equal. apply IH.
Qed.

Lemma swap_Permutation (a : list string) (i j : nat) : App.swap a i j ≡ₚ a.
Proof.
  unfold App.swap. destruct (a !! i) as [x|] eqn:Hi; [|reflexivity].
  destruct (a !! j) as [y|] eqn:Hj; [|reflexivity].
  destruct (decide (i = j)) as [->|Hne].
  - assert (x = y) by congruence. subst y.
    rewrite (list_insert_id a j x Hi). rewrite (list_insert_id a j x Hi). reflexivity.
  - set (l' := <[i := y]> a).
    assert (Hl'j : l' !! j = Some y).
    { unfold l'. rewrite list_lookup_insert_ne by exact Hne. exact Hj. }
    assert (H1 : l' ≡ₚ y :: delete i a).
    { unfold l'. rewrite <- (delete_insert_same a i y).
      apply delete_Permutation. apply list_lookup_insert_eq.
      apply lookup_lt_Some in Hi. exact Hi. }
    assert (H2 : l' ≡ₚ y :: delete j l') by (apply delete_Permutation; exact Hl'j).
    assert (H3 : delete j l' ≡ₚ delete i a).
    { apply (Permutation_cons_inv (a := y)). rewrite <- H1, <- H2. reflexivity. }
    assert (H4 : <[j := x]> l' ≡ₚ x :: delete j l').
    { rewrite <- (delete_insert_same l' j x).
      apply delete_Permutation. apply list_lookup_insert_eq.
      apply lookup_lt_Some in Hl'j. exact Hl'j. }
    rewrite H4, H3. symmetry. apply delete_Permutation. exact Hi.
Qed.

Lemma shuffle_loop_Permutation random i : forall k l,
  fst (App.shuffle_loop random i k l) ≡ₚ l.
Proof.
  induction i as [|i IH]; intros k l; cbn [App.shuffle_loop]; [reflexivity|].
  cbv zeta. rewrite IH. apply swap_Permutation.
Qed.

(** X13.  [shuffleNames] loses and invents nothing: the new name list is
    a rearrangement of the old one, of the same length; the shuffle calls
    [Math.random()] once for each position but the first, clears the
    history and leaves the tasks alone. *)
Theorem shuffleNames_rearranges (s : App.Store) (random : nat -> Q) :
  let st := App.s_state s in
  let s' := click_shuffle random s in
  names (App.s_state s') ≡ₚ names st /\
  length (names (App.s_state s')) = length (names st) /\
  App.s_calls s' = (App.s_calls s + (length (names st) - 1))%nat /\
  history (App.s_state s') = [] /\
  tasks (App.s_state s') = tasks st /\
  availableTasksIndices (App.s_state s') = availableTasksIndices st /\
  App.s_effects s' = App.s_effects s ++ [App.Toast "Names shuffled & history cleared."].
Proof.
  cbv zeta. rewrite shuffleNames_state. cbn [merge fold_left assign names history tasks
                                             availableTasksIndices].
  split; [apply shuffle_loop_Permutation|].
  split; [apply shuffle_loop_length|].
  unfold click_shuffle, App.dispatch, App.shuffleNames.
  pose proof (shuffle_loop_calls random (length (names (App.s_state s)) - 1)
                (App.s_calls s) (names (App.s_state s))) as Hk.
  destruct (App.shuffle_loop _ _ _ _) as [shuffled k]. cbn [snd] in Hk. subst k.
  cbn. repeat split. lia.
Qed.

Lemma swap_lookup_other (a : list string) (i j m : nat) :
  m <> i -> m <> j -> App.swap a i j !! m = a !! m.
Proof.
  intros Hi Hj. unfold App.swap.
  destruct (a !! i) as [x|]; [|reflexivity]. destruct (a !! j) as [y|]; [|reflexivity].
  rewrite !list_lookup_insert_ne by congruence. reflexivity.
Qed.

Lemma swap_lookup_first (a : list string) (i j : nat) :
  (i < length a)%nat -> (j < length a)%nat -> App.swap a i j !! i = a !! j.
Proof.
  intros Hi Hj. unfold App.swap.
  destruct (lookup_lt_is_Some_2 _ _ Hi) as [x Hx].
  destruct (lookup_lt_is_Some_2 _ _ Hj) as [y Hy]. rewrite Hx, Hy.
  destruct (decide (i = j)) as [->|Hne].
  - rewrite list_lookup_insert_eq by (rewrite length_insert; exact Hj). congruence.
  - rewrite list_lookup_insert_ne by congruence.
    rewrite list_lookup_insert_eq by exact Hi. reflexivity.
Qed.

Lemma shuffle_loop_above (random : nat -> Q) :
  (forall k, (0 <= random k)%Q /\ (random k < 1)%Q) ->
  forall i k l m, (i < m)%nat ->
    fst (App.shuffle_loop random i k l) !! m = l !! m.
Proof.
  intros Hr. induction i as [|i IH]; intros k l m Hm; cbn [App.shuffle_loop];
    [reflexivity|].
  cbv zeta. rewrite IH by lia.
  assert (Hj : (JS.randomIndex (random k) (S i + 1) < S i + 1)%nat)
    by (apply randomIndex_lt; try apply Hr; lia).
  apply swap_lookup_other; lia.
Qed.

Lemma shuffle_loop_top (random : nat -> Q) (i k : nat) (l : list string) :
  (forall k, (0 <= random k)%Q /\ (random k < 1)%Q) ->
  (S i < length l)%nat ->
  fst (App.shuffle_loop random (S i) k l) !! S i
    = l !! JS.randomIndex (random k) (S i + 1).
Proof.
  intros Hr Hi. cbn [App.shuffle_loop]. cbv zeta.
  rewrite (shuffle_loop_above random Hr) by lia.
  assert (Hj : (JS.randomIndex (random k) (S i + 1) < S i + 1)%nat)
    by (apply randomIndex_lt; try apply Hr; lia).
  apply swap_lookup_first; lia.
Qed.

Lemma shuffle_loop_choices (r1 r2 : nat -> Q) :
  (forall k, (0 <= r1 k)%Q /\ (r1 k < 1)%Q) ->
  (forall k, (0 <= r2 k)%Q /\ (r2 k < 1)%Q) ->
  forall i k l, NoDup l -> (i < length l)%nat ->
    fst (App.shuffle_loop r1 i k l) = fst (App.shuffle_loop r2 i k l) ->
    forall t, (t < i)%nat ->
      JS.randomIndex (r1 (k + t)%nat) (i - t + 1)
        = JS.randomIndex (r2 (k + t)%nat) (i - t + 1).
Proof.
  intros H1 H2. induction i as [|i IH]; intros k l Hnd Hi Heq t Ht; [lia|].
  pose proof (shuffle_loop_top r1 i k l H1 Hi) as T1.
  pose proof (shuffle_loop_top r2 i k l H2 Hi) as T2.
  rewrite Heq, T2 in T1.
  set (j1 := JS.randomIndex (r1 k) (S i + 1)) in *.
  set (j2 := JS.randomIndex (r2 k) (S i + 1)) in *.
  assert (Hj2 : (j2 < S i + 1)%nat) by (apply randomIndex_lt; try apply H2; lia).
  assert (Hj : j1 = j2).
  { destruct (lookup_lt_is_Some_2 l j2) as [x Hx]; [lia|].
    rewrite Hx in T1. symmetry in T1. exact (NoDup_lookup l j1 j2 x Hnd T1 Hx). }
  destruct t as [|t].
  - rewrite Nat.add_0_r, Nat.sub_0_r. exact Hj.
  - cbn [App.shuffle_loop] in Heq. cbv zeta in Heq. fold j1 j2 in Heq. rewrite Hj in Heq.
    replace (k + S t)%nat with (S k + t)%nat by lia.
    replace (S i - S t)%nat with (i - t)%nat by lia.
    apply (IH (S k) (App.swap l (S i) j2)).
    + rewrite swap_Permutation. exact Hnd.
    + rewrite swap_length. lia.
    + exact Heq.
    + lia.
Qed.

Lemma shuffle_loop_ext (r1 r2 : nat -> Q) : forall i k l,
  (forall n, (k <= n)%nat -> r1 n = r2 n) ->
  App.shuffle_loop r1 i k l = App.shuffle_loop r2 i k l.
Proof.
  induction i as [|i IH]; intros k l H; cbn [App.shuffle_loop]; [reflexivity|].
  cbv zeta. rewrite (H k) by lia. apply IH. intros n Hn. apply H. lia.
Qed.

Lemma randomIndex_ratio (j n : nat) :
  (j < n)%nat ->
  JS.randomIndex (inject_Z (Z.of_nat j) / inject_Z (Z.of_nat n))%Q n = j.
Proof.
  intros Hj. unfold JS.randomIndex, JS.floor.
  assert (E : (inject_Z (Z.of_nat j) / inject_Z (Z.of_nat n) * inject_Z (Z.of_nat n)
               == inject_Z (Z.of_nat j))%Q).
  { field. intros H. apply (proj1 (inject_Z_injective _ 0%Z)) in H. lia. }
  rewrite (Qfloor_comp _ _ E), Qfloor_Z. apply Nat2Z.id.
Qed.

Lemma ratio_range (j n : nat) :
  (j < n)%nat ->
  (0 <= inject_Z (Z.of_nat j) / inject_Z (Z.of_nat n))%Q /\
  (inject_Z (Z.of_nat j) / inject_Z (Z.of_nat n) < 1)%Q.
Proof.
  intros Hj.
  assert (Hn : (0 < inject_Z (Z.of_nat n))%Q).
  { change 0%Q with (inject_Z 0). rewrite <- Zlt_Qlt. lia. }
  split.
  - apply Qle_shift_div_l; [exact Hn|]. rewrite Qmult_0_l.
    change 0%Q with (inject_Z 0). rewrite <- Zle_Qle. lia.
  - apply Qlt_shift_div_r; [exact Hn|]. rewrite Qmult_1_l.
    rewrite <- Zlt_Qlt. lia.
Qed.

Lemma agree_above_0 (p l : list string) :
  p ≡ₚ l -> (forall m, (0 < m)%nat -> p !! m = l !! m) -> p = l.
Proof.
  intros Hp Ha. destruct p as [|a p], l as [|b l].
  - reflexivity.
  - apply Permutation_nil_l in Hp. discriminate.
  - apply Permutation_nil_r in Hp. discriminate.
  - assert (p = l).
    { apply list_eq. intros m. apply (Ha (S m)). lia. }
    subst p. f_equal.
    apply (Permutation_app_inv_r l [a] [b]) in Hp.
    apply Permutation_singleton_inj in Hp. exact Hp.
Qed.

Lemma shuffle_loop_reaches : forall i k l p,
  (i < length l)%nat \/ i = 0%nat ->
  p ≡ₚ l -> (forall m, (i < m)%nat -> p !! m = l !! m) ->
  exists random : nat -> Q,
    (forall n, (0 <= random n)%Q /\ (random n < 1)%Q) /\
    fst (App.shuffle_loop random i k l) = p.
Proof.
  induction i as [|i IH]; intros k l p Hi Hp Ha.
  - exists (fun _ => 0%Q). split; [intros n; split; [apply Qle_refl|reflexivity]|].
    cbn [App.shuffle_loop fst]. symmetry. apply agree_above_0; assumption.
  - destruct Hi as [Hi|Hi]; [|discriminate].
    assert (Hlen : length p = length l) by (apply Permutation_length; exact Hp).
    destruct (lookup_lt_is_Some_2 p (S i)) as [x Hx]; [lia|].
    assert (Hdrop : drop (S (S i)) p = drop (S (S i)) l).
    { apply list_eq. intros m. rewrite !lookup_drop. apply Ha. lia. }
    assert (Htake : take (S (S i)) p ≡ₚ take (S (S i)) l).
    { apply (Permutation_app_inv_r (drop (S (S i)) l)).
      rewrite <- Hdrop at 1. rewrite !take_drop. exact Hp. }
    assert (Hin : x ∈ take (S (S i)) l).
    { rewrite <- Htake. apply elem_of_take. exists (S i). split; [exact Hx|lia]. }
    apply elem_of_take in Hin as (j & Hj & Hjlt).
    set (l' := App.swap l (S i) j).
    destruct (IH (S k) l' p) as (r' & Hr' & Er').
    + left. unfold l'. rewrite swap_length. lia.
    + unfold l'. rewrite swap_Permutation. exact Hp.
    + intros m Hm. unfold l'. destruct (decide (m = S i)) as [->|Hne].
      * rewrite swap_lookup_first; [congruence|lia|].
        apply lookup_lt_Some in Hj. exact Hj.
      * rewrite swap_lookup_other by lia. apply Ha. lia.
    + exists (fun n => if (n =? k)%nat
                       then (inject_Z (Z.of_nat j) / inject_Z (Z.of_nat (S i + 1)))%Q
                       else r' n).
      split.
      * intros n. destruct (n =? k)%nat; [apply ratio_range; lia|apply Hr'].
      * cbn [App.shuffle_loop]. cbv zeta. rewrite Nat.eqb_refl.
        rewrite randomIndex_ratio by lia. fold l'. rewrite <- Er'.
        f_equal. apply shuffle_loop_ext. intros n Hn.
        destruct (n =? k)%nat eqn:E; [apply Nat.eqb_eq in E; lia|reflexivity].
Qed.

(** X14.  The Fisher-Yates loop of [shuffleNames] is unbiased.  On a
    list of [n] distinct names, two runs that end in the same order made
    the same choice [Math.floor(Math.random() * (i + 1))] at every step,
    and every order of the names is the result of some run.  The runs are
    thus in one-to-one correspondence with the [n!] orders; the choices
    of a run being independent and uniform on [0..i], every order has
    probability [1/n!]. *)
Theorem shuffleNames_is_unbiased (s : App.Store) :
  let st := App.s_state s in
  let n := length (names st) in
  NoDup (names st) ->
  (forall r1 r2 : nat -> Q,
     (forall k, (0 <= r1 k)%Q /\ (r1 k < 1)%Q) ->
     (forall k, (0 <= r2 k)%Q /\ (r2 k < 1)%Q) ->
     names (App.s_state (click_shuffle r1 s)) = names (App.s_state (click_shuffle r2 s)) ->
     forall t, (t < n - 1)%nat ->
       JS.randomIndex (r1 (App.s_calls s + t)%nat) (n - t)
         = JS.randomIndex (r2 (App.s_calls s + t)%nat) (n - t)) /\
  (forall p, p ≡ₚ names st ->
     exists random : nat -> Q,
       (forall k, (0 <= random k)%Q /\ (random k < 1)%Q) /\
       names (App.s_state (click_shuffle random s)) = p).
Proof.
  cbv zeta. intros Hnd. split.
  - intros r1 r2 H1 H2 Heq t Ht. rewrite !shuffleNames_state in Heq.
    cbn [merge fold_left assign names] in Heq.
    replace (length (names (App.s_state s)) - t)%nat
      with (length (names (App.s_state s)) - 1 - t + 1)%nat by lia.
    apply (shuffle_loop_choices r1 r2 H1 H2 _ _ (names (App.s_state s))); try assumption; lia.
  - intros p Hp.
    destruct (shuffle_loop_reaches (length (names (App.s_state s)) - 1) (App.s_calls s)
                (names (App.s_state s)) p) as (random & Hr & E).
    + destruct (names (App.s_state s)); [right; reflexivity|left; simpl; lia].
    + exact Hp.
    + intros m Hm. apply Permutation_length in Hp.
      rewrite !lookup_ge_None_2 by lia. reflexivity.
    + exists random. split; [exact Hr|]. rewrite shuffleNames_state. exact E.
Qed.

Lemma shuffleNames_is_unbiased_witness :
  exists random : nat -> Q,
    (forall k, (0 <= random k)%Q /\ (random k < 1)%Q) /\
    names (App.s_state (click_shuffle random (App.initial DEFAULT_STATE)))
      = ["Diana"; "Charlie"; "Bob"; "Alice"; "Jane"; "John"].
Proof.
  refine (proj2 (shuffleNames_is_unbiased (App.initial DEFAULT_STATE) _) _ _).
  - apply NoDup_ListNoDup. simpl. repeat constructor; simpl; intuition discriminate.
  - symmetry. apply (Permutation_rev ["John"; "Jane"; "Alice"; "Bob"; "Charlie"; "Diana"]).
Defined.

(** ** Rounds of tasks *)

Lemma draw_tasks_invariant (random : nat -> Q) :
  (forall k, (0 <= random k)%Q /\ (random k < 1)%Q) ->
  forall (m : nat) (s : App.Store),
    isTaskNoRepeat (App.s_state s) = true ->
    Forall (fun i => (i < length (tasks (App.s_state s)))%nat)
           (availableTasksIndices (App.s_state s)) ->
    (m <= length (availableTasksIndices (App.s_state s)))%nat ->
    exists order : list nat,
      fst (draw_tasks random m s) = map (App.at_index (tasks (App.s_state s))) order /\
      length order = m /\
      order ++ availableTasksIndices (App.s_state (snd (draw_tasks random m s)))
        ≡ₚ availableTasksIndices (App.s_state s) /\
      tasks (App.s_state (snd (draw_tasks random m s))) = tasks (App.s_state s) /\
      isTaskNoRepeat (App.s_state (snd (draw_tasks random m s))) = true.
Proof.
  intros Hr. induction m as [|m IH]; intros s Hnr Hall Hm.
  - exists []. simpl. auto.
  - set (pool := availableTasksIndices (App.s_state s)) in *.
    assert (Hpool : pool <> []) by (destruct pool; [simpl in Hm; lia|congruence]).
    assert (Htasks : tasks (App.s_state s) <> []).
    { intros E. destruct pool as [|p ps]; [congruence|].
      apply Forall_cons in Hall as [Hp _]. rewrite E in Hp. simpl in Hp. lia. }
    assert (Hc : task_candidates (App.s_state s) = pool).
    { unfold task_candidates. rewrite Hnr. apply filter_lt_all. exact Hall. }
    pose proof (selectTask_select (App.s_state s) random s Htasks) as Hd.
    rewrite Hc in Hd. specialize (Hd Hpool). cbv zeta in Hd. rewrite Hnr in Hd.
    set (j := JS.randomIndex (random (App.s_calls s)) (length pool)) in *.
    assert (Hj : (j < length pool)%nat).
    { apply randomIndex_lt; try apply Hr. destruct pool; [congruence|simpl; lia]. }
    destruct (lookup_lt_is_Some_2 pool j Hj) as [i Hi].
    cbn [draw_tasks]. unfold draw_task. rewrite Hd, Hi. cbn [mbind option_bind].
    match goal with |- context [draw_tasks random m ?t] => set (s1 := t) end.
    destruct (IH s1) as (order & Ho & Hlen & Hperm & Ht & Hf).
    + exact Hnr.
    + unfold s1, with_state. cbn [App.s_state assign availableTasksIndices tasks].
      apply Forall_delete. exact Hall.
    + unfold s1, with_state. cbn [App.s_state assign availableTasksIndices].
      rewrite length_delete by eauto. lia.
    + exists (i :: order).
      destruct (draw_tasks random m s1) as [l s2] eqn:E.
      cbn [fst snd] in *. rewrite Ho. repeat split.
      * simpl. lia.
      * cbn [app]. rewrite Hperm. unfold s1, with_state.
        cbn [App.s_state assign availableTasksIndices].
        symmetry. apply delete_Permutation. exact Hi.
      * rewrite Ht. reflexivity.
      * exact Hf.
Qed.

Lemma draw_tasks_app random a : forall b s,
  draw_tasks random (a + b) s =
    (fst (draw_tasks random a s) ++ fst (draw_tasks random b (snd (draw_tasks random a s))),
     snd (draw_tasks random b (snd (draw_tasks random a s)))).
Proof.
  induction a as [|a IH]; intros b s.
  - cbn. destruct (draw_tasks random b s). reflexivity.
  - cbn [Nat.add draw_tasks]. destruct (draw_task random s) as [t s1].
    rewrite IH. destruct (draw_tasks random a s1) as [l s2]. reflexivity.
Qed.

Lemma draw_tasks_round (random : nat -> Q) (s : App.Store) :
  (forall k, (0 <= random k)%Q /\ (random k < 1)%Q) ->
  let st := App.s_state s in
  let n := length (tasks st) in
  isTaskNoRepeat st = true -> tasks st <> [] ->
  availableTasksIndices st = JS.indices (tasks st) \/ availableTasksIndices st = [] ->
  fst (draw_tasks random n s) ≡ₚ tasks st /\
  isTaskNoRepeat (App.s_state (snd (draw_tasks random n s))) = true /\
  tasks (App.s_state (snd (draw_tasks random n s))) = tasks st /\
  availableTasksIndices (App.s_state (snd (draw_tasks random n s))) = [].
Proof.
  intros Hr st n Hnr Ht Hpool.
  assert (Hn : (0 < n)%nat) by (subst n; destruct (tasks st); [congruence|simpl; lia]).
  assert (Hseq : map (App.at_index (tasks st)) (seq 0 n) = tasks st)
    by apply at_index_seq.
  destruct Hpool as [Hfull|Hnil].
  - destruct (draw_tasks_invariant random Hr n s Hnr) as (order & H1 & H2 & H3 & H4 & H5).
    + fold st. rewrite Hfull. apply indices_all_lt.
    + fold st. rewrite Hfull. unfold JS.indices. rewrite length_seq. reflexivity.
    + fold st in H1, H3. rewrite Hfull in H3. unfold JS.indices in H3. fold n in H3.
      assert (Hnil : availableTasksIndices (App.s_state (snd (draw_tasks random n s))) = []).
      { apply nil_length_inv. apply Permutation_length in H3.
        rewrite length_app, length_seq in H3. lia. }
      rewrite Hnil, app_nil_r in H3.
      split; [|auto]. rewrite H1.
      transitivity (map (App.at_index (tasks st)) (seq 0 n));
        [apply Permutation_map; exact H3|rewrite Hseq; reflexivity].
  - subst n. destruct (length (tasks st)) as [|n'] eqn:En; [lia|].
    assert (Hc : task_candidates st = []).
    { unfold task_candidates. rewrite Hnr, Hnil. reflexivity. }
    cbn [draw_tasks]. unfold draw_task. fold st.
    rewrite (selectTask_exhausted st random s Hnr Ht Hc). cbv zeta.
    set (j := JS.randomIndex (random (App.s_calls s)) (length (JS.indices (tasks st)))).
    assert (Hj : (j < length (tasks st))%nat).
    { subst j. unfold JS.indices. rewrite length_seq.
      apply randomIndex_lt; try apply Hr. lia. }
    rewrite (indices_lookup _ _ Hj). cbn [mbind option_bind].
    match goal with |- context [draw_tasks random n' ?t] => set (s1 := t) end.
    destruct (draw_tasks_invariant random Hr n' s1) as (order & H1 & H2 & H3 & H4 & H5).
    + exact Hnr.
    + unfold s1. cbn [App.s_state assign availableTasksIndices tasks].
      apply Forall_delete, indices_all_lt.
    + unfold s1. cbn [App.s_state assign availableTasksIndices].
      rewrite length_delete by (rewrite indices_lookup by exact Hj; eauto).
      unfold JS.indices. rewrite length_seq. lia.
    + destruct (draw_tasks random n' s1) as [l s2] eqn:E. cbn [fst snd] in *.
      unfold s1 in H1, H3, H4. cbn [App.s_state assign availableTasksIndices tasks] in H1, H3, H4.
      assert (Hlen : length (delete j (JS.indices (tasks st))) = n').
      { rewrite length_delete by (rewrite indices_lookup by exact Hj; eauto).
        unfold JS.indices. rewrite length_seq. lia. }
      assert (Hnil' : availableTasksIndices (App.s_state s2) = []).
      { apply nil_length_inv. apply Permutation_length in H3.
        rewrite length_app in H3. lia. }
      rewrite Hnil', app_nil_r in H3.
      split; [|auto].
      change (default "undefined" (tasks st !! j)) with (App.at_index (tasks st) j).
      rewrite H1. change (map (App.at_index (tasks st)) (j :: order) ≡ₚ tasks st).
      transitivity (map (App.at_index (tasks st)) (seq 0 (S n')));
        [|rewrite Hseq; reflexivity].
      apply Permutation_map. rewrite H3.
      symmetry. rewrite <- En. apply delete_Permutation. apply (indices_lookup _ _ Hj).
Qed.

(** X15.  Tasks are handed out in rounds without a gap: with task
    no-repeat on and a full (or an empty) pool over [n >= 1] tasks,
    [k * n] successive selections split into [k] rounds of [n], and every
    round assigns each task exactly once; the refill between two rounds
    costs no selection. *)
Theorem tasks_are_assigned_in_rounds (st : AppState) (random : nat -> Q) (k : nat) :
  isTaskNoRepeat st = true -> tasks st <> [] ->
  availableTasksIndices st = JS.indices (tasks st) \/ availableTasksIndices st = [] ->
  (forall i, (0 <= random i)%Q /\ (random i < 1)%Q) ->
  exists rounds : list (list string),
    fst (draw_tasks random (k * length (tasks st)) (App.initial st)) = concat rounds /\
    length rounds = k /\
    Forall (fun round => round ≡ₚ tasks st) rounds.
Proof.
  intros Hnr Ht Hpool Hr.
  assert (H : forall s, isTaskNoRepeat (App.s_state s) = true ->
            tasks (App.s_state s) = tasks st ->
            (availableTasksIndices (App.s_state s) = JS.indices (tasks st) \/
             availableTasksIndices (App.s_state s) = []) ->
            exists rounds : list (list string),
              fst (draw_tasks random (k * length (tasks st)) s) = concat rounds /\
              length rounds = k /\ Forall (fun round => round ≡ₚ tasks st) rounds).
  { induction k as [|k IH]; intros s Hf Hts Hp.
    - exists []. repeat split. constructor.
    - cbn [Nat.mul]. rewrite draw_tasks_app. cbn [fst].
      pose proof (draw_tasks_round random s Hr) as R. cbv zeta in R.
      rewrite Hts in R. destruct (R Hf Ht Hp) as (R1 & R2 & R3 & R4).
      destruct (IH (snd (draw_tasks random (length (tasks st)) s)))
        as (rounds & E & Hlen & Hall); try assumption.
      * right. exact R4.
      * exists (fst (draw_tasks random (length (tasks st)) s) :: rounds).
        cbn [concat length]. rewrite E. repeat split; [lia|].
        constructor; assumption. }
  apply H; assumption || reflexivity.
Qed.

Lemma tasks_are_assigned_in_rounds_witness :
  exists rounds : list (list string),
    fst (draw_tasks (fun _ => 1 # 2) (3 * 2) (App.initial (App.s_state exhausted_tasks)))
      = concat rounds /\
    length rounds = 3%nat /\
    Forall (fun round => round ≡ₚ ["read"; "write"]) rounds.
Proof.
  apply (tasks_are_assigned_in_rounds (App.s_state exhausted_tasks) (fun _ => 1 # 2) 3).
  - reflexivity.
  - discriminate.
  - right. reflexivity.
  - intros i. split; [unfold Qle; simpl; lia|reflexivity].
Defined.

(** ** The wheel on screen *)

(** In exact arithmetic the spin ends on the centre itself, after more
    than five and fewer than seven turns. *)
Lemma newTotalRotation_rem (names : list string) (winnerIndex : nat) (lastRotation : Q) :
  (1 <= length names)%nat -> (winnerIndex < length names)%nat -> (0 <= lastRotation)%Q ->
  (JS.rem (SpinWheel.newTotalRotation names winnerIndex lastRotation) 360
     == SpinWheel.Ac names winnerIndex)%Q /\
  (lastRotation + 1801 <= SpinWheel.newTotalRotation names winnerIndex lastRotation)%Q /\
  (SpinWheel.newTotalRotation names winnerIndex lastRotation < lastRotation + 2161)%Q.
Proof.
  intros Hn Hw Hl.
  destruct (minRotationDelta_turns names winnerIndex lastRotation) as [k Hk].
  destruct (minRotationDelta_range names winnerIndex lastRotation Hn Hw Hl) as [Hd0 Hd1].
  destruct (Ac_range names winnerIndex Hn Hw) as [HA0 HA1].
  assert (Hfinal :
    (SpinWheel.newTotalRotation names winnerIndex lastRotation
     == SpinWheel.Ac names winnerIndex + 360 * inject_Z (k + 5))%Q).
  { unfold SpinWheel.newTotalRotation, SpinWheel.rotationDelta, SpinWheel.fullSpins.
    rewrite inject_Z_plus. change (inject_Z 5) with 5%Q. lra. }
  split.
  - apply (rem_unique _ 360 _ (k + 5)); try lra; try exact Hfinal.
    unfold SpinWheel.newTotalRotation, SpinWheel.rotationDelta, SpinWheel.fullSpins.
    lra.
  - unfold SpinWheel.newTotalRotation, SpinWheel.rotationDelta, SpinWheel.fullSpins.
    split; lra.
Qed.

Lemma segmentAngle_pos (names : list string) :
  (1 <= length names)%nat -> (0 < SpinWheel.segmentAngle names)%Q.
Proof.
  intros Hn. unfold SpinWheel.segmentAngle, SpinWheel.numSegments.
  apply Qlt_shift_div_l.
  - change 0%Q with (inject_Z 0). rewrite <- Zlt_Qlt. lia.
  - rewrite Qmult_0_l. reflexivity.
Qed.

Lemma segment_of_centre (names : list string) (w i : nat) :
  (1 <= length names)%nat ->
  (SpinWheelView.startAngle names i <= SpinWheel.Ac names w)%Q /\
  (SpinWheel.Ac names w < SpinWheelView.endAngle names i)%Q <-> i = w.
Proof.
  intros Hn. pose proof (segmentAngle_pos names Hn) as Hs.
  unfold SpinWheelView.startAngle, SpinWheelView.endAngle, SpinWheel.Ac.
  set (sa := SpinWheel.segmentAngle names) in *.
  rewrite Nat2Z.inj_add, inject_Z_plus. change (inject_Z (Z.of_nat 1)) with 1%Q.
  assert (Hh : (sa / 2 == sa * (1 # 2))%Q) by (unfold Qdiv; reflexivity).
  rewrite Hh.
  split.
  - intros [H1 H2].
    assert (A : (inject_Z (Z.of_nat i) <= inject_Z (Z.of_nat w) + (1 # 2))%Q) by nra.
    assert (B : (inject_Z (Z.of_nat w) + (1 # 2) < inject_Z (Z.of_nat i) + 1)%Q) by nra.
    assert (A' : (inject_Z (2 * Z.of_nat i) <= inject_Z (2 * Z.of_nat w + 1))%Q).
    { rewrite inject_Z_plus, !inject_Z_mult. change (inject_Z 2) with 2%Q.
      change (inject_Z 1) with 1%Q. lra. }
    assert (B' : (inject_Z (2 * Z.of_nat w + 1) < inject_Z (2 * Z.of_nat i + 2))%Q).
    { rewrite !inject_Z_plus, !inject_Z_mult. change (inject_Z 2) with 2%Q.
      change (inject_Z 1) with 1%Q. lra. }
    rewrite <- Zle_Qle in A'. rewrite <- Zlt_Qlt in B'. lia.
  - intros ->. split; nra.
Qed.

(** X16.  The pointer shows the winner and nothing else: once a spin for
    [winnerIndex] has ended, the angle under the fixed pointer lies in the
    winner's segment, strictly between its two borders, and in no other
    segment. *)
Theorem pointer_shows_the_winner_only (names : list string) (winnerIndex i : nat)
    (lastRotation : Q) :
  (1 <= length names)%nat -> (winnerIndex < length names)%nat ->
  (0 <= lastRotation)%Q ->
  (SpinWheelView.under_pointer names
     (SpinWheel.newTotalRotation names winnerIndex lastRotation) i <-> i = winnerIndex) /\
  (SpinWheelView.startAngle names winnerIndex
     < JS.rem (SpinWheel.newTotalRotation names winnerIndex lastRotation) 360)%Q.
Proof.
  intros Hn Hw Hl.
  destruct (newTotalRotation_rem names winnerIndex lastRotation Hn Hw Hl) as (Hrem & _).
  unfold SpinWheelView.under_pointer. rewrite Hrem. split.
  - apply segment_of_centre. exact Hn.
  - pose proof (segmentAngle_pos names Hn) as Hs.
    unfold SpinWheelView.startAngle, SpinWheel.Ac.
    set (sa := SpinWheel.segmentAngle names) in *.
    assert (Hh : (sa / 2 == sa * (1 # 2))%Q) by (unfold Qdiv; reflexivity).
    rewrite Hh. lra.
Qed.

Lemma pointer_shows_the_winner_only_witness :
  SpinWheelView.under_pointer ["A"; "B"; "C"]
    (SpinWheel.newTotalRotation ["A"; "B"; "C"] 2 2000) 1 <-> 1%nat = 2%nat.
Proof.
  refine (proj1 (pointer_shows_the_winner_only ["A"; "B"; "C"] 2 1 2000 _ _ _)).
  - simpl. lia.
  - simpl. lia.
  - unfold Qle. simpl. lia.
Defined.

Lemma completed_spin_eq (names : list string) (winnerIndex : nat)
    (c : SpinWheel.Component) (h : Host.Host) :
  Host.timers h = [] -> Host.frames h = [] ->
  completed_spin names (c, h) winnerIndex =
    ({| SpinWheel.rotation :=
          SpinWheel.newTotalRotation names winnerIndex (SpinWheel.lastRotation c);
        SpinWheel.lastRotation :=
          SpinWheel.newTotalRotation names winnerIndex (SpinWheel.lastRotation c);
        SpinWheel.transition := "none" |},
     {| Host.clock := (Host.clock h + 6000)%Q; Host.timers := []; Host.frames := [];
        Host.next_id := S (Host.next_id h); Host.ended := S (Host.ended h);
        Host.sounds := S (Host.sounds h) |}).
Proof.
  intros Ht Hf. unfold completed_spin, SpinWheel.effect, Host.setTimeout. cbv zeta.
  cbn [fst snd Host.clock]. rewrite Ht. cbn [app].
  unfold SpinWheel.tick, Host.tick, Host.due_by. cbn [snd Host.timers].
  rewrite filter_cons_True
    by (cbn [Host.due]; apply Qle_bool_iff; apply Qle_refl).
  rewrite ?filter_nil. cbn [Host.firing_order rev app fold_right Host.insert_by_due fold_left].
  unfold Host.fire_timer. cbn [snd fst Host.timers existsb Host.timer_id].
  rewrite Nat.eqb_refl. cbn [orb Host.callback SpinWheel.fire fst snd].
  unfold Host.drop_timer, Host.clearTimeout. cbn [Host.timers Host.timer_id].
  rewrite filter_cons_False by (intros E; apply E; reflexivity).
  rewrite ?filter_nil.
  unfold Host.run_frame. cbn [snd fst Host.set_clock Host.complete Host.playDrawSound
    Host.frames Host.clock Host.timers Host.next_id Host.ended Host.sounds Host.due].
  rewrite Hf.
  unfold SpinWheel.cleanup, Host.cleanup, Host.clearTimeout.
  cbn [fst snd Host.timers Host.frames Host.clock Host.next_id Host.ended Host.sounds
       SpinWheel.rotation SpinWheel.lastRotation SpinWheel.transition].
  reflexivity.
Qed.

(** X17.  Spins compose.  However many spins are played one after the
    other on a wheel of [n >= 1] names, each one ends exactly once, six
    seconds after it starts, leaves no timer behind and turns the wheel
    forward by more than five turns; the accumulated rotation stays
    non-negative, and after the last spin the segment under the pointer
    is the last winner's and no other. *)
Theorem wheel_rests_on_every_winner (names : list string) (winners : list nat) :
  (1 <= length names)%nat ->
  Forall (fun w => (w < length names)%nat) winners ->
  let w := fold_left (completed_spin names) winners (SpinWheel.mount, Host.boot) in
  (inject_Z (1801 * Z.of_nat (length winners)) <= SpinWheel.lastRotation (fst w))%Q /\
  SpinWheel.rotation (fst w) = SpinWheel.lastRotation (fst w) /\
  Host.ended (snd w) = length winners /\
  Host.sounds (snd w) = length winners /\
  Host.timers (snd w) = [] /\
  (Host.clock (snd w) == inject_Z (6000 * Z.of_nat (length winners)))%Q /\
  Host.frames (snd w) = [] /\
  forall x, last winners = Some x ->
    forall i, SpinWheelView.under_pointer names (SpinWheel.rotation (fst w)) i <-> i = x.
Proof.
  intros Hn Hall. cbv zeta.
  induction winners as [|x winners IH] using rev_ind.
  - cbn. repeat (split; [first [reflexivity|unfold Qle; simpl; lia]|]). discriminate.
  - apply Forall_app in Hall as [Hall Hx]. apply Forall_cons in Hx as [Hx _].
    specialize (IH Hall). rewrite fold_left_app. cbn [fold_left].
    destruct (fold_left (completed_spin names) winners (SpinWheel.mount, Host.boot))
      as [c h]. cbn [fst snd] in IH.
    destruct IH as (Hrot & Heq & Hend & Hsnd & Htim & Hclk & Hfr & _).
    rewrite (completed_spin_eq names x c h Htim Hfr). cbn [fst snd
      SpinWheel.rotation SpinWheel.lastRotation Host.ended Host.sounds Host.timers Host.clock].
    assert (H0 : (0 <= SpinWheel.lastRotation c)%Q).
    { eapply Qle_trans; [|exact Hrot]. change 0%Q with (inject_Z 0).
      rewrite <- Zle_Qle. lia. }
    destruct (newTotalRotation_rem names x (SpinWheel.lastRotation c) Hn Hx H0)
      as (Hrem & Hlo & Hhi).
    rewrite length_app. cbn [length].
    split; [|split; [reflexivity|split; [lia|split; [lia|split; [reflexivity|
      split; [|split; [reflexivity|]]]]]]].
    + replace (1801 * Z.of_nat (length winners + 1))%Z
        with (1801 * Z.of_nat (length winners) + 1801)%Z by lia.
      rewrite inject_Z_plus. change (inject_Z 1801) with 1801%Q. lra.
    + replace (6000 * Z.of_nat (length winners + 1))%Z
        with (6000 * Z.of_nat (length winners) + 6000)%Z by lia.
      rewrite inject_Z_plus. change (inject_Z 6000) with 6000%Q. lra.
    + intros y Hlast i. rewrite last_snoc in Hlast. injection Hlast as <-.
      unfold SpinWheelView.under_pointer. rewrite Hrem.
      apply segment_of_centre. exact Hn.
Qed.

Lemma wheel_rests_on_every_winner_witness :
  Host.ended (snd (fold_left (completed_spin ["A"; "B"; "C"]) [2; 0; 1]%nat
                     (SpinWheel.mount, Host.boot))) = 3%nat.
Proof.
  destruct (wheel_rests_on_every_winner ["A"; "B"; "C"] [2; 0; 1]%nat)
    as (_ & _ & H & _).
  - simpl. lia.
  - repeat constructor; simpl; lia.
  - exact H.
Defined.

(** X18.  Neighbouring segments never share a colour, except across the
    seam: segment [i] and segment [i + 1] always differ, while the last
    segment and the first one, which touch on the wheel, have the same
    colour exactly when the number of names is 1 modulo 8 (9, 17, ...). *)
Theorem neighbouring_segments_differ_in_colour :
  (forall i, SpinWheelView.color i <> SpinWheelView.color (S i)) /\
  (forall n, (2 <= n)%nat ->
     SpinWheelView.color (n - 1) = SpinWheelView.color 0 <-> (n mod 8 = 1)%nat).
Proof.
  unfold SpinWheelView.color. change (length WHEEL_COLORS) with 8%nat. split.
  - intros i. replace (S i) with (i + 1)%nat by lia.
    rewrite (Nat.Div0.add_mod i 1 8).
    pose proof (Nat.mod_upper_bound i 8 ltac:(lia)) as Hr.
    destruct (i mod 8)%nat as [|[|[|[|[|[|[|[|r]]]]]]]]; try lia;
      vm_compute; discriminate.
  - intros n Hn. replace (n mod 8)%nat with (((n - 1) + 1) mod 8)%nat
      by (f_equal; lia).
    rewrite (Nat.Div0.add_mod (n - 1) 1 8).
    pose proof (Nat.mod_upper_bound (n - 1) 8 ltac:(lia)) as Hr.
    destruct ((n - 1) mod 8)%nat as [|[|[|[|[|[|[|[|r]]]]]]]]; try lia;
      vm_compute; split; intros H; try reflexivity; discriminate.
Qed.

Lemma neighbouring_segments_differ_in_colour_witness :
  SpinWheelView.color (9 - 1) = SpinWheelView.color 0 <-> (9 mod 8 = 1)%nat.
Proof.
  apply (proj2 neighbouring_segments_differ_in_colour 9%nat). lia.
Defined.

(** ** The card draw *)

Lemma Qle_bool_false (a b : Q) : (b < a)%Q -> Qle_bool a b = false.
Proof.
  intros H. destruct (Qle_bool a b) eqn:E; [|reflexivity].
  apply Qle_bool_iff in E. lra.
Qed.

Lemma Qle_bool_true (a b : Q) : (a <= b)%Q -> Qle_bool a b = true.
Proof. intros H. apply Qle_bool_iff. exact H. Qed.



(** ** The marbles on their way *)

Lemma ease_cases (p : Q) :
  ((p < 1 # 2)%Q /\ (MarbleRace.ease p == 2 * p * p)%Q) \/
  ((1 # 2 <= p)%Q /\
   (MarbleRace.ease p == 1 - (2 - 2 * p) * (2 - 2 * p) * (1 # 2))%Q).
Proof.
  unfold MarbleRace.ease. destruct (Qlt_le_dec p (1 # 2)) as [H|H].
  - left. split; [exact H|reflexivity].
  - right. split; [exact H|]. unfold Qdiv. change (/ 2)%Q with (1 # 2)%Q. ring.
Qed.

Lemma ease_mono (p q : Q) :
  (0 <= p)%Q -> (p <= q)%Q -> (q <= 1)%Q -> (MarbleRace.ease p <= MarbleRace.ease q)%Q.
Proof.
  intros H0 Hpq H1.
  destruct (ease_cases p) as [[Hp Ep]|[Hp Ep]], (ease_cases q) as [[Hq Eq]|[Hq Eq]];
    rewrite Ep, Eq; nra.
Qed.

Lemma ease_range (p : Q) :
  (0 <= p)%Q -> (p <= 1)%Q -> (0 <= MarbleRace.ease p)%Q /\ (MarbleRace.ease p <= 1)%Q.
Proof.
  intros H0 H1. destruct (ease_cases p) as [[Hp Ep]|[Hp Ep]]; rewrite Ep; split; nra.
Qed.

Lemma ease_one (p : Q) :
  (0 <= p)%Q -> (p <= 1)%Q -> (MarbleRace.ease p == 1)%Q <-> (p == 1)%Q.
Proof.
  intros H0 H1. destruct (ease_cases p) as [[Hp Ep]|[Hp Ep]]; rewrite Ep; split; intros H.
  - nra.
  - lra.
  - assert (E : ((2 - 2 * p) * (2 - 2 * p) == 0)%Q) by lra.
    apply Qmult_integral in E. lra.
  - rewrite H. reflexivity.
Qed.

Lemma progress_range (e : Q) (m : MarbleRace.Marble) :
  (0 < MarbleRace.duration m)%Q -> (0 <= e)%Q ->
  (0 <= MarbleRace.progress e m)%Q /\ (MarbleRace.progress e m <= 1)%Q.
Proof.
  intros Hd He. unfold MarbleRace.progress, MarbleRace.Qmin.
  assert (H : (0 <= e / MarbleRace.duration m)%Q).
  { apply Qle_shift_div_l; [exact Hd|lra]. }
  destruct (Qlt_le_dec 1 (e / MarbleRace.duration m)); split; lra.
Qed.

Lemma progress_mono (e1 e2 : Q) (m : MarbleRace.Marble) :
  (0 < MarbleRace.duration m)%Q -> (e1 <= e2)%Q ->
  (MarbleRace.progress e1 m <= MarbleRace.progress e2 m)%Q.
Proof.
  intros Hd He. unfold MarbleRace.progress, MarbleRace.Qmin.
  assert (H : (e1 / MarbleRace.duration m <= e2 / MarbleRace.duration m)%Q).
  { unfold Qdiv. apply Qmult_le_compat_r; [exact He|].
    apply Qlt_le_weak, Qinv_lt_0_compat. exact Hd. }
  destruct (Qlt_le_dec 1 (e1 / MarbleRace.duration m)),
           (Qlt_le_dec 1 (e2 / MarbleRace.duration m)); lra.
Qed.

(** X20.  A marble only runs down, and is on the line when its time is
    up: on a track with room between start and finish, the height of a
    marble never decreases as time passes and stays between its start and
    the finish line; once [progress >= 1] the marble is on the line, and
    a millisecond or more before the end of a run of at most five seconds
    it is still short of it.  (The margin keeps the last statement true
    of the rounded arithmetic of the browser as well.) *)
Theorem marble_runs_down_to_the_line (names : list string) (width e1 e2 : Q)
    (m : MarbleRace.Marble) :
  let startY := MarbleRace.marbleRadius names width in
  let endY := (MarbleRace.finishY width - MarbleRace.marbleRadius names width)%Q in
  let y e := MarbleRace.y (MarbleRace.move names width e m) in
  (0 < MarbleRace.duration m)%Q -> (0 <= e1)%Q -> (e1 <= e2)%Q -> (startY < endY)%Q ->
  (y 0 == startY)%Q /\ (startY <= y e1)%Q /\ (y e1 <= y e2)%Q /\ (y e2 <= endY)%Q /\
  (MarbleRace.finished e2 m = true -> (y e2 == endY)%Q) /\
  ((e2 + 1 <= MarbleRace.duration m)%Q -> (MarbleRace.duration m <= 5000)%Q ->
   (y e2 < endY)%Q).
Proof.
  cbv zeta. intros Hd H0 H12 Htrack.
  unfold MarbleRace.move. cbn [MarbleRace.set_y MarbleRace.y].
  set (a := MarbleRace.marbleRadius names width) in *.
  set (b := (MarbleRace.finishY width - a)%Q) in *.
  destruct (progress_range e1 m Hd H0) as [P1 P1'].
  destruct (progress_range e2 m Hd ltac:(lra)) as [P2 P2'].
  pose proof (progress_mono e1 e2 m Hd H12) as Pm.
  destruct (ease_range _ P1 P1') as [E1 E1'].
  destruct (ease_range _ P2 P2') as [E2 E2'].
  pose proof (ease_mono _ _ P1 Pm P2') as Em.
  assert (Hz : (MarbleRace.ease (MarbleRace.progress 0 m) == 0)%Q).
  { unfold MarbleRace.progress, MarbleRace.Qmin.
    assert (Z : (0 / MarbleRace.duration m == 0)%Q) by (unfold Qdiv; ring).
    destruct (Qlt_le_dec 1 (0 / MarbleRace.duration m)); [lra|].
    destruct (ease_cases (0 / MarbleRace.duration m)) as [[_ E]|[H _]]; [|lra].
    rewrite E, Z. ring. }
  split; [rewrite Hz; ring|]. split; [nra|]. split; [nra|]. split; [nra|].
  unfold MarbleRace.finished. rewrite Qle_bool_iff.
  split.
  - intros H. assert (E : (MarbleRace.progress e2 m == 1)%Q) by lra.
    apply (ease_one _ P2 P2') in E. rewrite E. ring.
  - intros Hearly _.
    assert (Hp : (MarbleRace.progress e2 m < 1)%Q).
    { unfold MarbleRace.progress, MarbleRace.Qmin.
      assert (H : (e2 / MarbleRace.duration m < 1)%Q)
        by (apply Qlt_shift_div_r; [exact Hd|lra]).
      destruct (Qlt_le_dec 1 (e2 / MarbleRace.duration m)); lra. }
    assert (He : ~ (MarbleRace.ease (MarbleRace.progress e2 m) == 1)%Q).
    { intros E. apply (ease_one _ P2 P2') in E. lra. }
    assert (Hlt : (MarbleRace.ease (MarbleRace.progress e2 m) < 1)%Q).
    { destruct (Qlt_le_dec (MarbleRace.ease (MarbleRace.progress e2 m)) 1) as [L|L];
        [exact L|]. exfalso. apply He. lra. }
    nra.
Qed.

Lemma marble_runs_down_to_the_line_witness :
  (MarbleRace.y (MarbleRace.move ["A"; "B"] 400 1000 sample_marble)
   <= MarbleRace.y (MarbleRace.move ["A"; "B"] 400 3000 sample_marble))%Q.
Proof.
  destruct (marble_runs_down_to_the_line ["A"; "B"] 400 1000 3000 sample_marble)
    as (_ & _ & H & _).
  - reflexivity.
  - unfold Qle. simpl. lia.
  - unfold Qle. simpl. lia.
  - reflexivity.
  - exact H.
Defined.

Lemma setup_lookup (names : list string) (winnerName : string) (width : Q)
    (random : nat -> Q) (l : list string) : forall i k j m,
  MarbleRace.setup names winnerName width random l i k !! j = Some m ->
  l !! j = Some (MarbleRace.name m) /\
  MarbleRace.x m =
    (MarbleRace.trackPadding
     + inject_Z (Z.of_nat (i + j)) * MarbleRace.laneWidth names width
     + MarbleRace.laneWidth names width / 2)%Q /\
  MarbleRace.y m = MarbleRace.marbleRadius names width /\
  MarbleRace.isWinner m = String.eqb (MarbleRace.name m) winnerName /\
  MarbleRace.color m = App.at_index WHEEL_COLORS ((i + j) mod length WHEEL_COLORS).
Proof.
  induction l as [|name rest IH]; intros i k j m; cbn [MarbleRace.setup].
  - intros H. discriminate.
  - destruct j as [|j].
    + cbn [lookup list_lookup]. intros [= <-].
      cbn [MarbleRace.name MarbleRace.x MarbleRace.y MarbleRace.isWinner MarbleRace.color].
      rewrite Nat.add_0_r. repeat split.
    + cbn [lookup list_lookup]. intros H. apply IH in H.
      replace (i + S j)%nat with (S i + j)%nat by lia. exact H.
Qed.

Lemma setup_length (names : list string) (winnerName : string) (width : Q)
    (random : nat -> Q) (l : list string) : forall i k,
  length (MarbleRace.setup names winnerName width random l i k) = length l.
Proof.
  induction l as [|name rest IH]; intros i k; cbn [MarbleRace.setup length];
    [reflexivity|]. rewrite IH. reflexivity.
Qed.

(** X21.  Every name gets one marble, in its own lane: on a container
    wider than the two paddings, the race sets up as many marbles as there
    are names, in the order of the list; marble [i] carries name [i],
    starts at the top, strictly between the two lines drawn for lane [i],
    which lie right of the left padding and inside the canvas, and the
    marbles flagged as winner are exactly those that carry the winner's
    name. *)
Theorem marbles_start_in_their_lanes (names : list string) (winnerName : string)
    (width : Q) (random : nat -> Q) :
  (80 < width)%Q ->
  let marbles := MarbleRace.setup names winnerName width random names 0 0 in
  let lane i := (MarbleRace.trackPadding
                 + inject_Z (Z.of_nat i) * MarbleRace.laneWidth names width)%Q in
  length marbles = length names /\
  forall i m, marbles !! i = Some m ->
    names !! i = Some (MarbleRace.name m) /\
    (lane i < MarbleRace.x m)%Q /\ (MarbleRace.x m < lane (S i))%Q /\
    (MarbleRace.trackPadding <= lane i)%Q /\ (lane (S i) < width)%Q /\
    MarbleRace.y m = MarbleRace.marbleRadius names width /\
    (MarbleRace.isWinner m = true <-> MarbleRace.name m = winnerName).
Proof.
  intros Hw. cbv zeta. split; [apply setup_length|].
  intros i m Hm. destruct (setup_lookup _ _ _ _ _ _ _ _ _ Hm) as (Hn & Hx & Hy & Hwin & _).
  cbn [Nat.add] in Hx.
  assert (Hi : (i < length names)%nat) by (apply lookup_lt_Some in Hn; exact Hn).
  assert (Hlen : (0 < inject_Z (Z.of_nat (length names)))%Q).
  { change 0%Q with (inject_Z 0). rewrite <- Zlt_Qlt. lia. }
  assert (Hlw : (0 < MarbleRace.laneWidth names width)%Q).
  { unfold MarbleRace.laneWidth, MarbleRace.totalLaneWidth, MarbleRace.numNames,
      MarbleRace.trackPadding.
    apply Qlt_shift_div_l; [exact Hlen|]. lra. }
  assert (Htot : (inject_Z (Z.of_nat (length names)) * MarbleRace.laneWidth names width
                  == width - 80)%Q).
  { unfold MarbleRace.laneWidth, MarbleRace.totalLaneWidth, MarbleRace.numNames,
      MarbleRace.trackPadding. field. lra. }
  assert (Hsi : (inject_Z (Z.of_nat (S i)) == inject_Z (Z.of_nat i) + 1)%Q).
  { rewrite Nat2Z.inj_succ. unfold Z.succ. rewrite inject_Z_plus. reflexivity. }
  assert (Hle : (inject_Z (Z.of_nat (S i)) <= inject_Z (Z.of_nat (length names)))%Q).
  { rewrite <- Zle_Qle. lia. }
  set (lw := MarbleRace.laneWidth names width) in *.
  assert (Hh : (lw / 2 == lw * (1 # 2))%Q) by (unfold Qdiv; reflexivity).
  split; [exact Hn|]. rewrite Hx, Hh, Hsi. unfold MarbleRace.trackPadding.
  assert (Hpos : (0 <= inject_Z (Z.of_nat i))%Q).
  { change 0%Q with (inject_Z 0). rewrite <- Zle_Qle. lia. }
  split; [lra|]. split; [lra|]. split; [nra|]. split; [nra|]. split; [exact Hy|].
  rewrite Hwin. apply String.eqb_eq.
Qed.

Lemma marbles_start_in_their_lanes_witness :
  length (MarbleRace.setup ["A"; "B"] "A" 400 (fun _ => 0%Q) ["A"; "B"] 0 0) = 2%nat.
Proof.
  destruct (marbles_start_in_their_lanes ["A"; "B"] "A" 400 (fun _ => 0%Q)) as (H & _).
  - reflexivity.
  - exact H.
Defined.

(** ** One race, one call of [onRaceEnd] *)

Lemma tick_no_timer {C : Type} (fire : Host.Callback -> C * Host.Host -> C * Host.Host)
    (animate : Q -> C * Host.Host -> C * Host.Host) (t : Q) (c : C) (h : Host.Host) :
  Host.timers h = [] ->
  Host.tick fire animate t (c, h) = Host.run_frame animate t (c, Host.set_clock t h).
Proof.
  intros Ht. unfold Host.tick, Host.due_by. cbn [snd]. rewrite Ht. reflexivity.
Qed.

Lemma tick_one_timer {C : Type} (fire : Host.Callback -> C * Host.Host -> C * Host.Host)
    (animate : Q -> C * Host.Host -> C * Host.Host) (t : Q) (c : C) (h : Host.Host)
    (tm : Host.Timer) :
  Host.timers h = [tm] ->
  Host.tick fire animate t (c, h) =
    if Qle_bool (Host.due tm) t then
      let w := fire (Host.callback tm)
                 (c, Host.set_clock (Host.due tm) (Host.drop_timer (Host.timer_id tm) h)) in
      Host.run_frame animate t (fst w, Host.set_clock t (snd w))
    else Host.run_frame animate t (c, Host.set_clock t h).
Proof.
  intros Ht. unfold Host.tick, Host.due_by. cbn [snd]. rewrite Ht.
  destruct (Qle_bool (Host.due tm) t) eqn:E.
  - rewrite filter_cons_True by exact E. rewrite ?filter_nil.
    cbn [Host.firing_order rev app fold_right Host.insert_by_due fold_left].
    unfold Host.fire_timer. cbn [snd fst]. rewrite Ht.
    cbn [existsb]. rewrite Nat.eqb_refl. reflexivity.
  - rewrite filter_cons_False by (rewrite E; discriminate). reflexivity.
Qed.

Lemma drop_only_timer (h : Host.Host) (tm : Host.Timer) :
  Host.timers h = [tm] -> Host.timers (Host.drop_timer (Host.timer_id tm) h) = [].
Proof.
  intros Ht. unfold Host.drop_timer, Host.clearTimeout. cbn [Host.timers]. rewrite Ht.
  rewrite filter_cons_False by (intros E; apply E; reflexivity). reflexivity.
Qed.

Section RaceLedger.
Context {C : Type}.
Variable declared : C -> bool.
Variable fire : Host.Callback -> C * Host.Host -> C * Host.Host.
Variable animate : Q -> C * Host.Host -> C * Host.Host.
Hypothesis fire_race_end :
  forall w, fire Host.RaceEnd w = (fst w, Host.complete (snd w)).
(** A frame never calls [onRaceEnd]; it either leaves timers and sounds
    alone, or it declares the winner, plays the sound and sets the one
    timer. *)
Hypothesis frame_host :
  forall t c h,
    let r := animate t (c, h) in
    Host.ended (snd r) = Host.ended h /\
    ((declared (fst r) = declared c /\
      Host.timers (snd r) = Host.timers h /\ Host.sounds (snd r) = Host.sounds h) \/
     (declared c = false /\ declared (fst r) = true /\
      (exists tm, Host.timers (snd r) = Host.timers h ++ [tm] /\
                  Host.callback tm = Host.RaceEnd) /\
      Host.sounds (snd r) = S (Host.sounds h))).

Lemma frame_ledger (t : Q) (e0 s0 : nat) (c : C) (h : Host.Host) :
  one_race_end e0 s0 (declared c) h ->
  let r := Host.run_frame animate t (c, Host.set_clock t h) in
  one_race_end e0 s0 (declared (fst r)) (snd r).
Proof.
  intros Hinv. cbv zeta. unfold Host.run_frame. cbn [snd fst Host.set_clock Host.frames].
  destruct (Host.frames h) as [|f fs]; [exact Hinv|].
  match goal with |- context [animate t (c, ?h1)] =>
    pose proof (frame_host t c h1) as Ha; cbv zeta in Ha;
    destruct (animate t (c, h1)) as [c' h'] end.
  cbn [fst snd Host.drop_frames Host.set_clock Host.timers Host.ended Host.sounds
       Host.frames] in *.
  destruct Ha as (He & [(Hd & Ht & Hs)|(Hd0 & Hd1 & (tm & Ht & Hcb) & Hs)]).
  - rewrite Hd. unfold one_race_end, race_end_pending in *.
    rewrite Ht, He, Hs. exact Hinv.
  - rewrite Hd0 in Hinv. rewrite Hd1. unfold one_race_end, race_end_pending in *.
    destruct Hinv as (Ht0 & He0 & Hs0). rewrite Ht0 in Ht. cbn [app] in Ht.
    split; [lia|]. left. split; [exists tm; auto|lia].
Qed.

Lemma tick_ledger (t : Q) (e0 s0 : nat) (c : C) (h : Host.Host) :
  one_race_end e0 s0 (declared c) h ->
  let r := Host.tick fire animate t (c, h) in
  one_race_end e0 s0 (declared (fst r)) (snd r).
Proof.
  intros Hinv. cbv zeta.
  assert (Hcase : Host.timers h = [] \/
                  (declared c = true /\ Host.sounds h = S s0 /\ Host.ended h = e0 /\
                   exists tm, Host.timers h = [tm] /\ Host.callback tm = Host.RaceEnd)).
  { unfold one_race_end, race_end_pending in Hinv.
    destruct (declared c); [|left; tauto].
    destruct Hinv as (Hs & [[Hp He]|[Ht He]]); [right; auto|left; exact Ht]. }
  destruct Hcase as [Ht|(Hd & Hs & He & tm & Ht & Hcb)].
  - rewrite tick_no_timer by exact Ht. apply frame_ledger. exact Hinv.
  - rewrite (tick_one_timer _ _ t c h tm Ht).
    destruct (Qle_bool (Host.due tm) t).
    + rewrite Hcb, fire_race_end. cbv zeta. cbn [fst snd].
      apply (frame_ledger t e0 s0 c
               (Host.complete (Host.set_clock (Host.due tm)
                  (Host.drop_timer (Host.timer_id tm) h)))).
      rewrite Hd. unfold one_race_end.
      cbn [Host.complete Host.set_clock Host.sounds Host.timers Host.ended].
      split; [exact Hs|]. right. split; [apply drop_only_timer; exact Ht|].
      unfold Host.drop_timer, Host.clearTimeout. cbn [Host.ended]. lia.
    + apply frame_ledger. exact Hinv.
Qed.

Lemma ticks_ledger (ticks : list Q) (e0 s0 : nat) (w : C * Host.Host) :
  one_race_end e0 s0 (declared (fst w)) (snd w) ->
  let r := fold_left (fun w t => Host.tick fire animate t w) ticks w in
  one_race_end e0 s0 (declared (fst r)) (snd r).
Proof.
  intros H. cbv zeta. induction ticks as [|t ticks IH] using rev_ind; [exact H|].
  rewrite fold_left_app. cbn [fold_left].
  destruct (fold_left _ ticks w) as [c1 h1]. cbn [fst snd] in IH.
  apply tick_ledger. exact IH.
Qed.

Lemma ledger_bounds (e0 s0 : nat) (d : bool) (h : Host.Host) :
  one_race_end e0 s0 d h ->
  (e0 <= Host.ended h <= S e0)%nat /\
  (Host.ended h = S e0 -> d = true /\ Host.timers h = []).
Proof.
  unfold one_race_end, race_end_pending. destruct d.
  - intros (_ & [[_ He]|[Ht He]]); rewrite He.
    + split; [lia|]. intros E. lia.
    + split; [lia|]. intros _. split; [reflexivity|exact Ht].
  - intros (_ & He & _). rewrite He. split; [lia|]. intros E. lia.
Qed.
End RaceLedger.

(** What one animation frame of the marble race does to the host. *)
Lemma marble_animate_host (names : list string) (width t : Q)
    (s : MarbleRace.Session) (h : Host.Host) :
  let r := MarbleRace.animate names width t (s, h) in
  Host.ended (snd r) = Host.ended h /\
  ((MarbleRace.winnerDeclared (fst r) = MarbleRace.winnerDeclared s /\
    Host.timers (snd r) = Host.timers h /\ Host.sounds (snd r) = Host.sounds h) \/
   (MarbleRace.winnerDeclared s = false /\ MarbleRace.winnerDeclared (fst r) = true /\
    (exists tm, Host.timers (snd r) = Host.timers h ++ [tm] /\
                Host.callback tm = Host.RaceEnd) /\
    Host.sounds (snd r) = S (Host.sounds h))).
Proof.
  cbv zeta. unfold MarbleRace.animate.
  destruct (MarbleRace.winnerDeclared s) eqn:Hd.
  - cbn [negb orb]. destruct (negb _); cbn; (split; [reflexivity|left; auto]).
  - destruct (Qle_bool _ _); cbn [negb orb]; [destruct (negb _)|];
      cbn; (split; [reflexivity|]);
      first [left; repeat split; reflexivity
            |right; repeat split; eexists; split; reflexivity].
Qed.

Lemma marble_fire_race_end (w : MarbleRace.Session * Host.Host) :
  MarbleRace.fire Host.RaceEnd w = (fst w, Host.complete (snd w)).
Proof. reflexivity. Qed.

(** X22.  A marble race calls [onRaceEnd] at most once, however the
    host's clock advances: started on a host without pending timers, the
    race schedules nothing before the winner is declared, plays the draw
    sound exactly once when it declares the winner, and from then on
    [onRaceEnd] is either the one pending timer or has been called
    exactly once. *)
Theorem marble_race_ends_at_most_once (names : list string) (winnerName : string)
    (width : Q) (random : nat -> Q) (h : Host.Host) (ticks : list Q) :
  Host.timers h = [] ->
  let w := marble_session names winnerName width random h ticks in
  one_race_end (Host.ended h) (Host.sounds h) (MarbleRace.winnerDeclared (fst w)) (snd w) /\
  (Host.ended h <= Host.ended (snd w) <= S (Host.ended h))%nat /\
  (Host.ended (snd w) = S (Host.ended h) ->
   MarbleRace.winnerDeclared (fst w) = true /\ Host.timers (snd w) = []).
Proof.
  intros Ht. cbv zeta.
  assert (H : one_race_end (Host.ended h) (Host.sounds h)
                (MarbleRace.winnerDeclared
                   (fst (marble_session names winnerName width random h ticks)))
                (snd (marble_session names winnerName width random h ticks))).
  { unfold marble_session.
    apply (ticks_ledger MarbleRace.winnerDeclared MarbleRace.fire
             (MarbleRace.animate names width) marble_fire_race_end
             (marble_animate_host names width)).
    unfold MarbleRace.effect, MarbleRace.mount.
    destruct (negb true || (String.length winnerName =? 0)%nat); cbn; auto. }
  split; [exact H|]. exact (ledger_bounds _ _ _ _ H).
Qed.

Lemma marble_race_ends_at_most_once_witness :
  (Host.ended (snd (marble_session ["A"; "B"] "A" 400 (fun _ => 0%Q) Host.boot
                      sample_ticks)) <= 1)%nat.
Proof.
  destruct (marble_race_ends_at_most_once ["A"; "B"] "A" 400 (fun _ => 0%Q) Host.boot
              sample_ticks) as (_ & H & _).
  - reflexivity.
  - exact (proj2 H).
Defined.

Lemma duck_animate_host (width ts : R) (s : DuckRace.Session) (h : Host.Host) :
  let r := DuckRace.animate width ts (s, h) in
  Host.ended (snd r) = Host.ended h /\
  ((DuckRace.winnerDeclared (fst r) = DuckRace.winnerDeclared s /\
    Host.timers (snd r) = Host.timers h /\ Host.sounds (snd r) = Host.sounds h) \/
   (DuckRace.winnerDeclared s = false /\ DuckRace.winnerDeclared (fst r) = true /\
    (exists tm, Host.timers (snd r) = Host.timers h ++ [tm] /\
                Host.callback tm = Host.RaceEnd) /\
    Host.sounds (snd r) = S (Host.sounds h))).
Proof.
  cbv zeta. unfold DuckRace.animate.
  destruct (DuckRace.winnerDeclared s) eqn:Hd; cbv zeta.
  - cbn. split; [reflexivity|left; auto].
  - match goal with
    | |- context [if (existsb ?f ?l && ?b) then _ else _] =>
        destruct (existsb f l && b)
    end; cbn; (split; [reflexivity|]);
      first [left; repeat split; reflexivity
            |right; repeat split; eexists; split; reflexivity].
Qed.

(** X23.  A duck race, too, calls [onRaceEnd] at most once: nothing is
    scheduled before the winner is declared, the draw sound plays exactly
    once at that moment, and from then on [onRaceEnd] is either the one
    pending timer or has been called exactly once, however the host's
    clock advances. *)
Theorem duck_race_ends_at_most_once (names : list string) (winnerName : string)
    (width : R) (random : nat -> R) (h : Host.Host) (ticks : list Q) :
  Host.timers h = [] ->
  let w := duck_session names winnerName width random h ticks in
  one_race_end (Host.ended h) (Host.sounds h) (DuckRace.winnerDeclared (fst w)) (snd w) /\
  (Host.ended h <= Host.ended (snd w) <= S (Host.ended h))%nat /\
  (Host.ended (snd w) = S (Host.ended h) ->
   DuckRace.winnerDeclared (fst w) = true /\ Host.timers (snd w) = []).
Proof.
  intros Ht. cbv zeta.
  assert (H : one_race_end (Host.ended h) (Host.sounds h)
                (DuckRace.winnerDeclared
                   (fst (duck_session names winnerName width random h ticks)))
                (snd (duck_session names winnerName width random h ticks))).
  { unfold duck_session, DuckRace.tick.
    apply (ticks_ledger DuckRace.winnerDeclared DuckRace.fire
             (fun t => DuckRace.animate width (Q2R t))
             (fun w => eq_refl)
             (fun t => duck_animate_host width (Q2R t))).
    unfold DuckRace.effect, DuckRace.mount.
    destruct (negb true || (String.length winnerName =? 0)%nat); cbn; auto. }
  split; [exact H|]. exact (ledger_bounds _ _ _ _ H).
Qed.

Lemma duck_race_ends_at_most_once_witness :
  (Host.ended (snd (duck_session ["A"; "B"] "A" 175 (fun _ => 0%R) Host.boot
                      sample_ticks)) <= 1)%nat.
Proof.
  destruct (duck_race_ends_at_most_once ["A"; "B"] "A" 175 (fun _ => 0%R) Host.boot
              sample_ticks) as (_ & H & _).
  - reflexivity.
  - exact (proj2 H).
Defined.

Lemma marble_frame_after_declared (names : list string) (width t : Q)
    (s : MarbleRace.Session) (h : Host.Host) :
  MarbleRace.winnerDeclared s = true ->
  let r := Host.run_frame (MarbleRace.animate names width) t (s, h) in
  Host.ended (snd r) = Host.ended h /\ Host.timers (snd r) = Host.timers h.
Proof.
  intros Hd. cbv zeta. unfold Host.run_frame. cbn [snd fst].
  destruct (Host.frames h) as [|f fs]; [split; reflexivity|].
  destruct (marble_animate_host names width t s (Host.drop_frames h))
    as (He & [(_ & Htm & _)|(Hc & _)]); [|congruence].
  rewrite He, Htm. split; reflexivity.
Qed.

(** X24.  The marble race ends on time.  In a running race whose first
    frame came at [start], the first frame at or after [start + 3500]
    declares the winner, plays the sound and schedules [onRaceEnd] two
    seconds later; [onRaceEnd] is not called before that moment and is
    called exactly once when the clock reaches it. *)
Theorem marble_race_ends_on_time (names : list string) (width t1 t2 t' : Q)
    (s : MarbleRace.Session) (h : Host.Host) :
  MarbleRace.winnerDeclared s = false ->
  Host.timers h = [] -> Host.frames h <> [] ->
  ~ (MarbleRace.startTimeRef s == 0)%Q ->
  (MarbleRace.startTimeRef s + 3500 <= t1)%Q ->
  (t1 <= t')%Q -> (t' < t1 + 2000)%Q -> (t1 + 2000 <= t2)%Q ->
  let w1 := MarbleRace.tick names width t1 (s, h) in
  MarbleRace.winnerDeclared (fst w1) = true /\
  race_end_pending (snd w1) /\
  Host.sounds (snd w1) = S (Host.sounds h) /\
  Host.ended (snd w1) = Host.ended h /\
  Host.ended (snd (MarbleRace.tick names width t' w1)) = Host.ended h /\
  Host.ended (snd (MarbleRace.tick names width t2 w1)) = S (Host.ended h) /\
  Host.timers (snd (MarbleRace.tick names width t2 w1)) = [].
Proof.
  intros Hd Ht Hf Hs H1 Ht' Ht'' H2. cbv zeta.
  assert (Hz : Qeq_bool (MarbleRace.startTimeRef s) 0 = false).
  { destruct (Qeq_bool _ 0) eqn:E; [|reflexivity]. apply Qeq_bool_iff in E. contradiction. }
  assert (Hle : Qle_bool (MarbleRace.BASE_DURATION + 500)
                  (t1 - MarbleRace.startTimeRef s) = true).
  { apply Qle_bool_iff. unfold MarbleRace.BASE_DURATION. lra. }
  assert (E1 : exists s1 fr id,
    MarbleRace.tick names width t1 (s, h) =
      (s1, {| Host.clock := t1;
              Host.timers := [{| Host.timer_id := id; Host.due := (t1 + 2000)%Q;
                                 Host.callback := Host.RaceEnd |}];
              Host.frames := fr; Host.next_id := S id + length fr;
              Host.ended := Host.ended h; Host.sounds := S (Host.sounds h) |}) /\
    MarbleRace.winnerDeclared s1 = true).
  { unfold MarbleRace.tick. rewrite tick_no_timer by exact Ht.
    unfold Host.run_frame. cbn [snd fst Host.set_clock Host.frames].
    destruct (Host.frames h) as [|f fs]; [congruence|].
    unfold MarbleRace.animate. rewrite Hd, Hz, Hle.
    unfold Host.setTimeout, Host.playDrawSound, Host.drop_frames, Host.set_clock.
    cbn [snd fst Host.clock Host.timers Host.frames Host.next_id Host.ended Host.sounds
         negb orb].
    rewrite Ht. cbn [app].
    destruct (negb (Qle_bool _ _)).
    - eexists _, [_], _. split.
      + unfold Host.requestAnimationFrame. cbn. rewrite Nat.add_1_r. reflexivity.
      + reflexivity.
    - eexists _, [], _. split.
      + cbn. rewrite Nat.add_0_r. reflexivity.
      + reflexivity. }
  destruct E1 as (s1 & fr & id & E1 & Hd1). rewrite E1. cbn [fst snd].
  set (tm := {| Host.timer_id := id; Host.due := (t1 + 2000)%Q;
                Host.callback := Host.RaceEnd |}).
  match goal with |- context [MarbleRace.tick names width t' (s1, ?hh)] =>
    set (h1 := hh) end.
  assert (Ht1 : Host.timers h1 = [tm]) by reflexivity.
  split; [exact Hd1|]. split; [exists tm; split; reflexivity|].
  split; [reflexivity|]. split; [reflexivity|].
  split.
  - unfold MarbleRace.tick. rewrite (tick_one_timer _ _ t' s1 h1 tm Ht1).
    change (Host.due tm) with (t1 + 2000)%Q. rewrite Qle_bool_false by lra.
    destruct (marble_frame_after_declared names width t' s1 (Host.set_clock t' h1) Hd1)
      as (He & _).
    rewrite He. reflexivity.
  - unfold MarbleRace.tick. rewrite (tick_one_timer _ _ t2 s1 h1 tm Ht1).
    change (Host.due tm) with (t1 + 2000)%Q. rewrite Qle_bool_true by lra.
    change (Host.callback tm) with Host.RaceEnd.
    cbn [MarbleRace.fire fst snd]. cbv zeta. cbn [fst snd].
    match goal with |- context [Host.run_frame _ t2 (s1, ?hh)] => set (hF := hh) end.
    destruct (marble_frame_after_declared names width t2 s1 hF Hd1) as (He & Htm).
    rewrite He, Htm. split; [reflexivity|].
    unfold hF. cbn [Host.set_clock Host.complete Host.timers].
    apply drop_only_timer. exact Ht1.
Qed.

Lemma marble_race_ends_on_time_witness :
  Host.ended (snd (MarbleRace.tick ["A"; "B"] 400 5600
    (MarbleRace.tick ["A"; "B"] 400 3600
       (fst (marble_tick 16 (fst marble_started)),
        snd (marble_tick 16 (fst marble_started))))))
  = S (Host.ended (snd (marble_tick 16 (fst marble_started)))).
Proof.
  destruct (marble_race_ends_on_time ["A"; "B"] 400 3600 5600 4000
              (fst (marble_tick 16 (fst marble_started)))
              (snd (marble_tick 16 (fst marble_started))))
    as (_ & _ & _ & _ & _ & H & _).
  - reflexivity.
  - reflexivity.
  - vm_compute. discriminate.
  - vm_compute. discriminate.
  - vm_compute. discriminate.
  - vm_compute. discriminate.
  - vm_compute. reflexivity.
  - vm_compute. discriminate.
  - exact H.
Defined.

(** ** The ducks on their way *)

Section DuckProgress.
Local Open Scope R_scope.
Variable width : R.


Lemma advance_on_the_way (t dt elapsed : R) (d : DuckRace.Duck) :
  0 <= dt -> winner_on_the_way width elapsed d ->
  winner_on_the_way width (elapsed + dt) (DuckRace.advance width t dt d).
Proof.
  intros Hdt Hw. unfold winner_on_the_way in *. unfold DuckRace.advance.
  pose proof (wobble_bounds t d) as Hb.
  destruct (Rlt_dec (DuckRace.x d) (DuckRace.finishLineX width)) as [Hlt|Hge].
  - destruct (Rle_dec _ _) as [Hc|Hc];
      cbn [DuckRace.set_x DuckRace.x DuckRace.baseSpeed DuckRace.isWinner];
      intros Hi; destruct (Hw Hi) as [Hs Hx]; (split; [exact Hs|]).
    + left. lra.
    + right. destruct Hx as [Hx|Hx]; [lra|].
      assert (Hp : 0 <= DuckRace.baseSpeed d * dt) by (apply Rmult_le_pos; lra).
      assert (Hlo : DuckRace.baseSpeed d * dt * (85 / 100)
                    <= DuckRace.baseSpeed d * dt * (1 + DuckRace.wobble t d))
        by (apply Rmult_le_compat_l; lra).
      lra.
  - intros Hi. destruct (Hw Hi) as [Hs Hx]. split; [exact Hs|]. left. lra.
Qed.

Lemma advance_isWinner (t dt : R) (d : DuckRace.Duck) :
  DuckRace.isWinner (DuckRace.advance width t dt d) = DuckRace.isWinner d.
Proof.
  unfold DuckRace.advance. destruct (Rlt_dec _ _); [|reflexivity].
  destruct (Rle_dec _ _); reflexivity.
Qed.
End DuckProgress.


Section DuckFinish.
Local Open Scope R_scope.
Variable names : list string.
Variable winnerName : string.
Variable width : R.
Variable random : nat -> R.

Lemma setup_has (l : list string) : forall i m0 name,
  name ∈ l ->
  exists d, d ∈ fst (DuckRace.setup names winnerName width random l i m0) /\
            DuckRace.isWinner d = String.eqb name winnerName.
Proof.
  induction l as [|n rest IH]; intros i m0 name Hin; [inversion Hin|].
  cbn [DuckRace.setup]. cbv zeta.
  destruct (DuckRace.setup names winnerName width random rest (S i) _) as [ds m] eqn:E.
  cbn [fst]. apply elem_of_cons in Hin as [->|Hin].
  - eexists. split; [left|]. reflexivity.
  - destruct (IH (S i)
                (if String.eqb n winnerName then m0
                 else Rmax m0 (random i * (DuckRace.MAX_SPEED - DuckRace.MIN_SPEED)
                               + DuckRace.MIN_SPEED)) name Hin) as (d & Hd & Hw).
    rewrite E in Hd. exists d. split; [right; exact Hd|exact Hw].
Qed.

Lemma setup_x (l : list string) : forall i m0,
  Forall (fun d => DuckRace.x d = DuckRace.START_X)
         (fst (DuckRace.setup names winnerName width random l i m0)).
Proof.
  induction l as [|n rest IH]; intros i m0; cbn [DuckRace.setup]; [constructor|].
  cbv zeta.
  pose proof (IH (S i)
                (if String.eqb n winnerName then m0
                 else Rmax m0 (random i * (DuckRace.MAX_SPEED - DuckRace.MIN_SPEED)
                               + DuckRace.MIN_SPEED))) as H.
  destruct (DuckRace.setup names winnerName width random rest (S i) _) as [ds m].
  cbn [fst] in *. constructor; [reflexivity|exact H].
Qed.

Lemma start_ducks_ready :
  Forall (winner_on_the_way width 0) (DuckRace.start_ducks names winnerName width random) /\
  (winnerName ∈ names ->
   exists d, d ∈ DuckRace.start_ducks names winnerName width random /\
             DuckRace.isWinner d = true).
Proof.
  split.
  - destruct (start_ducks_boost names winnerName width random) as (m & Hm & Hall).
    pose proof (setup_x names 0 DuckRace.MIN_SPEED) as Hx.
    unfold DuckRace.start_ducks in *.
    destruct (DuckRace.setup names winnerName width random names 0 DuckRace.MIN_SPEED)
      as [ds mx]. cbn [fst] in Hx.
    rewrite Forall_forall in Hall. apply Forall_forall. intros d Hd Hi.
    specialize (Hall d Hd). rewrite Hi in Hall.
    apply list_elem_of_fmap in Hd as (d0 & -> & Hd0).
    rewrite Forall_forall in Hx. specialize (Hx d0 Hd0).
    unfold DuckRace.MIN_SPEED, DuckRace.WINNER_BOOST in *.
    split; [lra|]. right.
    destruct (DuckRace.isWinner d0); cbn [DuckRace.set_baseSpeed DuckRace.x];
      rewrite Hx; lra.
  - intros Hin. destruct (setup_has names 0 DuckRace.MIN_SPEED winnerName Hin)
      as (d & Hd & Hw).
    rewrite String.eqb_refl in Hw. unfold DuckRace.start_ducks.
    destruct (DuckRace.setup names winnerName width random names 0 DuckRace.MIN_SPEED)
      as [ds mx]. cbn [fst] in Hd.
    exists (DuckRace.set_baseSpeed (mx * DuckRace.WINNER_BOOST) d). split.
    + apply list_elem_of_fmap. exists d. rewrite Hw. auto.
    + cbn [DuckRace.set_baseSpeed DuckRace.isWinner]. exact Hw.
Qed.
End DuckFinish.

Section DuckFrames.
Local Open Scope R_scope.
Variable width : R.
Variable t0 : R.
Hypothesis t0_set : t0 <> 0.

Lemma duck_declared_stays (t : R) (s : DuckRace.Session) (h : Host.Host) :
  DuckRace.winnerDeclared s = true ->
  DuckRace.winnerDeclared (fst (DuckRace.animate width t (s, h))) = true.
Proof.
  intros Hd. destruct (duck_animate_host width t s h) as (_ & [(E & _)|(E & _)]);
    congruence.
Qed.

Lemma winner_crossed (e : R) (ds : list DuckRace.Duck) :
  3 <= e -> DuckRace.finishLineX width <= DuckRace.START_X + 85 / 100 * 138 * e ->
  Forall (winner_on_the_way width e) ds ->
  (exists d, d ∈ ds /\ DuckRace.isWinner d = true) ->
  existsb (fun d => DuckRace.isWinner d && DuckRace.crossed width d) ds = true.
Proof.
  intros He Hf Hall (d & Hd & Hi). apply existsb_exists. exists d.
  split; [apply list_elem_of_In; exact Hd|]. rewrite Hi. cbn [andb].
  rewrite Forall_forall in Hall. destruct (Hall d Hd Hi) as [Hs Hx].
  apply crossed_true. destruct Hx as [Hx|Hx]; [exact Hx|].
  assert (85 / 100 * 138 * e <= 85 / 100 * DuckRace.baseSpeed d * e).
  { apply Rmult_le_compat_r; lra. }
  lra.
Qed.

Lemma duck_frame_step (tprev t : R) (s : DuckRace.Session) (h : Host.Host) :
  tprev <= t -> race_under_way width t0 tprev s ->
  let s' := fst (DuckRace.animate width t (s, h)) in
  (finish_due width t0 t -> DuckRace.winnerDeclared s' = true) /\
  (DuckRace.winnerDeclared s' = true \/ race_under_way width t0 t s').
Proof.
  intros Hle (Hd & Hs & Hl & Hall & Hwin). cbv zeta.
  destruct (animate_running width t s h Hd) as (D & S & L & W).
  rewrite Hs, Hl in *.
  destruct (Req_EM_T t0 0) as [E|_]; [contradiction|].
  set (s' := fst (DuckRace.animate width t (s, h))) in *.
  assert (Hall' : Forall (winner_on_the_way width ((t - t0) / 1000)) (DuckRace.ducks s')).
  { rewrite D. apply Forall_fmap. eapply Forall_impl; [exact Hall|].
    intros d Hw. unfold compose.
    replace ((t - t0) / 1000) with ((tprev - t0) / 1000 + (t - tprev) / 1000) by lra.
    apply advance_on_the_way; [lra|exact Hw]. }
  assert (Hwin' : exists d, d ∈ DuckRace.ducks s' /\ DuckRace.isWinner d = true).
  { destruct Hwin as (d & Hin & Hi). rewrite D.
    exists (DuckRace.advance width t ((t - tprev) / 1000) d). split.
    - apply list_elem_of_fmap. exists d. auto.
    - rewrite advance_isWinner. exact Hi. }
  split.
  - intros [H3 Hf]. rewrite W. rewrite <- D.
    rewrite (winner_crossed _ _ H3 Hf Hall' Hwin').
    destruct (Rle_dec 3 ((t - t0) / 1000)); [reflexivity|contradiction].
  - destruct (DuckRace.winnerDeclared s') eqn:E; [left; reflexivity|right].
    repeat split; assumption.
Qed.

Lemma duck_first_frame (s : DuckRace.Session) (h : Host.Host) :
  DuckRace.winnerDeclared s = false -> DuckRace.startTimeRef s = 0 ->
  Forall (winner_on_the_way width 0) (DuckRace.ducks s) ->
  (exists d, d ∈ DuckRace.ducks s /\ DuckRace.isWinner d = true) ->
  race_under_way width t0 t0 (fst (DuckRace.animate width t0 (s, h))).
Proof.
  intros Hd Hs Hall Hwin.
  destruct (animate_running width t0 s h Hd) as (D & S & L & W).
  rewrite Hs in *. destruct (Req_EM_T 0 0) as [_|n]; [|contradiction].
  set (s' := fst (DuckRace.animate width t0 (s, h))) in *.
  unfold race_under_way. split.
  { rewrite W. destruct (Rle_dec 3 ((t0 - t0) / 1000)); [lra|]. apply andb_false_r. }
  split; [exact S|]. split; [exact L|]. split.
  - rewrite D. apply Forall_fmap. eapply Forall_impl; [exact Hall|].
    intros d Hw. unfold compose.
    assert (Hz : 0 <= (t0 - t0) / 1000) by lra.
    pose proof (advance_on_the_way width t0 ((t0 - t0) / 1000) 0 d Hz Hw) as H.
    replace (0 + (t0 - t0) / 1000) with ((t0 - t0) / 1000) in H by lra. exact H.
  - destruct Hwin as (d & Hin & Hi). rewrite D.
    exists (DuckRace.advance width t0 ((t0 - t0) / 1000) d). split.
    + apply list_elem_of_fmap. exists d. auto.
    + rewrite advance_isWinner. exact Hi.
Qed.

Lemma last_cons_default (t d : R) (l : list R) : List.last (t :: l) d = List.last l t.
Proof.
  revert t d. induction l as [|a l IH]; intros t d; [reflexivity|].
  change (List.last (t :: a :: l) d) with (List.last (a :: l) d).
  rewrite (IH a d), (IH a t). reflexivity.
Qed.

Lemma duck_frames_progress (rest : list R) : forall (tprev : R) (w : DuckRace.Session * Host.Host),
  ascending tprev rest ->
  DuckRace.winnerDeclared (fst w) = true \/ race_under_way width t0 tprev (fst w) ->
  (finish_due width t0 tprev -> DuckRace.winnerDeclared (fst w) = true) ->
  finish_due width t0 (List.last rest tprev) ->
  DuckRace.winnerDeclared (fst (duck_frames width rest w)) = true.
Proof.
  induction rest as [|t rest IH]; intros tprev [s h] Hasc Hinv Hdue Hfin.
  - cbn [duck_frames fold_left]. apply Hdue. exact Hfin.
  - destruct Hasc as [Hle Hasc]. rewrite last_cons_default in Hfin.
    unfold duck_frames. cbn [fold_left]. fold (duck_frames width rest).
    cbn [fst] in *.
    destruct (DuckRace.animate width t (s, h)) as [s' h'] eqn:E.
    assert (Es : s' = fst (DuckRace.animate width t (s, h))) by (rewrite E; reflexivity).
    destruct Hinv as [Hd|Hrun].
    + apply (IH t (s', h') Hasc).
      * left. cbn [fst]. rewrite Es. apply duck_declared_stays. exact Hd.
      * intros _. cbn [fst]. rewrite Es. apply duck_declared_stays. exact Hd.
      * exact Hfin.
    + destruct (duck_frame_step tprev t s h Hle Hrun) as (Hnow & Hnext).
      rewrite <- Es in Hnow, Hnext.
      apply (IH t (s', h') Hasc); assumption.
Qed.
End DuckFrames.

(** X26.  The duck race always declares its winner.  If the winner's
    name is on the list, the first frame has a non-zero timestamp and
    timestamps never go back, then the winner is declared by the frame at
    which three seconds have passed and a duck at 85% of 138 px/s would
    have covered the track, whatever [Math.random()] returned and however
    the frames are spaced. *)
Theorem duck_race_declares_the_winner (names : list string) (winnerName : string)
    (width : R) (random : nat -> R) (h : Host.Host) (t0 : R) (rest : list R) :
  winnerName ∈ names -> winnerName <> "" -> t0 <> 0%R -> ascending t0 rest ->
  finish_due width t0 (List.last rest t0) ->
  DuckRace.winnerDeclared
    (fst (duck_frames width (t0 :: rest)
            (fst (DuckRace.effect names winnerName width random true
                    (DuckRace.mount, h))))) = true.
Proof.
  intros Hin Hne Ht0 Hasc Hfin.
  unfold DuckRace.effect.
  assert (Hlen : (String.length winnerName =? 0)%nat = false)
    by (destruct winnerName; [congruence|reflexivity]).
  rewrite Hlen. cbn [negb orb]. unfold Host.requestAnimationFrame. cbn [fst].
  unfold duck_frames. cbn [fold_left]. fold (duck_frames width rest).
  destruct (start_ducks_ready names winnerName width random) as (Hall & Hwin).
  match goal with |- context [DuckRace.animate width t0 (?s, ?h0)] =>
    pose proof (duck_first_frame width t0 s h0 eq_refl eq_refl Hall (Hwin Hin)) as Hrun;
    destruct (DuckRace.animate width t0 (s, h0)) as [s1 h1] end.
  cbn [fst] in Hrun.
  apply (duck_frames_progress width t0 Ht0 rest t0 (s1, h1) Hasc).
  - right. exact Hrun.
  - intros [H3 _]. exfalso. lra.
  - exact Hfin.
Qed.

Lemma duck_race_declares_the_winner_witness :
  DuckRace.winnerDeclared
    (fst (duck_frames 175 [700; 1300; 3700]%R
            (fst (DuckRace.effect ["A"; "B"] "A" 175 (fun _ => 0%R) true
                    (DuckRace.mount, Host.boot))))) = true.
Proof.
  apply (duck_race_declares_the_winner ["A"; "B"] "A" 175 (fun _ => 0%R) Host.boot
           700%R [1300; 3700]%R).
  - constructor.
  - discriminate.
  - lra.
  - simpl. lra.
  - unfold finish_due, DuckRace.finishLineX, DuckRace.FINISH_BUFFER, DuckRace.START_X.
    simpl. lra.
Defined.

Section DuckSpeedRange.
Local Open Scope R_scope.
Variable names : list string.
Variable winnerName : string.
Variable width : R.
Variable random : nat -> R.
Hypothesis random_range : forall k, 0 <= random k < 1.


End DuckSpeedRange.


(** ** The paired draw *)

Lemma selectTask_outcome (st : AppState) (random : nat -> Q) (s : App.Store) :
  tasks st <> [] ->
  (forall k, (0 <= random k)%Q /\ (random k < 1)%Q) ->
  let r := App.selectTask st random s in
  fst r ∈ tasks st /\
  names (App.s_state (snd r)) = names (App.s_state s) /\
  tasks (App.s_state (snd r)) = tasks (App.s_state s) /\
  history (App.s_state (snd r)) = history (App.s_state s) /\
  availableNamesIndices (App.s_state (snd r)) = availableNamesIndices (App.s_state s) /\
  App.s_calls (snd r) = S (App.s_calls s) /\
  App.s_resultCardText (snd r) = App.s_resultCardText s.
Proof.
  intros Ht Hr. cbv zeta.
  assert (Hlen : (0 < length (tasks st))%nat) by (destruct (tasks st); [congruence|simpl; lia]).
  destruct (decide (task_candidates st = [])) as [Hc|Hc].
  - destruct (isTaskNoRepeat st) eqn:Hnr.
    + rewrite (selectTask_exhausted st random s Hnr Ht Hc). cbv zeta. cbn [fst snd].
      set (j := JS.randomIndex _ _).
      assert (Hj : (j < length (tasks st))%nat).
      { subst j. unfold JS.indices at 1. rewrite length_seq.
        apply randomIndex_lt; try apply Hr. exact Hlen. }
      rewrite (indices_lookup _ _ Hj). cbn [mbind option_bind].
      destruct (lookup_lt_is_Some_2 _ _ Hj) as [t Htk]. rewrite Htk. cbn [default].
      split; [eapply list_elem_of_lookup_2; exact Htk|]. repeat split.
    + rewrite (task_candidates_off _ Hnr) in Hc. apply indices_nil in Hc. contradiction.
  - rewrite (selectTask_select st random s Ht Hc). cbv zeta. cbn [fst snd].
    set (j := JS.randomIndex _ _).
    assert (Hj : (j < length (task_candidates st))%nat).
    { apply randomIndex_lt; try apply Hr. destruct (task_candidates st); [congruence|simpl; lia]. }
    destruct (lookup_lt_is_Some_2 _ _ Hj) as [i Hi]. rewrite Hi. cbn [mbind option_bind].
    assert (Hin : i ∈ task_candidates st) by (eapply list_elem_of_lookup_2; exact Hi).
    apply task_candidates_in_range in Hin.
    destruct (lookup_lt_is_Some_2 _ _ Hin) as [t Htk]. rewrite Htk. cbn [default].
    split; [eapply list_elem_of_lookup_2; exact Htk|].
    unfold with_state. destruct (isTaskNoRepeat st); repeat split.
Qed.

(** X28.  A paired draw with a candidate name and a task list that is
    not empty always completes: it pairs one of the names with one of the
    tasks, shows and logs "name is assigned to: task", calls
    [Math.random()] exactly twice and leaves both lists as they are. *)
Theorem paired_draw_pairs_a_name_with_a_task (s : App.Store) (random : nat -> Q)
    (engine : nat -> SortRun) (now : Z) (time : string) :
  let st := App.s_state s in
  let s' := click_draw random engine now time s in
  mode st = paired -> name_candidates st <> [] -> tasks st <> [] ->
  (forall k, (0 <= random k)%Q /\ (random k < 1)%Q) ->
  exists name task,
    name ∈ names st /\ task ∈ tasks st /\
    App.s_resultCardText s' = (name ++ " is assigned to: " ++ task)%string /\
    history (App.s_state s') =
      take 50 ({| h_id := now;
                  h_result := (name ++ " is assigned to: " ++ task)%string;
                  h_mode := paired; h_timestamp := time; h_groups := None |}
               :: history st) /\
    App.s_calls s' = S (S (App.s_calls s)) /\
    names (App.s_state s') = names st /\ tasks (App.s_state s') = tasks st.
Proof.
  cbv zeta. intros Hm Hc Ht Hr.
  pose proof (candidates_nonempty_names _ Hc) as Hn.
  destruct (candidates_lookup _ random (App.s_calls s) Hc (Hr _))
    as (idx & name & Hidx & Hname & Hat).
  assert (E : exists task s2,
    task ∈ tasks (App.s_state s) /\
    names (App.s_state s2) = names (App.s_state s) /\
    tasks (App.s_state s2) = tasks (App.s_state s) /\
    App.s_calls s2 = S (S (App.s_calls s)) /\
    click_draw random engine now time s =
      {| App.s_state :=
           assign (App.s_state s2)
             (History (take 50 ({| h_id := now;
                                   h_result := (name ++ " is assigned to: " ++ task)%string;
                                   h_mode := mode (App.s_state s);
                                   h_timestamp := time; h_groups := None |}
                                :: history (App.s_state s))));
         App.s_isSpinning := App.s_isSpinning s2;
         App.s_currentWinner := App.s_currentWinner s2;
         App.s_resultCardText := (name ++ " is assigned to: " ++ task)%string;
         App.s_calls := App.s_calls s2;
         App.s_effects := (App.s_effects s2 ++ [App.PlayDrawSound]) ++ [App.ResultAnimation] |}).
  { unfold click_draw, App.dispatch, App.handleDraw.
    rewrite (length_eqb_0 _ Hn), Hm. unfold App.bind at 1.
    rewrite (selectNameIndex_select _ random s Hn Hc). cbv zeta. rewrite Hidx, Hat.
    rewrite (length_eqb_0 _ Ht). unfold App.bind at 1.
    match goal with |- context [App.selectTask ?st0 random ?s1] =>
      destruct (selectTask_outcome st0 random s1 Ht Hr)
        as (Htask & Hnames & Htasks & _ & _ & Hcalls & _);
      destruct (App.selectTask st0 random s1) as [task s2] end.
    cbn [fst snd] in *. exists task, s2.
    split; [exact Htask|].
    split; [rewrite Hnames; unfold with_state;
            destruct (isNameNoRepeat (App.s_state s)); reflexivity|].
    split; [rewrite Htasks; unfold with_state;
            destruct (isNameNoRepeat (App.s_state s)); reflexivity|].
    split; [rewrite Hcalls; reflexivity|].
    unfold App.bind, App.logHistory. cbn -[take]. rewrite ?Hm. reflexivity. }
  destruct E as (task & s2 & Htask & Hnames & Htasks & Hcalls & E).
  exists name, task. split; [eapply list_elem_of_lookup_2; exact Hname|].
  split; [exact Htask|]. rewrite E. cbn -[take]. rewrite Hm.
  repeat split; assumption.
Qed.

Lemma paired_draw_pairs_a_name_with_a_task_witness :
  exists name task,
    name ∈ names (App.s_state exhausted_tasks) /\
    task ∈ tasks (App.s_state exhausted_tasks) /\
    App.s_resultCardText
      (click_draw (fun _ => 1 # 2) insertion_engine 0 "09:00:00" exhausted_tasks)
      = (name ++ " is assigned to: " ++ task)%string.
Proof.
  destruct (paired_draw_pairs_a_name_with_a_task exhausted_tasks (fun _ => 1 # 2)
              insertion_engine 0 "09:00:00") as (name & task & H1 & H2 & H3 & _).
  - reflexivity.
  - discriminate.
  - discriminate.
  - intros k. split; [unfold Qle; simpl; lia|reflexivity].
  - exists name, task. auto.
Defined.
